(** * EoswsConnector: token lifecycle of the eosws-js client

    A shallow embedding of [src/client/connector.ts].  The connector is a
    TypeScript class whose methods are [async]: they run synchronously up to
    their first [await], park the rest of their body as a reaction on the
    awaited promise, and are resumed by the job queue once that promise
    settles.  The embedding keeps that structure:

    - the fields of the class, the token store, the refresh scheduler and a
      log of the calls made to the collaborators live in one record, [World];
    - promises are cells of a heap (a list indexed by promise id), each
      either pending with its list of reactions or settled with an outcome;
    - every [await] site of the source is one constructor of [Reaction], and
      [run_job] holds the code that follows the [await];
    - the transport client settles the promises it handed out through
      [Event]s, after which the job queue is drained; calls of the public
      methods and the firing of the refresh timer are events too, each run
      as a task of its own: the synchronous part, then the job queue;
    - [ClientEvent] adds an exchange that resolves with nothing, and
      [call_between_jobs] a call made from a continuation of the caller's,
      between two jobs of the connector.

    Numbers are exact rationals ([Qc]); rounding of IEEE doubles is not
    modelled.  Calls to [debug] are omitted. *)

From Stdlib Require Import ZArith QArith Qcanon String List Lia Lqa.
From stdpp Require Import base list.


(** ** Values *)

(** Modelled from the spec: [ApiTokenInfo] is declared in [./client], which
    is not part of the sources at hand; the spec's data model gives it a
    [token] (opaque credential) and [expires_at] (seconds since epoch). *)
Record ApiTokenInfo : Type := mkApiTokenInfo {
  token : string;
  expires_at : Qc
}.

(** A JavaScript value as far as the connector sees one: [None] is
    [undefined] (also the result of a [Promise<void>]). *)
Definition Value : Type := option ApiTokenInfo.

(** [Thrown m] is the object built by [throw new Error(m)] inside the
    connector; [Reason r] is whatever a collaborator rejected with. *)
Inductive JsError : Type :=
| Thrown (message : string)
| Reason (r : string).

Inductive Outcome : Type :=
| Fulfilled (v : Value)
| Rejected (e : JsError).

(** Promise ids are positions in the heap of promises. *)
Abbreviation pid := nat (only parsing).

(** One constructor per suspension point of the source.  The argument is the
    promise the suspended code will settle. *)
Inductive Reaction : Type :=
| ExchangeSettled (wrapper : pid)       (* fetchToken: the .then/.catch pair *)
| Adopt (target : pid)                  (* an async function returned a promise *)
| AfterFetchToken (result : pid)        (* refreshToken, after await fetchToken() *)
| AfterRefreshToken (result : pid)      (* getToken, after await refreshToken() *)
| AfterGetToken (result : pid)          (* connect, after await getToken() *)
| AfterClientConnect (result : pid)     (* connect, after await client.connect() *)
| AfterClientReconnect (result : pid)   (* reconnect, after await client.reconnect() *)
| AfterClientDisconnect (result : pid). (* disconnect, after await client.disconnect() *)

(** The static type of a promise and who settles it. *)
Inductive Kind : Type :=
| Exchange      (* Promise<ApiTokenInfo> handed out by client.getNewApiToken *)
| Transport     (* Promise<void> handed out by client.connect/reconnect/disconnect *)
| TokenResult   (* built by the connector, carries a token *)
| VoidResult.   (* built by the connector, Promise<void> *)

Inductive PState : Type :=
| Pending (reactions : list Reaction)
| Settled (o : Outcome).

Record Promise : Type := mkPromise {
  kind : Kind;
  state : PState
}.

(** Calls made to the collaborators, oldest first.  Calls that return a
    promise record its id. *)
Inductive Call : Type :=
| SetTokenStorage
| GetNewApiToken (key : string) (p : pid)
| ClientConnect (p : pid)
| ClientReconnect (p : pid)
| ClientDisconnect (p : pid)
| ScheduleNextRefresh (delaySeconds : Qc).

(** ** The world *)

Record World : Type := mkWorld {
  (* fields of EoswsConnector *)
  tokenPromise : option pid;
  firstCall : bool;
  apiKey : string;
  delayBuffer : Qc;
  (* collaborators *)
  tokenStorage : option ApiTokenInfo;
  refreshScheduler : option Qc;
  calls : list Call;
  (* runtime *)
  promises : list Promise;
  microtasks : list (Reaction * Outcome);
  clock : nat -> Z;
  reads : nat
}.

Definition with_tokenPromise (x : option pid) (w : World) : World :=
  mkWorld x (firstCall w) (apiKey w) (delayBuffer w) (tokenStorage w)
    (refreshScheduler w) (calls w) (promises w) (microtasks w) (clock w) (reads w).

Definition with_firstCall (x : bool) (w : World) : World :=
  mkWorld (tokenPromise w) x (apiKey w) (delayBuffer w) (tokenStorage w)
    (refreshScheduler w) (calls w) (promises w) (microtasks w) (clock w) (reads w).

Definition with_tokenStorage (x : option ApiTokenInfo) (w : World) : World :=
  mkWorld (tokenPromise w) (firstCall w) (apiKey w) (delayBuffer w) x
    (refreshScheduler w) (calls w) (promises w) (microtasks w) (clock w) (reads w).

Definition with_refreshScheduler (x : option Qc) (w : World) : World :=
  mkWorld (tokenPromise w) (firstCall w) (apiKey w) (delayBuffer w) (tokenStorage w)
    x (calls w) (promises w) (microtasks w) (clock w) (reads w).

Definition with_calls (x : list Call) (w : World) : World :=
  mkWorld (tokenPromise w) (firstCall w) (apiKey w) (delayBuffer w) (tokenStorage w)
    (refreshScheduler w) x (promises w) (microtasks w) (clock w) (reads w).

Definition with_promises (x : list Promise) (w : World) : World :=
  mkWorld (tokenPromise w) (firstCall w) (apiKey w) (delayBuffer w) (tokenStorage w)
    (refreshScheduler w) (calls w) x (microtasks w) (clock w) (reads w).

Definition with_microtasks (x : list (Reaction * Outcome)) (w : World) : World :=
  mkWorld (tokenPromise w) (firstCall w) (apiKey w) (delayBuffer w) (tokenStorage w)
    (refreshScheduler w) (calls w) (promises w) x (clock w) (reads w).

Definition with_reads (x : nat) (w : World) : World :=
  mkWorld (tokenPromise w) (firstCall w) (apiKey w) (delayBuffer w) (tokenStorage w)
    (refreshScheduler w) (calls w) (promises w) (microtasks w) (clock w) x.

(** ** A state monad over the world *)

Definition M (A : Type) : Type := World -> A * World.

#[global] Instance M_ret : MRet M := fun A a w => (a, w).
#[global] Instance M_bind : MBind M :=
  fun A B f m w => let (a, w') := m w in f a w'.

Definition gets {A : Type} (f : World -> A) : M A := fun w => (f w, w).
Definition modify (f : World -> World) : M unit := fun w => (tt, f w).

(** ** Runtime: clock, promises, job queue *)

(** [Date.now()]: each call consumes one reading of the clock (in ms). *)
Definition Date_now : M Z :=
  fun w => (clock w (reads w), with_reads (S (reads w)) w).

(** [Date.now() / 1000] *)
Definition seconds (ms : Z) : Qc := Q2Qc (inject_Z ms / 1000)%Q.

Definition new_promise (k : Kind) : M pid :=
  fun w => (length (promises w),
            with_promises (promises w ++ [mkPromise k (Pending [])]) w).

(** A promise born settled, as [Promise.resolve(v)]. *)
Definition settled_promise (k : Kind) (o : Outcome) : M pid :=
  fun w => (length (promises w),
            with_promises (promises w ++ [mkPromise k (Settled o)]) w).

(** Settling a pending promise queues its reactions, in the order they were
    registered; settling a settled promise does nothing. *)
Definition settle (p : pid) (o : Outcome) : M unit :=
  fun w =>
    match promises w !! p with
    | Some (mkPromise k (Pending rs)) =>
        (tt, with_microtasks (microtasks w ++ ((fun r => (r, o)) <$> rs))
               (with_promises (<[p := mkPromise k (Settled o)]> (promises w)) w))
    | _ => (tt, w)
    end.

(** Registering a reaction ([await p], [p.then(..)]): parked while [p] is
    pending, queued at once when [p] is already settled. *)
Definition on_settled (p : pid) (r : Reaction) : M unit :=
  fun w =>
    match promises w !! p with
    | Some (mkPromise k (Pending rs)) =>
        (tt, with_promises (<[p := mkPromise k (Pending (rs ++ [r]))]> (promises w)) w)
    | Some (mkPromise k (Settled o)) =>
        (tt, with_microtasks (microtasks w ++ [(r, o)]) w)
    | None => (tt, w)
    end.

Definition log (c : Call) : M unit :=
  modify (fun w => with_calls (calls w ++ [c]) w).

(** ** Collaborators *)

(** Modelled from the spec: the token store ([./api-token-storage] is not
    part of the sources at hand) holds at most one [ApiTokenInfo]; [get] on
    an empty store returns absent, [set] overwrites. *)
Definition tokenStorage_get : M (option ApiTokenInfo) := gets tokenStorage.

Definition tokenStorage_set (v : Value) : M unit := modify (with_tokenStorage v).

(** Modelled from the spec: the refresh scheduler ([./refresh-scheduler] is
    not part of the sources at hand) holds at most one armed one-shot timer;
    arming replaces the timer armed before. *)
Definition scheduleNextRefresh (delaySeconds : Qc) : M unit :=
  log (ScheduleNextRefresh delaySeconds);;
  modify (with_refreshScheduler (Some delaySeconds)).

(** Modelled from the spec: the transport client ([./client] is not part of
    the sources at hand).  Each of its four operations returns a fresh
    pending promise, which the client settles later. *)
Definition client_getNewApiToken (key : string) : M pid :=
  p ← new_promise Exchange; log (GetNewApiToken key p);; mret p.

Definition client_connect : M pid :=
  p ← new_promise Transport; log (ClientConnect p);; mret p.

Definition client_reconnect : M pid :=
  p ← new_promise Transport; log (ClientReconnect p);; mret p.

Definition client_disconnect : M pid :=
  p ← new_promise Transport; log (ClientDisconnect p);; mret p.

(** ** The connector *)

Definition DEFAULT_DELAY_BUFFER_PERCENT : Qc := Q2Qc (9 # 10).

Record EoswsConnectorParams : Type := mkParams {
  params_apiKey : string;
  params_tokenStorage : option (option ApiTokenInfo);
  params_delayBuffer : option Qc
}.

(** [x ? x : d] on an optional number: [undefined] and [0] are falsy. *)
Definition number_or (x : option Qc) (d : Qc) : Qc :=
  match x with
  | Some q => if Qc_eq_dec q 0%Qc then d else q
  | None => d
  end.

(** [new ApiTokenStorage()] *)
Definition new_ApiTokenStorage : option ApiTokenInfo := None.

Definition constructor (params : EoswsConnectorParams) (clk : nat -> Z) : World :=
  {| tokenPromise := None;
     firstCall := true;
     apiKey := params_apiKey params;
     delayBuffer := number_or (params_delayBuffer params) DEFAULT_DELAY_BUFFER_PERCENT;
     tokenStorage :=
       match params_tokenStorage params with
       | Some store => store
       | None => new_ApiTokenStorage
       end;
     refreshScheduler := None;
     calls := [SetTokenStorage];
     promises := [];
     microtasks := [];
     clock := clk;
     reads := 0 |}.

Definition Qcleb (x y : Qc) : bool := Qle_bool (this x) (this y).

Definition isExpiring (tokenInfo : option ApiTokenInfo) : M bool :=
  match tokenInfo with
  | None => mret true
  | Some t =>
      ms ← Date_now;
      let now := seconds ms in
      mret (Qcleb (expires_at t) now)
  end.

Definition getRefreshDelay (tokenInfo : ApiTokenInfo) : M Qc :=
  ms ← Date_now;
  let now := seconds ms in
  mret ((expires_at tokenInfo - now) * Q2Qc (9 # 10))%Qc.

Definition fetchToken : M pid :=
  result ← new_promise TokenResult;
  pending ← gets tokenPromise;
  match pending with
  | Some p => on_settled p (Adopt result);; mret result
  | None =>
      wrapper ← new_promise TokenResult;
      key ← gets apiKey;
      exchange ← client_getNewApiToken key;
      on_settled exchange (ExchangeSettled wrapper);;
      modify (with_tokenPromise (Some wrapper));;
      on_settled wrapper (Adopt result);;
      mret result
  end.

Definition refreshToken : M pid :=
  result ← new_promise TokenResult;
  p ← fetchToken;
  on_settled p (AfterFetchToken result);;
  mret result.

(** [tokenInfo!]: the source asserts the token is present where it arms the
    scheduler in [getToken]; [isExpiring] has just answered [false], which it
    never does for an absent token, so the [None] case below is never run. *)
Definition getRefreshDelay_asserted (tokenInfo : option ApiTokenInfo) : M Qc :=
  match tokenInfo with
  | Some t => getRefreshDelay t
  | None => mret 0%Qc
  end.

Definition getToken : M pid :=
  result ← new_promise TokenResult;
  tokenInfo ← tokenStorage_get;
  expiring ← isExpiring tokenInfo;
  match expiring return M pid with
  | true =>
      modify (with_firstCall false);;
      p ← refreshToken;
      on_settled p (AfterRefreshToken result);;
      mret result
  | false =>
      first ← gets firstCall;
      match first return M unit with
      | true =>
          delay ← getRefreshDelay_asserted tokenInfo;
          scheduleNextRefresh delay;;
          modify (with_firstCall false)
      | false => mret tt
      end;;
      p ← settled_promise TokenResult (Fulfilled tokenInfo);
      on_settled p (Adopt result);;
      mret result
  end.

Definition connect : M pid :=
  result ← new_promise VoidResult;
  p ← getToken;
  on_settled p (AfterGetToken result);;
  mret result.

Definition reconnect : M pid :=
  result ← new_promise VoidResult;
  p ← client_reconnect;
  on_settled p (AfterClientReconnect result);;
  mret result.

Definition disconnect : M pid :=
  result ← new_promise VoidResult;
  p ← client_disconnect;
  on_settled p (AfterClientDisconnect result);;
  mret result.

Definition error_getting_token : JsError := Thrown "error getting token".

(** The code that runs when the promise a reaction was parked on settles
    with outcome [o].  A rejected [await] rethrows, which rejects the result
    of the enclosing async function. *)
Definition run_job (r : Reaction) (o : Outcome) : M unit :=
  match r with
  | ExchangeSettled wrapper =>
      match o with
      | Fulfilled apiTokenInfo =>
          modify (with_tokenPromise None);;
          settle wrapper (Fulfilled apiTokenInfo)
      | Rejected error =>
          modify (with_tokenPromise None);;
          settle wrapper (Rejected error)
      end
  | Adopt target => settle target o
  | AfterFetchToken result =>
      match o with
      | Fulfilled (Some tokenInfo) =>
          tokenStorage_set (Some tokenInfo);;
          delay ← getRefreshDelay tokenInfo;
          scheduleNextRefresh delay;;
          settle result (Fulfilled (Some tokenInfo))
      | Fulfilled None => settle result (Rejected error_getting_token)
      | Rejected e => settle result (Rejected e)
      end
  | AfterRefreshToken result =>
      match o with
      | Fulfilled apiTokenInfo =>
          tokenStorage_set apiTokenInfo;;
          settle result (Fulfilled apiTokenInfo)
      | Rejected e => settle result (Rejected e)
      end
  | AfterGetToken result =>
      match o with
      | Fulfilled (Some apiToken) =>
          tokenStorage_set (Some apiToken);;
          p ← client_connect;
          on_settled p (AfterClientConnect result)
      | Fulfilled None => settle result (Rejected error_getting_token)
      | Rejected e => settle result (Rejected e)
      end
  | AfterClientConnect result =>
      match o with
      | Fulfilled v => settle result (Fulfilled v)
      | Rejected e => settle result (Rejected e)
      end
  | AfterClientReconnect result
  | AfterClientDisconnect result =>
      match o with
      | Fulfilled _ => settle result (Fulfilled None)
      | Rejected e => settle result (Rejected e)
      end
  end.

(** ** Draining the job queue *)

Definition weight (r : Reaction) : nat :=
  match r with
  | AfterGetToken _ => 2
  | _ => 1
  end.

Definition parked (p : Promise) : list Reaction :=
  match state p with
  | Pending rs => rs
  | Settled _ => []
  end.

Definition weights_by (wt : Reaction -> nat) (rs : list Reaction) : nat :=
  sum_list_with wt rs.

(** Reactions queued or parked, each counted with weight [wt]. *)
Definition work (wt : Reaction -> nat)
    (ps : list Promise) (q : list (Reaction * Outcome)) : nat :=
  weights_by wt (fst <$> q) + sum_list_with (fun p => weights_by wt (parked p)) ps.

(** An upper bound on the number of jobs that can still run without a
    further event: every job is a reaction that is queued or parked now, or
    the one reaction that [AfterGetToken] parks. *)
Definition pending_work (w : World) : nat := work weight (promises w) (microtasks w).

Fixpoint drain (fuel : nat) (w : World) : World :=
  match fuel with
  | O => w
  | S n =>
      match microtasks w with
      | [] => w
      | (r, o) :: rest => drain n (snd (run_job r o (with_microtasks rest w)))
      end
  end.

Definition run_microtasks (w : World) : World := drain (pending_work w) w.

(** A call from the outside: the synchronous part, then the job queue. *)
Definition call {A : Type} (f : M A) : M A :=
  fun w => let (a, w') := f w in (a, run_microtasks w').

(** ** Events *)

Inductive Event : Type :=
| CallConnect
| CallReconnect
| CallDisconnect
| CallGetToken
| CallRefreshToken
| TimerFires
| ExchangeResolves (p : pid) (t : ApiTokenInfo)
| TransportResolves (p : pid)
| CollaboratorRejects (p : pid) (reason : string).

Definition Kind_eqb (a b : Kind) : bool :=
  match a, b with
  | Exchange, Exchange | Transport, Transport
  | TokenResult, TokenResult | VoidResult, VoidResult => true
  | _, _ => false
  end.

Definition kind_at (ps : list Promise) (p : pid) : option Kind := kind <$> ps !! p.

Definition kind_of (w : World) (p : pid) : option Kind := kind_at (promises w) p.

(** The transport client settles only promises it handed out, with a value
    of their type. *)
Definition collaborator_settles (p : pid) (o : Outcome) : M unit :=
  fun w =>
    match kind_of w p, o with
    | Some Exchange, Fulfilled (Some _)
    | Some Transport, Fulfilled None
    | Some Exchange, Rejected _
    | Some Transport, Rejected _ => settle p o w
    | _, _ => (tt, w)
    end.

(** Modelled from the spec: when the armed timer of the refresh scheduler
    fires it calls the callback it was built with, [() => this.refreshToken()],
    and does not look at the promise it returns. *)
Definition timer_fires : M unit :=
  armed ← gets refreshScheduler;
  match armed with
  | Some _ => modify (with_refreshScheduler None);; _ ← refreshToken; mret tt
  | None => mret tt
  end.

Definition dispatch (ev : Event) : M unit :=
  match ev with
  | CallConnect => _ ← connect; mret tt
  | CallReconnect => _ ← reconnect; mret tt
  | CallDisconnect => _ ← disconnect; mret tt
  | CallGetToken => _ ← getToken; mret tt
  | CallRefreshToken => _ ← refreshToken; mret tt
  | TimerFires => timer_fires
  | ExchangeResolves p t => collaborator_settles p (Fulfilled (Some t))
  | TransportResolves p => collaborator_settles p (Fulfilled None)
  | CollaboratorRejects p reason => collaborator_settles p (Rejected (Reason reason))
  end.

Definition handle (ev : Event) (w : World) : World := snd (call (dispatch ev) w).

Definition run (evs : list Event) (w : World) : World := foldl (fun w ev => handle ev w) w evs.

(** What a caller holding promise [p] observes. *)
Definition outcome_at (ps : list Promise) (p : pid) : option Outcome :=
  match ps !! p with
  | Some (mkPromise _ (Settled o)) => Some o
  | _ => None
  end.

Definition outcome_of (w : World) (p : pid) : option Outcome := outcome_at (promises w) p.

Definition is_exchange_call (c : Call) : bool :=
  match c with GetNewApiToken _ _ => true | _ => false end.

Definition is_client_connect (c : Call) : bool :=
  match c with ClientConnect _ => true | _ => false end.

Definition exchange_calls (w : World) : nat := length (List.filter is_exchange_call (calls w)).
Definition client_connects (w : World) : nat := length (List.filter is_client_connect (calls w)).

(** ** Scenarios *)

Definition tok1 (now : Qc) : ApiTokenInfo := mkApiTokenInfo "tok1" (now + Q2Qc 1000)%Qc.

Definition params_abc123 : EoswsConnectorParams := mkParams "abc123" None None.

Definition clock0 : nat -> Z := fun _ => 5000000%Z.

(** [Date.now() / 1000] as the next call of [Date.now()] would see it. *)
Definition now_seconds (w : World) : Qc := seconds (clock w (reads w)).

(** The connector's own state: store contents, armed timer, first-call
    flag and in-flight marker. *)
Definition same_connector_state (w w' : World) : Prop :=
  tokenStorage w' = tokenStorage w /\
  refreshScheduler w' = refreshScheduler w /\
  firstCall w' = firstCall w /\
  tokenPromise w' = tokenPromise w.

Definition params_half_buffer (store : option ApiTokenInfo) : EoswsConnectorParams :=
  mkParams "abc123" (Some store) (Some (Q2Qc (1 # 2))).

(** Everything but the promise heap and the job queue. *)
Definition same_fields (w w' : World) : Prop :=
  tokenPromise w' = tokenPromise w /\
  firstCall w' = firstCall w /\
  apiKey w' = apiKey w /\
  delayBuffer w' = delayBuffer w /\
  tokenStorage w' = tokenStorage w /\
  refreshScheduler w' = refreshScheduler w /\
  calls w' = calls w /\
  clock w' = clock w /\
  reads w' = reads w.

(** Events that call [getToken], directly or through [connect]. *)
Definition calls_getToken (ev : Event) : bool :=
  match ev with
  | CallConnect | CallGetToken => true
  | _ => false
  end.

Definition no_getToken_yet (evs : list Event) : bool :=
  forallb (fun ev => negb (calls_getToken ev)) evs.

Definition W0 : World := constructor params_abc123 clock0.

(** A store that holds a token with 1000 seconds left on [clock0]. *)
Definition params_stored : EoswsConnectorParams :=
  mkParams "abc123" (Some (Some (tok1 (seconds 5000000)))) None.

(** ** Invariants *)

(** A token fetch is in flight from the call of [getNewApiToken] until the
    [.then]/[.catch] callback of [fetchToken] has run: as long as its
    [ExchangeSettled] reaction is parked or queued. *)
Definition awaits_exchange (r : Reaction) : nat :=
  match r with
  | ExchangeSettled _ => 1
  | _ => 0
  end.

Definition in_flight (w : World) : nat :=
  work awaits_exchange (promises w) (microtasks w).

Definition marker (w : World) : nat :=
  match tokenPromise w with
  | Some _ => 1
  | None => 0
  end.

Definition pending_exchange (c : Promise) : nat :=
  match kind c, state c with
  | Exchange, Pending _ => 1
  | _, _ => 0
  end.

(** Exchange promises the transport client has not settled yet. *)
Definition exchanges_pending (w : World) : nat :=
  sum_list_with pending_exchange (promises w).

Definition single_flight (w : World) : Prop := in_flight w = marker w.

(** Static types.  Every reaction settles one promise, its [target]; it
    is parked on a promise that carries a token ([source_token]) or on a
    [Promise<void>]. *)
Definition target_of (r : Reaction) : pid :=
  match r with
  | ExchangeSettled p | Adopt p | AfterFetchToken p | AfterRefreshToken p
  | AfterGetToken p | AfterClientConnect p | AfterClientReconnect p
  | AfterClientDisconnect p => p
  end.

Definition target_kind (r : Reaction) : Kind :=
  match r with
  | ExchangeSettled _ | Adopt _ | AfterFetchToken _ | AfterRefreshToken _ => TokenResult
  | AfterGetToken _ | AfterClientConnect _ | AfterClientReconnect _
  | AfterClientDisconnect _ => VoidResult
  end.

Definition source_token (r : Reaction) : bool :=
  match r with
  | AfterClientConnect _ | AfterClientReconnect _ | AfterClientDisconnect _ => false
  | _ => true
  end.

Definition token_kind (k : Kind) : bool :=
  match k with
  | Exchange | TokenResult => true
  | Transport | VoidResult => false
  end.

Definition token_outcome (o : Outcome) : bool :=
  match o with
  | Fulfilled (Some _) | Rejected (Reason _) => true
  | _ => false
  end.

Definition void_outcome (o : Outcome) : bool :=
  match o with
  | Fulfilled None | Rejected (Reason _) => true
  | _ => false
  end.

Definition outcome_matches (tok : bool) (o : Outcome) : bool :=
  if tok then token_outcome o else void_outcome o.

Definition typed_reaction (ps : list Promise) (k : Kind) (r : Reaction) : Prop :=
  token_kind k = source_token r /\ kind_at ps (target_of r) = Some (target_kind r).

Definition typed_job (ps : list Promise) (j : Reaction * Outcome) : Prop :=
  outcome_matches (source_token (fst j)) (snd j) = true /\
  kind_at ps (target_of (fst j)) = Some (target_kind (fst j)).

Definition typed_cell (ps : list Promise) (c : Promise) : Prop :=
  match state c with
  | Settled o => outcome_matches (token_kind (kind c)) o = true
  | Pending rs =>
      Forall (typed_reaction ps (kind c)) rs /\
      pending_exchange c <= weights_by awaits_exchange rs
  end.

Definition typed_heap (ps : list Promise) (q : list (Reaction * Outcome)) : Prop :=
  Forall (typed_cell ps) ps /\ Forall (typed_job ps) q.

Definition typed_marker (tp : option pid) (ps : list Promise) : Prop :=
  forall wp, tp = Some wp -> kind_at ps wp = Some TokenResult.

Definition well_typed (w : World) : Prop :=
  typed_heap (promises w) (microtasks w) /\ typed_marker (tokenPromise w) (promises w).

Definition invariant (w : World) : Prop := well_typed w /\ single_flight w.

(** Promises keep their place and their kind. *)
Definition heap_ext (ps ps' : list Promise) : Prop :=
  forall p k, kind_at ps p = Some k -> kind_at ps' p = Some k.

(** What [settle] and [on_settled] do to the invariants: [pre] is what the
    arguments must satisfy for the types to be kept, [extra] the number of
    fetches that come in flight. *)
Definition heap_step (w w' : World) (pre : Prop) (extra : nat) : Prop :=
  same_fields w w' /\
  heap_ext (promises w) (promises w') /\
  (typed_heap (promises w) (microtasks w) -> pre ->
   typed_heap (promises w') (microtasks w')) /\
  in_flight w' = in_flight w + extra.

(** ** Concurrent callers *)

(** [n] calls of [refreshToken()] in a row, none of them awaited.  (The
    job queue is drained after each, which does nothing here: see
    [refreshToken_queues_nothing].) *)
Fixpoint refreshToken_times (n : nat) : M (list pid) :=
  match n with
  | O => mret []
  | S n =>
      r ← call refreshToken;
      rs ← refreshToken_times n;
      mret (r :: rs)
  end.

(** Settled promises stay as they are. *)
Definition settled_ext (ps ps' : list Promise) : Prop :=
  forall p o, outcome_at ps p = Some o -> outcome_at ps' p = Some o.

(** The callers [rs] of [refreshToken()] wait for the exchange [e]: the
    promise of each is pending, the promise of its [fetchToken()] (allocated
    next) waits to resume it, and the wrapper promise will settle those. *)
Definition waiting (w : World) (wrapper e : pid) (rs : list pid) : Prop :=
  tokenPromise w = Some wrapper /\
  microtasks w = [] /\
  promises w !! e = Some (mkPromise Exchange (Pending [ExchangeSettled wrapper])) /\
  promises w !! wrapper
    = Some (mkPromise TokenResult (Pending ((fun r => Adopt (r + 1)) <$> rs))) /\
  Forall (fun r =>
            promises w !! r = Some (mkPromise TokenResult (Pending [])) /\
            promises w !! (r + 1)
              = Some (mkPromise TokenResult (Pending [AfterFetchToken r])))
         rs /\
  NoDup rs.

(** The promise [r] is still pending with nobody waiting on it, or has
    been settled with [o]. *)
Definition ready (w : World) (o : Outcome) (r : pid) : Prop :=
  promises w !! r = Some (mkPromise TokenResult (Pending [])) \/
  outcome_of w r = Some o.

(** ** Callers waiting for a fetch *)

(** What a job does to the heap and the queue: it settles its target, or
    ([connect], once it has its token) parks on a fresh transport promise. *)
Inductive job_effect (r : Reaction) (w w' : World) : Prop :=
| job_settles (o' : Outcome) :
    promises w' = promises (snd (settle (target_of r) o' w)) ->
    microtasks w' = microtasks (snd (settle (target_of r) o' w)) ->
    job_effect r w w'
| job_connects :
    promises w' =
      promises w ++ [mkPromise Transport (Pending [AfterClientConnect (target_of r)])] ->
    microtasks w' = microtasks w ->
    job_effect r w w'.

(** Every reaction, queued or parked, satisfies [P]. *)
Definition guarded (P : Reaction -> Prop)
    (ps : list Promise) (q : list (Reaction * Outcome)) : Prop :=
  Forall (fun j => P (fst j)) q /\ Forall (fun c => Forall P (parked c)) ps.

(** Only the callback of the exchange settles the wrapper promise. *)
Definition owns (wp : pid) (r : Reaction) : Prop :=
  target_of r = wp -> r = ExchangeSettled wp.

(** A fetch is in flight with wrapper promise [wp]: the wrapper is pending,
    and the callback that will settle it is parked on a pending exchange or
    queued. *)
Definition fetching (wp : pid) (ps : list Promise) (q : list (Reaction * Outcome)) : Prop :=
  (exists rs, ps !! wp = Some (mkPromise TokenResult (Pending rs))) /\
  guarded (owns wp) ps q /\
  ((exists e, ps !! e = Some (mkPromise Exchange (Pending [ExchangeSettled wp]))) \/
   (exists o, In (ExchangeSettled wp, o) q)).

(** The marker [tokenPromise], when set, names the wrapper promise of a
    fetch in flight. *)
Definition flight (w : World) : Prop :=
  forall wp, tokenPromise w = Some wp -> fetching wp (promises w) (microtasks w).


(** [r] settles none of the promises [T]. *)
Definition off (T : list pid) (r : Reaction) : Prop := target_of r ∉ T.

(** The job [r] hands the outcome [o] on to its target as it is. *)
Definition passes (o : Outcome) (r : Reaction) : bool :=
  match r, o with
  | AfterFetchToken _, Fulfilled None => false
  | AfterGetToken _, Fulfilled _ => false
  | AfterClientReconnect _, Fulfilled (Some _) => false
  | AfterClientDisconnect _, Fulfilled (Some _) => false
  | _, _ => true
  end.

(** The promise [p] is pending, and the head of the chain [ch] is one of
    the reactions parked on it; the target of that reaction waits in the
    same way with the rest of the chain.  The reactions parked before and
    after settle promises outside [T]. *)
Fixpoint chain_parked (T : list pid) (ps : list Promise) (p : pid) (ch : list Reaction)
    {struct ch} : Prop :=
  exists k rs rs',
    Forall (off T) rs /\ Forall (off T) rs' /\
    match ch with
    | [] => ps !! p = Some (mkPromise k (Pending (rs ++ rs')))
    | r :: ch' =>
        ps !! p = Some (mkPromise k (Pending (rs ++ r :: rs'))) /\
        chain_parked T ps (target_of r) ch'
    end.

(** Progress along the chain [C] of reactions, each parked on the target of
    the one before: the jobs of a prefix have run and settled their targets
    with [o], the job of the head of [ch] is queued, the others wait.  No
    other reaction settles a promise of the chain. *)
Definition chain_inv (o : Outcome) (C ch : list Reaction)
    (ps : list Promise) (q : list (Reaction * Outcome)) : Prop :=
  let T := target_of <$> C in
  (exists done, C = done ++ ch /\
     Forall (fun r => outcome_at ps (target_of r) = Some o) done) /\
  (forall p c, ps !! p = Some c -> p ∉ T -> Forall (off T) (parked c)) /\
  match ch with
  | [] => Forall (fun j => off T (fst j)) q
  | r :: ch' =>
      exists q1 q2,
        q = q1 ++ (r, o) :: q2 /\
        Forall (fun j => off T (fst j)) q1 /\
        Forall (fun j => off T (fst j)) q2 /\
        chain_parked T ps (target_of r) ch'
  end.


(** Every queued job carries the outcome [o]. *)
Definition uniform (o : Outcome) (w : World) : Prop :=
  Forall (fun j => snd j = o) (microtasks w).

(** The delay [getRefreshDelay] computes for [t] from the [k]-th reading of
    the clock. *)
Definition delay_at (t : ApiTokenInfo) (clk : nat -> Z) (k : nat) : Qc :=
  ((expires_at t - seconds (clk k)) * Q2Qc (9 # 10))%Qc.

Definition is_ExchangeSettled (r : Reaction) : bool :=
  match r with ExchangeSettled _ => true | _ => false end.

Definition is_AfterFetchToken (r : Reaction) : bool :=
  match r with AfterFetchToken _ => true | _ => false end.

(** While the exchange is being rejected with [e]: nothing is called, the
    store and the timer are as they were; the marker is cleared once the
    callback of the exchange has run. *)
Definition rejecting (e : JsError) (w0 : World) (ch : list Reaction) (w : World) : Prop :=
  uniform (Rejected e) w /\
  calls w = calls w0 /\
  tokenStorage w = tokenStorage w0 /\
  refreshScheduler w = refreshScheduler w0 /\
  (existsb is_ExchangeSettled ch = true \/ tokenPromise w = None).

(** While the token [t] is being handed to the callers: no exchange is
    started; once the continuation of [refreshToken] has run the store holds
    [t] and the timer is armed from its expiry; the marker is cleared once
    the callback of the exchange has run. *)
Definition delivering (t : ApiTokenInfo) (w0 : World) (ch : list Reaction) (w : World) : Prop :=
  invariant w /\
  uniform (Fulfilled (Some t)) w /\
  exchange_calls w = exchange_calls w0 /\
  clock w = clock w0 /\
  (existsb is_AfterFetchToken ch = true \/
   (tokenStorage w = Some t /\
    exists k, refreshScheduler w = Some (delay_at t (clock w0) k))) /\
  (existsb is_ExchangeSettled ch = true \/ tokenPromise w = None).


(** The chain [ch] waits for the exchange [e] of the fetch in flight: the
    callback of the exchange is parked on [e], the first reaction of [ch] on
    the wrapper promise [wp], each further one on the target of the one
    before; nothing is queued, and no other reaction settles one of these
    promises. *)
Definition waits (w : World) (e wp : pid) (ch : list Reaction) : Prop :=
  let T := wp :: (target_of <$> ch) in
  microtasks w = [] /\
  promises w !! e = Some (mkPromise Exchange (Pending [ExchangeSettled wp])) /\
  chain_parked T (promises w) wp ch /\
  NoDup T /\
  (e ∉ T) /\
  (forall p c, promises w !! p = Some c -> p <> e -> p ∉ T -> Forall (off T) (parked c)).

(** ** Predicates over the life of a connector *)

(** A token exchange, if [c] is one, was asked for with the key [key]. *)
Definition keyed (key : string) (c : Call) : Prop :=
  match c with
  | GetNewApiToken k _ => k = key
  | _ => True
  end.

(** The world [w] with the field [delayBuffer] replaced. *)
Definition with_delayBuffer (x : Qc) (w : World) : World :=
  mkWorld (tokenPromise w) (firstCall w) (apiKey w) x (tokenStorage w)
    (refreshScheduler w) (calls w) (promises w) (microtasks w) (clock w) (reads w).

(** The computation [f] neither reads nor writes the field [delayBuffer]. *)
Definition ignores_delayBuffer {A : Type} (f : M A) : Prop :=
  forall x w, f (with_delayBuffer x w) = (fst (f w), with_delayBuffer x (snd (f w))).

(** The caller holding the promise [r] of [refreshToken()] waits for the
    exchange [e]. *)
Definition joined (w : World) (e wp : pid) (r : pid) : Prop :=
  exists x, waits w e wp [Adopt x; AfterFetchToken r].

(** The events that can make the connector ask for a token: the calls of
    [connect], [getToken] and [refreshToken], and the refresh timer. *)
Definition asks_for_token (ev : Event) : bool :=
  match ev with
  | CallConnect | CallGetToken | CallRefreshToken | TimerFires => true
  | _ => false
  end.

(** How many of the events [evs] can make the connector ask for a token. *)
Definition requests (evs : list Event) : nat := length (List.filter asks_for_token evs).

(** The token an outcome carries, if it carries one, is one of [Src]. *)
Definition carries (Src : ApiTokenInfo -> Prop) (o : Outcome) : Prop :=
  match o with
  | Fulfilled (Some t) => Src t
  | _ => True
  end.

(** Every token the connector holds is one of [Src]: the token in the store,
    the tokens the queued jobs carry and the tokens promises were fulfilled
    with. *)
Definition sourced (Src : ApiTokenInfo -> Prop) (w : World) : Prop :=
  carries Src (Fulfilled (tokenStorage w)) /\
  Forall (fun j => carries Src (snd j)) (microtasks w) /\
  Forall (fun c => match state c with
                   | Settled o => carries Src o
                   | Pending _ => True
                   end) (promises w).

(** [m] keeps the tokens among [Src], and its result satisfies [Q]. *)
Definition yields (Src : ApiTokenInfo -> Prop) {A : Type} (Q : A -> Prop) (m : M A) : Prop :=
  forall w, sourced Src w -> Q (fst (m w)) /\ sourced Src (snd (m w)).

(** What the store may hold after the event [ev] was handled in the world
    [w]: what it held, or the token an exchange resolved with in [ev]. *)
Definition store_after (w : World) (ev : Event) (v : option ApiTokenInfo) : Prop :=
  v = tokenStorage w \/ exists p t, ev = ExchangeResolves p t /\ v = Some t.

(** Every queued job carries a token that [A] allows in the store. *)
Definition jobs_carry (A : option ApiTokenInfo -> Prop) (w : World) : Prop :=
  Forall (fun j => carries (fun t => A (Some t)) (snd j)) (microtasks w).

(** ** A client that resolves with nothing *)

(** Modelled from the spec: an exchange can also come back with nothing
    (the spec's error kinds name a token exchange that "failed or returned
    nothing"); [getNewApiToken] then resolves with [undefined], where its
    declared type promises an [ApiTokenInfo].  The guards [if (tokenInfo)]
    of [refreshToken] and [if (apiToken)] of [connect] are written for this
    case. *)
Definition exchange_returns_nothing (p : pid) : M unit :=
  fun w =>
    match kind_of w p with
    | Some Exchange => settle p (Fulfilled None) w
    | _ => (tt, w)
    end.

(** The events of [Event], and an exchange resolving with nothing. *)
Inductive ClientEvent : Type :=
| Typed (ev : Event)
| ExchangeReturnsNothing (p : pid).

Definition dispatch_any (ev : ClientEvent) : M unit :=
  match ev with
  | Typed ev => dispatch ev
  | ExchangeReturnsNothing p => exchange_returns_nothing p
  end.

Definition handle_any (ev : ClientEvent) (w : World) : World :=
  snd (call (dispatch_any ev) w).

Definition run_any (evs : list ClientEvent) (w : World) : World :=
  foldl (fun w ev => handle_any ev w) w evs.

(** ** Promises that may be fulfilled with undefined *)

(** Every promise gets a label: [true] when it may be fulfilled with
    [undefined], [false] when it never is.  The labels are [true] for the
    promises of the transport client, for the [Promise<void>] results and
    for the two promises of [fetchToken]; they are [false] for the results
    of [refreshToken] and [getToken]. *)
Definition nullable (lab : list bool) (x : pid) : Prop := lab !! x = Some true.

Definition is_undefined (o : Outcome) : bool :=
  match o with
  | Fulfilled None => true
  | _ => false
  end.

(** The continuations that do not expect [undefined]: the code after
    [await this.refreshToken()] and after [await this.getToken()]. *)
Definition expects_token (r : Reaction) : bool :=
  match r with
  | AfterRefreshToken _ | AfterGetToken _ => true
  | _ => false
  end.

(** The reaction [r] may be parked on a promise labelled [b]: a reaction
    that hands its value on needs a target that may hold it, and a
    continuation that expects a token is parked on a promise labelled
    [false] only. *)
Definition accepts (lab : list bool) (b : bool) (r : Reaction) : Prop :=
  match r with
  | ExchangeSettled x | Adopt x | AfterClientConnect x => b = true -> nullable lab x
  | AfterClientReconnect x | AfterClientDisconnect x => nullable lab x
  | AfterFetchToken _ => True
  | AfterRefreshToken _ => b = false
  | AfterGetToken x => b = false /\ nullable lab x
  end.

Definition cell_labelled (lab : list bool) (b : bool) (c : Promise) : Prop :=
  (kind c = TokenResult \/ b = true) /\
  match state c with
  | Settled o => is_undefined o = true -> b = true
  | Pending rs => Forall (accepts lab b) rs
  end.

Definition job_labelled (lab : list bool) (j : Reaction * Outcome) : Prop :=
  accepts lab (is_undefined (snd j)) (fst j).

(** The labels [lab] fit the world [w]. *)
Definition labelled (lab : list bool) (w : World) : Prop :=
  Forall2 (cell_labelled lab) lab (promises w) /\
  Forall (job_labelled lab) (microtasks w).

(** Labels known of some promises. *)
Definition knows (F : list (pid * bool)) (lab : list bool) : Prop :=
  Forall (fun e => lab !! fst e = Some (snd e)) F.

(** [m] keeps the world labelled, with labels added for the promises it
    makes: from the labels [F] it gets to the labels [Q a], [a] being its
    result. *)
Definition keeps {A : Type} (F : list (pid * bool)) (m : M A)
    (Q : A -> list (pid * bool)) : Prop :=
  forall lab w, labelled lab w -> knows F lab ->
    exists lab', lab `prefix_of` lab' /\ labelled lab' (snd (m w)) /\
                 knows (Q (fst (m w))) lab'.

(** What the reaction [r], about to run with outcome [o], needs to know. *)
Definition facts_of (r : Reaction) (o : Outcome) : list (pid * bool) :=
  match r with
  | ExchangeSettled x | Adopt x | AfterClientConnect x =>
      if is_undefined o then [(x, true)] else []
  | AfterClientReconnect x | AfterClientDisconnect x | AfterGetToken x => [(x, true)]
  | _ => []
  end.

(** A call made from a continuation of the caller's own, which the runtime
    runs as a job between two jobs of the connector (a [then] callback on
    the public [tokenPromise], say): [n] of the queued jobs have run, the
    synchronous part of [f] runs with the others still queued, and they run
    after it. *)
Definition call_between_jobs {A : Type} (n : nat) (f : M A) : M A :=
  fun w => call f (drain n w).

(** Modelled from the spec: [TokenAcquisitionError] is the error kind the
    spec has [connect], [refreshToken] and [getToken] fail with when no
    token could be obtained.  The source declares no such class: an error of
    that kind could only be one the connector builds itself ([Thrown]),
    never the value a collaborator rejected with. *)
Definition TokenAcquisitionError (e : JsError) : bool :=
  match e with
  | Thrown _ => true
  | Reason _ => false
  end.

(** * Proofs *)

(** ** Tactics for unfolding the model *)

#[local] Arguments settle : simpl never.
#[local] Arguments on_settled : simpl never.
#[local] Arguments Qcplus : simpl never.
#[local] Arguments Qcminus : simpl never.
#[local] Arguments Qcmult : simpl never.
#[local] Arguments Q2Qc : simpl never.
#[local] Arguments seconds : simpl never.

Ltac unfold_M :=
  cbv [mbind mret M_bind M_ret gets modify log Date_now new_promise settled_promise
       tokenStorage_get tokenStorage_set scheduleNextRefresh
       client_getNewApiToken client_connect client_reconnect client_disconnect
       getRefreshDelay].

(** Projections of updated worlds. *)
Ltac fields :=
  cbn [tokenPromise firstCall apiKey delayBuffer tokenStorage refreshScheduler calls
       promises microtasks clock reads
       with_tokenPromise with_firstCall with_tokenStorage with_refreshScheduler
       with_calls with_promises with_microtasks with_reads fst snd].

Tactic Notation "fields" "in" hyp(H) :=
  cbn [tokenPromise firstCall apiKey delayBuffer tokenStorage refreshScheduler calls
       promises microtasks clock reads
       with_tokenPromise with_firstCall with_tokenStorage with_refreshScheduler
       with_calls with_promises with_microtasks with_reads fst snd] in H.

(** ** Lists *)

Lemma lookup_fresh {A : Type} (ps l : list A) (i : nat) :
  (ps ++ l) !! (length ps + i) = l !! i.
Proof. induction ps as [|x ps IH]; [reflexivity | exact IH]. Qed.

Lemma insert_fresh {A : Type} (ps l : list A) (i : nat) (x : A) :
  <[length ps + i := x]> (ps ++ l) = ps ++ <[i := x]> l.
Proof. induction ps as [|y ps IH]; [reflexivity | cbn; f_equal; exact IH]. Qed.

Lemma lookup_fresh_insert {A : Type} (ps l : list A) (j : nat) (y : A) (i : nat) :
  (<[j := y]> ps ++ l) !! (length ps + i) = l !! i.
Proof. rewrite <- (length_insert ps j y). apply lookup_fresh. Qed.

Lemma insert_fresh_insert {A : Type} (ps l : list A) (j : nat) (y : A) (i : nat) (x : A) :
  <[length ps + i := x]> (<[j := y]> ps ++ l) = <[j := y]> ps ++ <[i := x]> l.
Proof. rewrite <- (length_insert ps j y). apply insert_fresh. Qed.

Lemma sum_list_with_insert {A : Type} (f : A -> nat) (l : list A) (i : nat) (x y : A) :
  l !! i = Some y ->
  sum_list_with f (<[i := x]> l) + f y = sum_list_with f l + f x.
Proof.
  revert i; induction l as [|a l IH]; intros [|i] H; try discriminate; simpl in *.
  - injection H as ->. lia.
  - specialize (IH i H). lia.
Qed.

Lemma settle_unfold p o w :
  settle p o w =
  match promises w !! p with
  | Some (mkPromise k (Pending rs)) =>
      (tt, with_microtasks (microtasks w ++ ((fun r => (r, o)) <$> rs))
             (with_promises (<[p := mkPromise k (Settled o)]> (promises w)) w))
  | _ => (tt, w)
  end.
Proof. reflexivity. Qed.

Lemma on_settled_unfold p r w :
  on_settled p r w =
  match promises w !! p with
  | Some (mkPromise k (Pending rs)) =>
      (tt, with_promises (<[p := mkPromise k (Pending (rs ++ [r]))]> (promises w)) w)
  | Some (mkPromise k (Settled o)) =>
      (tt, with_microtasks (microtasks w ++ [(r, o)]) w)
  | None => (tt, w)
  end.
Proof. reflexivity. Qed.

(** ** Counting reactions *)

Section Work.
Variable wt : Reaction -> nat.

Lemma weights_by_app (a b : list Reaction) :
  weights_by wt (a ++ b) = weights_by wt a + weights_by wt b.
Proof. apply sum_list_with_app. Qed.

Lemma weights_by_jobs (rs : list Reaction) (o : Outcome) :
  weights_by wt (fst <$> ((fun r => (r, o)) <$> rs)) = weights_by wt rs.
Proof. rewrite <- list_fmap_compose. f_equal. induction rs; cbn; congruence. Qed.

Lemma work_snoc ps c q :
  work wt (ps ++ [c]) q = work wt ps q + weights_by wt (parked c).
Proof. unfold work. rewrite sum_list_with_app. cbn. lia. Qed.

Lemma work_insert ps q i x y :
  ps !! i = Some y ->
  work wt (<[i := x]> ps) q + weights_by wt (parked y)
  = work wt ps q + weights_by wt (parked x).
Proof.
  intros H. unfold work.
  pose proof (sum_list_with_insert (fun c => weights_by wt (parked c)) _ _ x _ H).
  cbn beta in *. lia.
Qed.

Lemma work_enqueue ps q q' :
  work wt ps (q ++ q') = work wt ps q + weights_by wt (fst <$> q').
Proof. unfold work. rewrite fmap_app, weights_by_app. lia. Qed.

Lemma work_dequeue ps r o q : work wt ps ((r, o) :: q) = wt r + work wt ps q.
Proof. unfold work, weights_by. cbn. lia. Qed.

Lemma work_settle p o w :
  work wt (promises (snd (settle p o w))) (microtasks (snd (settle p o w)))
  = work wt (promises w) (microtasks w).
Proof.
  rewrite settle_unfold. destruct (promises w !! p) as [[k [rs|o']]|] eqn:E; try reflexivity.
  fields. rewrite work_enqueue, weights_by_jobs.
  pose proof (work_insert _ (microtasks w) _ (mkPromise k (Settled o)) _ E) as H.
  cbn [parked state] in H. unfold weights_by at 2 in H. cbn in H. lia.
Qed.

Lemma work_on_settled p r w :
  work wt (promises (snd (on_settled p r w))) (microtasks (snd (on_settled p r w)))
  = work wt (promises w) (microtasks w)
    + match promises w !! p with Some _ => wt r | None => 0 end.
Proof.
  rewrite on_settled_unfold. destruct (promises w !! p) as [[k [rs|o']]|] eqn:E; fields.
  - pose proof (work_insert _ (microtasks w) _ (mkPromise k (Pending (rs ++ [r]))) _ E) as H.
    cbn [parked state] in H. rewrite weights_by_app in H.
    unfold weights_by at 3 in H. cbn in H. lia.
  - rewrite work_enqueue. unfold weights_by. cbn. lia.
  - lia.
Qed.
End Work.

(** ** Draining terminates *)

Lemma pending_work_settle p o w : pending_work (snd (settle p o w)) = pending_work w.
Proof. apply work_settle. Qed.

Lemma pending_work_on_settled p r w :
  pending_work (snd (on_settled p r w)) <= pending_work w + weight r.
Proof.
  unfold pending_work. rewrite work_on_settled. destruct (promises w !! p); lia.
Qed.

Lemma weight_pos r : 1 <= weight r.
Proof. destruct r; cbn; lia. Qed.

Lemma pending_work_run_job r o w :
  pending_work (snd (run_job r o w)) + 1 <= pending_work w + weight r.
Proof.
  destruct r; destruct o as [[t|]|e]; unfold run_job; unfold_M; fields;
    try (rewrite pending_work_settle; unfold pending_work; fields; cbn [weight]; lia).
  match goal with |- context [on_settled ?p ?r ?w] =>
    pose proof (pending_work_on_settled p r w) as H end.
  unfold pending_work in *. fields in H. rewrite work_snoc in H.
  cbn [weight parked state] in *. change (weights_by weight []) with 0 in H. lia.
Qed.

Lemma pending_work_cons r o rest w :
  microtasks w = (r, o) :: rest ->
  pending_work w = weight r + pending_work (with_microtasks rest w).
Proof. intros H. unfold pending_work. rewrite H. fields. apply work_dequeue. Qed.

Lemma drain_stable n : forall m w,
  pending_work w <= n -> pending_work w <= m -> drain n w = drain m w.
Proof.
  induction n as [|n IH]; intros m w Hn Hm.
  - destruct (microtasks w) as [|[r o] rest] eqn:E.
    + destruct m; cbn; rewrite ?E; reflexivity.
    + pose proof (pending_work_cons _ _ _ _ E). pose proof (weight_pos r). lia.
  - destruct (microtasks w) as [|[r o] rest] eqn:E.
    + destruct m; cbn; rewrite ?E; reflexivity.
    + pose proof (pending_work_cons _ _ _ _ E) as Hc. pose proof (weight_pos r).
      destruct m as [|m]; [lia|]. cbn. rewrite E.
      pose proof (pending_work_run_job r o (with_microtasks rest w)).
      apply IH; lia.
Qed.

(** The job queue is drained one job at a time until it is empty: the fuel
    [run_microtasks] starts with never runs out. *)
Lemma run_microtasks_unfold w :
  run_microtasks w =
  match microtasks w with
  | [] => w
  | (r, o) :: rest => run_microtasks (snd (run_job r o (with_microtasks rest w)))
  end.
Proof.
  unfold run_microtasks. destruct (microtasks w) as [|[r o] rest] eqn:E.
  - destruct (pending_work w); cbn; rewrite ?E; reflexivity.
  - pose proof (pending_work_cons _ _ _ _ E) as Hc. pose proof (weight_pos r).
    destruct (pending_work w) as [|n] eqn:En; [lia|]. cbn. rewrite E.
    pose proof (pending_work_run_job r o (with_microtasks rest w)).
    apply drain_stable; lia.
Qed.

Lemma drain_quiescent n : forall w, pending_work w <= n -> microtasks (drain n w) = [].
Proof.
  induction n as [|n IH]; intros w Hn; destruct (microtasks w) as [|[r o] rest] eqn:E.
  - exact E.
  - pose proof (pending_work_cons _ _ _ _ E). pose proof (weight_pos r). lia.
  - cbn [drain]. rewrite E. exact E.
  - cbn [drain]. rewrite E.
    pose proof (pending_work_cons _ _ _ _ E). pose proof (weight_pos r).
    pose proof (pending_work_run_job r o (with_microtasks rest w)).
    apply IH; lia.
Qed.

Lemma run_microtasks_quiescent w : microtasks (run_microtasks w) = [].
Proof. apply drain_quiescent. lia. Qed.

Lemma run_microtasks_idle w : microtasks w = [] -> run_microtasks w = w.
Proof. intros H. rewrite run_microtasks_unfold, H. reflexivity. Qed.

(** ** Symbolic execution *)

Ltac heap_norm :=
  repeat first
    [ rewrite <- app_assoc | rewrite length_app | rewrite <- Nat.add_assoc
    | rewrite length_insert
    | rewrite lookup_fresh | rewrite insert_fresh
    | rewrite lookup_fresh_insert | rewrite insert_fresh_insert ];
  cbn [app length lookup list_lookup insert list_insert fmap list_fmap
       option_fmap option_map kind state Nat.add].

Ltac unfold_connector :=
  cbv [run foldl handle call dispatch timer_fires collaborator_settles kind_of kind_at
       connect reconnect disconnect getToken refreshToken fetchToken
       isExpiring getRefreshDelay_asserted run_job error_getting_token
       constructor number_or new_ApiTokenStorage outcome_of outcome_at
       client_connects exchange_calls now_seconds
       params_apiKey params_tokenStorage params_delayBuffer].

Ltac exec_step :=
  first
    [ rewrite on_settled_unfold
    | rewrite settle_unfold
    | rewrite run_microtasks_unfold
    | match goal with H : Qcleb _ _ = _ |- _ => rewrite H end
    | match goal with
      | E : ?ps !! ?p = Some _ |- context [(?ps ++ ?l) !! ?p] =>
          rewrite (lookup_app_l_Some ps l p _ E)
      | E : ?ps !! ?p = Some _ |- context [<[?p := ?x]> (?ps ++ ?l)] =>
          rewrite (insert_app_l ps l p x (lookup_lt_Some _ _ _ E))
      end ].

(** For worlds given as explicit records. *)
Ltac record_fields :=
  cbv [tokenPromise firstCall apiKey delayBuffer tokenStorage refreshScheduler calls
       promises microtasks clock reads
       with_tokenPromise with_firstCall with_tokenStorage with_refreshScheduler
       with_calls with_promises with_microtasks with_reads fst snd].

Ltac exec :=
  repeat (unfold_connector; unfold_M; record_fields; heap_norm; try exec_step);
  unfold_connector; unfold_M; record_fields; heap_norm.

(** ** isExpiring *)

Lemma Qcleb_le (x y : Qc) : Qcleb x y = true <-> (x <= y)%Qc.
Proof. unfold Qcleb, Qcle. apply Qle_bool_iff. Qed.

Lemma Qcleb_nle (x y : Qc) : Qcleb x y = false <-> ~ (x <= y)%Qc.
Proof.
  rewrite <- Qcleb_le. destruct (Qcleb x y); split; intros H; congruence.
Qed.

(** C4.  For every token [t], [isExpiring(t)] answers [true] exactly when
    [t.expires_at <= now], where [now] is [Date.now() / 1000]; and
    [isExpiring] of an absent token is always [true]. *)
Theorem isExpiring_iff_expired :
  (forall (w : World) (t : ApiTokenInfo),
      fst (isExpiring (Some t) w) = true <-> (expires_at t <= now_seconds w)%Qc) /\
  (forall w : World, fst (isExpiring None w) = true).
Proof.
  split.
  - intros w t. unfold isExpiring, now_seconds. unfold_M. cbn [fst]. apply Qcleb_le.
  - intros w. reflexivity.
Qed.

(** ** getRefreshDelay *)

Lemma getRefreshDelay_eq (t : ApiTokenInfo) (w : World) :
  fst (getRefreshDelay t w) = ((expires_at t - now_seconds w) * Q2Qc (9 # 10))%Qc.
Proof. reflexivity. Qed.

Lemma Qc_of_this (a b : Qc) : (this a == this b)%Q -> a = b.
Proof. apply Qc_is_canon. Qed.

(** C1 (the code departs from the claim).  A connector built with
    [delayBuffer = 1/2] still arms the scheduler with [(expires_at - now) * 0.9]:
    for a token with 1000 seconds left both the [refreshToken] path and the
    first-call path of [getToken] pass 900 to [scheduleNextRefresh], where
    [(expires_at - now) * delayBuffer] is 500. *)
Theorem getRefreshDelay_ignores_delayBuffer :
  let now := seconds 5000000 in
  let t := tok1 now in
  let fetched := run [CallRefreshToken; ExchangeResolves 3 t]
                   (constructor (params_half_buffer None) clock0) in
  let read := run [CallGetToken] (constructor (params_half_buffer (Some t)) clock0) in
  delayBuffer fetched = Q2Qc (1 # 2) /\
  delayBuffer read = Q2Qc (1 # 2) /\
  refreshScheduler fetched = Some (Q2Qc 900) /\
  refreshScheduler read = Some (Q2Qc 900) /\
  ((expires_at t - now) * Q2Qc (1 # 2))%Qc = Q2Qc 500 /\
  Q2Qc 900 <> Q2Qc 500.
Proof.
  cbv zeta. refine (conj _ (conj _ (conj _ (conj _ (conj _ _))))).
  - apply Qc_of_this. vm_compute. reflexivity.
  - apply Qc_of_this. vm_compute. reflexivity.
  - match goal with |- ?l = _ => let v := eval vm_compute in l in change l with v end.
    f_equal. apply Qc_of_this. reflexivity.
  - match goal with |- ?l = _ => let v := eval vm_compute in l in change l with v end.
    f_equal. apply Qc_of_this. reflexivity.
  - apply Qc_of_this. vm_compute. reflexivity.
  - intros H. discriminate H.
Qed.

(** ** reconnect and disconnect *)

Ltac open_world w :=
  destruct w as [w_tp w_fc w_key w_db w_st w_sched w_cs w_ps w_q w_clk w_rd];
  fields; intros; subst;
  rewrite <- (app_nil_r w_ps).

(** C8.  [reconnect()] and [disconnect()] make exactly one call, to the
    transport client's [reconnect] and [disconnect]; no token exchange is
    started, and the store, the armed timer, the first-call flag and the
    in-flight marker are as before, both when the call is made and when the
    transport client's promise settles (either way). *)
Theorem reconnect_disconnect_delegate (w : World) :
  microtasks w = [] ->
  (let '(r, w1) := call reconnect w in
   let p := r + 1 in
   calls w1 = calls w ++ [ClientReconnect p] /\
   same_connector_state w w1 /\
   (let w2 := handle (TransportResolves p) w1 in
    calls w2 = calls w1 /\ same_connector_state w w2 /\
    outcome_of w2 r = Some (Fulfilled None)) /\
   (forall reason,
    let w2 := handle (CollaboratorRejects p reason) w1 in
    calls w2 = calls w1 /\ same_connector_state w w2 /\
    outcome_of w2 r = Some (Rejected (Reason reason)))) /\
  (let '(r, w1) := call disconnect w in
   let p := r + 1 in
   calls w1 = calls w ++ [ClientDisconnect p] /\
   same_connector_state w w1 /\
   (let w2 := handle (TransportResolves p) w1 in
    calls w2 = calls w1 /\ same_connector_state w w2 /\
    outcome_of w2 r = Some (Fulfilled None)) /\
   (forall reason,
    let w2 := handle (CollaboratorRejects p reason) w1 in
    calls w2 = calls w1 /\ same_connector_state w w2 /\
    outcome_of w2 r = Some (Rejected (Reason reason)))).
Proof.
  revert w. intros w. open_world w. unfold same_connector_state.
  split; exec; (split; [reflexivity|]); (split; [tauto|]); split; intros; cbv zeta; exec;
    tauto.
Qed.

Lemma reconnect_disconnect_delegate_witness :
  microtasks W0 = [] /\
  calls (snd (call reconnect W0)) = calls W0 ++ [ClientReconnect 1].
Proof.
  split; [reflexivity|].
  pose proof (reconnect_disconnect_delegate W0 eq_refl) as [H _].
  vm_compute in H. vm_compute. exact (proj1 H).
Defined.

(** ** What the job queue leaves alone *)

Lemma settle_same_fields p o w : same_fields w (snd (settle p o w)).
Proof.
  rewrite settle_unfold. destruct (promises w !! p) as [[k [rs|o']]|];
    unfold same_fields; fields; tauto.
Qed.

Lemma on_settled_same_fields p r w : same_fields w (snd (on_settled p r w)).
Proof.
  rewrite on_settled_unfold. destruct (promises w !! p) as [[k [rs|o']]|];
    unfold same_fields; fields; tauto.
Qed.

(** Replace the results of [settle] and [on_settled] by worlds of which
    only the heap and the job queue are unknown. *)
Ltac forget_with lem call :=
  let H := fresh "Hf" in
  let w' := fresh "w" in
  pose proof lem as H;
  destruct call as [[] w']; destruct w';
  unfold same_fields in H; fields in H;
  destruct H as (? & ? & ? & ? & ? & ? & ? & ? & ?); subst; fields.

Ltac forget_heap_step :=
  match goal with
  | |- context [on_settled ?p ?r ?w] =>
      forget_with (on_settled_same_fields p r w) (on_settled p r w)
  | |- context [settle ?p ?o ?w] =>
      forget_with (settle_same_fields p o w) (settle p o w)
  end.

Ltac case_step :=
  match goal with
  | |- context [match ?x with _ => _ end] =>
      let T := type of x in
      lazymatch eval hnf in T with
      | prod _ _ => fail
      | _ => destruct x eqn:?
      end
  end.

Ltac frame_exec :=
  unfold_connector; unfold_M; fields;
  repeat first [ forget_heap_step | case_step; fields ].

Lemma drain_ind (P : World -> Prop) :
  (forall r o rest w,
      P w -> microtasks w = (r, o) :: rest ->
      P (snd (run_job r o (with_microtasks rest w)))) ->
  forall n w, P w -> P (drain n w).
Proof.
  intros step. induction n as [|n IH]; intros w Hw; cbn [drain]; [exact Hw|].
  destruct (microtasks w) as [|[r o] rest] eqn:E; [exact Hw|].
  apply IH. eapply step; eassumption.
Qed.

Lemma run_microtasks_ind (P : World -> Prop) :
  (forall r o rest w,
      P w -> microtasks w = (r, o) :: rest ->
      P (snd (run_job r o (with_microtasks rest w)))) ->
  forall w, P w -> P (run_microtasks w).
Proof. intros step w. apply drain_ind, step. Qed.

Lemma run_job_firstCall r o w : firstCall (snd (run_job r o w)) = firstCall w.
Proof. destruct w, r, o as [[t|]|e]; frame_exec; reflexivity. Qed.

Lemma run_microtasks_firstCall w : firstCall (run_microtasks w) = firstCall w.
Proof.
  apply (run_microtasks_ind (fun w' => firstCall w' = firstCall w)); [|reflexivity].
  intros r o rest w' H _. rewrite run_job_firstCall. exact H.
Qed.

Lemma dispatch_firstCall ev w :
  firstCall (snd (dispatch ev w)) = firstCall w && negb (calls_getToken ev).
Proof.
  destruct w, ev; cbn [calls_getToken negb]; rewrite ?andb_true_r, ?andb_false_r;
    frame_exec; reflexivity.
Qed.

Lemma handle_firstCall ev w :
  firstCall (handle ev w) = firstCall w && negb (calls_getToken ev).
Proof.
  unfold handle, call. destruct (dispatch ev w) as [u w'] eqn:E. cbn [snd].
  rewrite run_microtasks_firstCall. rewrite <- dispatch_firstCall, E. reflexivity.
Qed.

Lemma handle_quiescent ev w : microtasks (handle ev w) = [].
Proof.
  unfold handle, call. destruct (dispatch ev w) as [u w']. apply run_microtasks_quiescent.
Qed.

Lemma run_snoc evs ev w : run (evs ++ [ev]) w = handle ev (run evs w).
Proof. unfold run. rewrite foldl_app. reflexivity. Qed.

Lemma run_quiescent evs w : microtasks w = [] -> microtasks (run evs w) = [].
Proof.
  intros H. induction evs as [|ev evs IH] using rev_ind; [exact H|].
  rewrite run_snoc. apply handle_quiescent.
Qed.

(** The first-call flag is still set exactly when [getToken] has not been
    called yet, neither directly nor through [connect]. *)
Lemma firstCall_history params clk evs :
  firstCall (run evs (constructor params clk)) = no_getToken_yet evs.
Proof.
  induction evs as [|ev evs IH] using rev_ind; [reflexivity|].
  rewrite run_snoc, handle_firstCall, IH. unfold no_getToken_yet.
  rewrite forallb_app. cbn. rewrite andb_true_r. reflexivity.
Qed.

(** ** getToken with a token that is not expiring *)

Lemma getToken_fresh_token_from (w : World) (t : ApiTokenInfo) :
  microtasks w = [] ->
  tokenStorage w = Some t ->
  Qcleb (expires_at t) (now_seconds w) = false ->
  let '(r, w1) := call getToken w in
  outcome_of w1 r = Some (Fulfilled (Some t)) /\
  tokenStorage w1 = Some t /\
  firstCall w1 = false /\
  tokenPromise w1 = tokenPromise w /\
  if firstCall w
  then
    let delay := ((expires_at t - seconds (clock w (S (reads w)))) * Q2Qc (9 # 10))%Qc in
    calls w1 = calls w ++ [ScheduleNextRefresh delay] /\
    refreshScheduler w1 = Some delay
  else
    calls w1 = calls w /\ refreshScheduler w1 = refreshScheduler w.
Proof.
  unfold now_seconds. revert w. intros w. open_world w.
  destruct w_fc; exec; tauto.
Qed.


Lemma exchange_calls_app w cs :
  length (List.filter is_exchange_call (calls w ++ cs)) =
  exchange_calls w + length (List.filter is_exchange_call cs).
Proof. unfold exchange_calls. rewrite List.filter_app, length_app. reflexivity. Qed.

(** C6.  On a connector that went through the events [evs] since it was
    built, a [getToken()] that finds a stored token that is not expiring
    returns that token and leaves the store as it is.  If no [getToken()] was
    made before (directly or through [connect()]) the scheduler is armed once,
    with [(expires_at - now) * 0.9]; otherwise no call is made to the
    scheduler and the armed timer is the one armed before.  Either way the
    first-call flag is consumed and no token exchange is started. *)
Theorem getToken_fresh_token
    (params : EoswsConnectorParams) (clk : nat -> Z) (evs : list Event) (t : ApiTokenInfo) :
  let w := run evs (constructor params clk) in
  tokenStorage w = Some t ->
  ~ (expires_at t <= now_seconds w)%Qc ->
  let '(r, w1) := call getToken w in
  outcome_of w1 r = Some (Fulfilled (Some t)) /\
  tokenStorage w1 = Some t /\
  firstCall w1 = false /\
  exchange_calls w1 = exchange_calls w /\
  if no_getToken_yet evs
  then
    let delay := ((expires_at t - seconds (clock w (S (reads w)))) * Q2Qc (9 # 10))%Qc in
    calls w1 = calls w ++ [ScheduleNextRefresh delay] /\
    refreshScheduler w1 = Some delay
  else
    calls w1 = calls w /\ refreshScheduler w1 = refreshScheduler w.
Proof.
  intros w Hst Hexp. apply Qcleb_nle in Hexp.
  assert (Hq : microtasks w = []) by (apply run_quiescent; reflexivity).
  pose proof (getToken_fresh_token_from w t Hq Hst Hexp) as H.
  destruct (call getToken w) as [r w1].
  destruct H as (Ho & Hs & Hf & _ & Hc).
  unfold w in Hc at 1. rewrite firstCall_history in Hc.
  repeat (split; [assumption|]).
  destruct (no_getToken_yet evs).
  - split; [|exact Hc]. destruct Hc as [Hc _]. unfold exchange_calls at 1.
    rewrite Hc, exchange_calls_app. cbn. lia.
  - split; [|exact Hc]. destruct Hc as [Hc _]. unfold exchange_calls. rewrite Hc. reflexivity.
Qed.

Lemma getToken_fresh_token_witness :
  let w := run [] (constructor params_stored clock0) in
  tokenStorage w = Some (tok1 (seconds 5000000)) /\
  ~ (expires_at (tok1 (seconds 5000000)) <= now_seconds w)%Qc /\
  firstCall (snd (call getToken w)) = false.
Proof.
  assert (H1 : tokenStorage (run [] (constructor params_stored clock0))
               = Some (tok1 (seconds 5000000))) by reflexivity.
  assert (H2 : ~ (expires_at (tok1 (seconds 5000000))
                  <= now_seconds (run [] (constructor params_stored clock0)))%Qc)
    by (apply Qcleb_nle; reflexivity).
  pose proof (getToken_fresh_token params_stored clock0 [] _ H1 H2) as H.
  cbv zeta. refine (conj H1 (conj H2 _)).
  destruct (call getToken (run [] (constructor params_stored clock0))) as [r w1].
  exact (proj1 (proj2 (proj2 H))).
Defined.

(** ** Flows that start a token exchange *)

(** Evaluate the events of the goal one at a time, innermost first. *)
Ltac eval_handles :=
  cbv [run foldl];
  repeat match goal with
  | |- context [handle ?ev ?w] =>
      lazymatch w with
      | context [handle _ _] => fail
      | _ =>
          let H := fresh in
          eassert (H : handle ev w = _) by (exec; reflexivity);
          rewrite H; clear H
      end
  end.

Ltac count_calls :=
  rewrite ?List.filter_app, ?length_app;
  cbn [List.filter is_client_connect is_exchange_call length app].

Ltac finish := count_calls; repeat split; first [reflexivity | lia | eauto].

Ltac expose_expiring H :=
  unfold isExpiring in H; cbv [mbind mret M_bind M_ret Date_now] in H; fields in H.

(** On any world with nothing queued and no fetch in flight: when
    [connect()] finds no usable token and the exchange it starts is rejected,
    [connect()] is rejected with the reason the exchange was rejected with,
    the transport client's [connect] is not called, and the store is as it
    was. *)
Lemma connect_exchange_fails_idle (w : World) (reason : string) :
  microtasks w = [] ->
  tokenPromise w = None ->
  fst (isExpiring (tokenStorage w) w) = true ->
  let '(c, w1) := call connect w in
  let e := c + 5 in
  calls w1 = calls w ++ [GetNewApiToken (apiKey w) e] /\
  outcome_of w1 c = None /\
  let w2 := handle (CollaboratorRejects e reason) w1 in
  outcome_of w2 c = Some (Rejected (Reason reason)) /\
  calls w2 = calls w1 /\
  client_connects w2 = client_connects w /\
  tokenStorage w2 = tokenStorage w.
Proof.
  revert w. intros w. open_world w.
  destruct w_st as [t0|];
    match goal with H : fst _ = true |- _ => expose_expiring H end;
    exec; (split; [reflexivity|]); (split; [reflexivity|]); cbv zeta; eval_handles;
    exec; finish.
Qed.


(** On any world with nothing queued and no fetch in flight: a
    [getToken()] that finds the store empty, or holding a token with
    [expires_at <= now], starts a token exchange; once the exchange resolves
    with a token, that token is in the store, the refresh is scheduled from
    its expiry, and [getToken()] resolves with it, whatever the store held
    before. *)
Lemma getToken_expired_idle (w : World) (t_new : ApiTokenInfo) :
  microtasks w = [] ->
  tokenPromise w = None ->
  fst (isExpiring (tokenStorage w) w) = true ->
  let '(r, w1) := call getToken w in
  let e := r + 4 in
  calls w1 = calls w ++ [GetNewApiToken (apiKey w) e] /\
  outcome_of w1 r = None /\
  let w2 := handle (ExchangeResolves e t_new) w1 in
  outcome_of w2 r = Some (Fulfilled (Some t_new)) /\
  tokenStorage w2 = Some t_new /\
  exchange_calls w2 = exchange_calls w + 1 /\
  refreshScheduler w2 =
    Some ((expires_at t_new - now_seconds w1) * Q2Qc (9 # 10))%Qc.
Proof.
  revert w. intros w. open_world w.
  destruct w_st as [t0|];
    match goal with H : fst _ = true |- _ => expose_expiring H end;
    exec; (split; [reflexivity|]); (split; [reflexivity|]); cbv zeta; eval_handles;
    exec; finish.
Qed.


(** ** The in-flight marker *)

Lemma ExchangeSettled_clears_marker (wrapper : pid) (o : Outcome) (w : World) :
  tokenPromise (snd (run_job (ExchangeSettled wrapper) o w)) = None.
Proof. destruct w, o as [[t|]|e]; frame_exec; reflexivity. Qed.

(** On any world with nothing queued: a [refreshToken()] made while no
    fetch is in flight sets the in-flight marker and starts one exchange.
    When that exchange settles, whether it resolves with a token or is
    rejected, the marker is cleared, and the next [refreshToken()] starts a
    new exchange. *)
Lemma refreshToken_clears_marker_idle (w : World) :
  microtasks w = [] ->
  tokenPromise w = None ->
  let '(r, w1) := call refreshToken w in
  let wrapper := r + 2 in
  let e := r + 3 in
  tokenPromise w1 = Some wrapper /\
  calls w1 = calls w ++ [GetNewApiToken (apiKey w) e] /\
  (forall t : ApiTokenInfo,
      let w2 := handle (ExchangeResolves e t) w1 in
      tokenPromise w2 = None /\
      outcome_of w2 r = Some (Fulfilled (Some t)) /\
      exchange_calls (snd (call refreshToken w2)) = exchange_calls w2 + 1) /\
  (forall reason : string,
      let w2 := handle (CollaboratorRejects e reason) w1 in
      tokenPromise w2 = None /\
      outcome_of w2 r = Some (Rejected (Reason reason)) /\
      exchange_calls (snd (call refreshToken w2)) = exchange_calls w2 + 1).
Proof.
  revert w. intros w. open_world w.
  exec; (split; [reflexivity|]); (split; [reflexivity|]); split; intros; cbv zeta;
    eval_handles; exec; finish.
Qed.


(** ** connect from an empty store *)

Lemma nine_tenths_of_1000 (now : Qc) :
  ((now + Q2Qc 1000 - now) * Q2Qc (9 # 10))%Qc = Q2Qc 900.
Proof.
  replace (now + Q2Qc 1000 - now)%Qc with (Q2Qc 1000) by ring.
  apply Qc_of_this. reflexivity.
Qed.

(** C9.  Empty store, API key "abc123", and an exchange that returns
    [{token: "tok1", expires_at: now + 1000}], [now] being the time at which
    the refresh is scheduled: once [connect()] has completed the store holds
    that token, the transport client's [connect] was called once, one
    exchange was made, and the timer is armed for 900 seconds. *)
Theorem connect_from_empty_store (clk : nat -> Z) :
  let now := seconds (clk 0%nat) in
  let w1 := handle CallConnect (constructor params_abc123 clk) in
  let w2 := handle (ExchangeResolves 5 (tok1 now)) w1 in
  let w3 := handle (TransportResolves 6) w2 in
  tokenStorage (constructor params_abc123 clk) = None /\
  calls w1 = [SetTokenStorage; GetNewApiToken "abc123" 5] /\
  tokenStorage w3 = Some (tok1 now) /\
  client_connects w3 = 1 /\
  exchange_calls w3 = 1 /\
  refreshScheduler w3 = Some (Q2Qc 900) /\
  outcome_of w3 0 = Some (Fulfilled None).
Proof.
  cbv zeta. unfold params_abc123. eval_handles. exec.
  change (expires_at (tok1 (seconds (clk 0%nat)))) with (seconds (clk 0%nat) + Q2Qc 1000)%Qc.
  rewrite nine_tenths_of_1000. repeat split; reflexivity.
Qed.


(** ** Typing is preserved *)

Lemma heap_ext_refl ps : heap_ext ps ps.
Proof. intros p k H. exact H. Qed.

Lemma heap_ext_trans a b c : heap_ext a b -> heap_ext b c -> heap_ext a c.
Proof. intros H1 H2 p k H. apply H2, H1, H. Qed.

Lemma heap_ext_app ps l : heap_ext ps (ps ++ l).
Proof.
  intros p k. unfold kind_at. destruct (ps !! p) as [c|] eqn:E; [|discriminate].
  rewrite (lookup_app_l_Some _ _ _ _ E). trivial.
Qed.

Lemma kind_at_snoc ps c : kind_at (ps ++ [c]) (length ps) = Some (kind c).
Proof. unfold kind_at. rewrite list_lookup_middle by reflexivity. reflexivity. Qed.

Lemma kind_at_insert ps p c c' q :
  ps !! p = Some c -> kind c' = kind c ->
  kind_at (<[p := c']> ps) q = kind_at ps q.
Proof.
  intros E Hk. unfold kind_at. destruct (decide (p = q)) as [->|Hne].
  - rewrite list_lookup_insert_eq by (eapply lookup_lt_Some; eassumption).
    rewrite E. cbn. congruence.
  - rewrite list_lookup_insert_ne by assumption. reflexivity.
Qed.

Lemma heap_ext_insert ps p c c' :
  ps !! p = Some c -> kind c' = kind c -> heap_ext ps (<[p := c']> ps).
Proof. intros E Hk q k. rewrite (kind_at_insert _ _ _ _ _ E Hk). trivial. Qed.

Lemma typed_reaction_ext ps ps' k r :
  heap_ext ps ps' -> typed_reaction ps k r -> typed_reaction ps' k r.
Proof. intros He [H1 H2]. split; [exact H1 | apply He, H2]. Qed.

Lemma typed_job_ext ps ps' j : heap_ext ps ps' -> typed_job ps j -> typed_job ps' j.
Proof. intros He [H1 H2]. split; [exact H1 | apply He, H2]. Qed.

Lemma typed_cell_ext ps ps' c : heap_ext ps ps' -> typed_cell ps c -> typed_cell ps' c.
Proof.
  intros He. unfold typed_cell. destruct (state c) as [rs|o]; [|trivial].
  intros [H1 H2]. split; [|exact H2].
  eapply Forall_impl; [exact H1|]. intros r. apply typed_reaction_ext, He.
Qed.

Lemma typed_ext_cells ps ps' :
  heap_ext ps ps' -> Forall (typed_cell ps) ps -> Forall (typed_cell ps') ps.
Proof. intros He H. eapply Forall_impl; [exact H|]. intros c. apply typed_cell_ext, He. Qed.

Lemma typed_ext_jobs ps ps' q :
  heap_ext ps ps' -> Forall (typed_job ps) q -> Forall (typed_job ps') q.
Proof. intros He H. eapply Forall_impl; [exact H|]. intros c. apply typed_job_ext, He. Qed.

Lemma typed_marker_ext tp ps ps' :
  heap_ext ps ps' -> typed_marker tp ps -> typed_marker tp ps'.
Proof. intros He Hm wp Hwp. apply He, Hm, Hwp. Qed.

(** New promises. *)
Lemma typed_alloc ps q l :
  typed_heap ps q -> Forall (typed_cell (ps ++ l)) l -> typed_heap (ps ++ l) q.
Proof.
  intros (Hc & Hq) Hnew. pose proof (heap_ext_app ps l) as He. split.
  - apply Forall_app. split; [eapply typed_ext_cells; eassumption|exact Hnew].
  - eapply typed_ext_jobs; eassumption.
Qed.

(** A pending promise is settled: its reactions become jobs. *)
Lemma typed_settle ps q p k rs o :
  typed_heap ps q ->
  ps !! p = Some (mkPromise k (Pending rs)) ->
  outcome_matches (token_kind k) o = true ->
  typed_heap (<[p := mkPromise k (Settled o)]> ps) (q ++ ((fun r => (r, o)) <$> rs)).
Proof.
  intros (Hc & Hq) E Ho.
  pose proof (heap_ext_insert ps p _ (mkPromise k (Settled o)) E eq_refl) as He.
  pose proof (proj1 (Forall_lookup _ _) Hc _ _ E) as [Hrs _].
  split.
  - apply Forall_insert; [eapply typed_ext_cells; eassumption|].
    exact Ho.
  - apply Forall_app. split; [eapply typed_ext_jobs; eassumption|].
    apply Forall_fmap. eapply Forall_impl; [exact Hrs|].
    intros r [H1 H2]. split; cbn; [rewrite <- H1; exact Ho | apply He, H2].
Qed.

(** A reaction is parked on a pending promise. *)
Lemma typed_park ps q p k rs r :
  typed_heap ps q ->
  ps !! p = Some (mkPromise k (Pending rs)) ->
  typed_reaction ps k r ->
  typed_heap (<[p := mkPromise k (Pending (rs ++ [r]))]> ps) q.
Proof.
  intros (Hc & Hq) E Hr.
  pose proof (heap_ext_insert ps p _ (mkPromise k (Pending (rs ++ [r]))) E eq_refl) as He.
  pose proof (proj1 (Forall_lookup _ _) Hc _ _ E) as [Hrs Hx].
  split.
  - apply Forall_insert; [eapply typed_ext_cells; eassumption|].
    split.
    + apply Forall_app. split.
      * eapply Forall_impl; [exact Hrs|]. intros r'. apply typed_reaction_ext, He.
      * apply Forall_singleton. eapply typed_reaction_ext; eassumption.
    + rewrite weights_by_app. unfold pending_exchange in *. cbn [kind state] in *.
      destruct k; lia.
  - eapply typed_ext_jobs; eassumption.
Qed.

(** A reaction on a settled promise is queued at once. *)
Lemma typed_enqueue ps q p k o r :
  typed_heap ps q ->
  ps !! p = Some (mkPromise k (Settled o)) ->
  typed_reaction ps k r ->
  typed_heap ps (q ++ [(r, o)]).
Proof.
  intros (Hc & Hq) E [H1 H2].
  pose proof (proj1 (Forall_lookup _ _) Hc _ _ E) as Ho. unfold typed_cell in Ho. cbn in Ho.
  split; [exact Hc|].
  apply Forall_app. split; [exact Hq|]. apply Forall_singleton.
  split; cbn; [rewrite <- H1; exact Ho | exact H2].
Qed.

Lemma typed_dequeue ps j q : typed_heap ps (j :: q) -> typed_heap ps q /\ typed_job ps j.
Proof.
  intros (Hc & Hq). apply Forall_cons in Hq as [Hj Hq].
  split; [split; [exact Hc|exact Hq]|exact Hj].
Qed.

(** *** settle and on_settled *)

Lemma settle_ext p o w : heap_ext (promises w) (promises (snd (settle p o w))).
Proof.
  rewrite settle_unfold. destruct (promises w !! p) as [[k [rs|o']]|] eqn:E; fields;
    try apply heap_ext_refl.
  eapply heap_ext_insert; [exact E|reflexivity].
Qed.

Lemma on_settled_ext p r w : heap_ext (promises w) (promises (snd (on_settled p r w))).
Proof.
  rewrite on_settled_unfold. destruct (promises w !! p) as [[k [rs|o']]|] eqn:E; fields;
    try apply heap_ext_refl.
  eapply heap_ext_insert; [exact E|reflexivity].
Qed.

Lemma settle_typed p o w :
  typed_heap (promises w) (microtasks w) ->
  (forall k, kind_at (promises w) p = Some k -> outcome_matches (token_kind k) o = true) ->
  typed_heap (promises (snd (settle p o w))) (microtasks (snd (settle p o w))).
Proof.
  intros Hw Ho. rewrite settle_unfold.
  destruct (promises w !! p) as [[k [rs|o']]|] eqn:E; fields; try exact Hw.
  eapply typed_settle; [exact Hw|exact E|]. apply Ho. unfold kind_at. rewrite E. reflexivity.
Qed.

Lemma on_settled_typed p r w :
  typed_heap (promises w) (microtasks w) ->
  (forall k, kind_at (promises w) p = Some k -> typed_reaction (promises w) k r) ->
  typed_heap (promises (snd (on_settled p r w))) (microtasks (snd (on_settled p r w))).
Proof.
  intros Hw Hr. rewrite on_settled_unfold.
  destruct (promises w !! p) as [[k [rs|o']]|] eqn:E; fields; try exact Hw.
  - eapply typed_park; [exact Hw|exact E|]. apply Hr. unfold kind_at. rewrite E. reflexivity.
  - eapply typed_enqueue; [exact Hw|exact E|]. apply Hr. unfold kind_at. rewrite E. reflexivity.
Qed.

Lemma settle_step p o w :
  heap_step w (snd (settle p o w))
    (forall k, kind_at (promises w) p = Some k -> outcome_matches (token_kind k) o = true)
    0.
Proof.
  split; [apply settle_same_fields|]. split; [apply settle_ext|].
  split; [apply settle_typed|]. unfold in_flight. rewrite work_settle. lia.
Qed.

Lemma on_settled_step p r w :
  heap_step w (snd (on_settled p r w))
    (forall k, kind_at (promises w) p = Some k -> typed_reaction (promises w) k r)
    (match promises w !! p with Some _ => awaits_exchange r | None => 0 end).
Proof.
  split; [apply on_settled_same_fields|]. split; [apply on_settled_ext|].
  split; [apply on_settled_typed|]. unfold in_flight. apply work_on_settled.
Qed.

Lemma match_zero {A : Type} (x : option A) : match x with Some _ => 0 | None => 0 end = 0.
Proof. destruct x; reflexivity. Qed.

Lemma lookup_snoc {A : Type} (l : list A) (x : A) : (l ++ [x]) !! length l = Some x.
Proof. apply list_lookup_middle. reflexivity. Qed.

Lemma insert_snoc {A : Type} (l : list A) (x y : A) : <[length l := y]> (l ++ [x]) = l ++ [y].
Proof.
  replace (length l) with (length l + 0) by lia. rewrite insert_app_r. reflexivity.
Qed.

Ltac inv_forget_with lem call :=
  let H := fresh "Hs" in
  let w' := fresh "w" in
  let ps' := fresh "ps" in
  let q' := fresh "q" in
  pose proof lem as H;
  destruct call as [[] w']; destruct w' as [? ? ? ? ? ? ? ps' q' ? ?];
  unfold heap_step, same_fields, in_flight in H; fields in H;
  cbn [awaits_exchange] in H; rewrite ?match_zero, ?Nat.add_0_r in H;
  destruct H as ((? & ? & ? & ? & ? & ? & ? & ? & ?) & ? & ? & ?); subst; fields.

(** [on_settled] on the promise allocated last is computed; elsewhere the
    heap it returns is left unknown. *)
Ltac inv_step :=
  first
    [ rewrite on_settled_unfold; fields; rewrite lookup_snoc;
      cbv beta iota; rewrite insert_snoc; fields; cbn [app]
    | match goal with
      | |- context [on_settled ?p ?r ?w] =>
          inv_forget_with (on_settled_step p r w) (on_settled p r w)
      | |- context [settle ?p ?o ?w] =>
          inv_forget_with (settle_step p o w) (settle p o w)
      end ].

Ltac ext_solve :=
  match goal with
  | |- heap_ext ?a ?a => apply heap_ext_refl
  | H : heap_ext ?x ?b |- heap_ext ?a ?b =>
      apply (heap_ext_trans a x b); [ext_solve | exact H]
  | |- heap_ext ?a (?x ++ ?l) =>
      apply (heap_ext_trans a x); [ext_solve | apply heap_ext_app]
  end.

Ltac kind_solve :=
  match goal with
  | H : kind_at ?ps ?p = Some _ |- kind_at ?ps ?p = Some _ => exact H
  | |- kind_at (?x ++ [?c]) (length ?x) = Some _ => apply kind_at_snoc
  | H : heap_ext ?x ?b |- kind_at ?b ?p = Some _ => apply H; kind_solve
  | |- kind_at (?x ++ ?l) ?p = Some _ => apply heap_ext_app; kind_solve
  end.

Ltac reaction_solve :=
  split; [reflexivity | cbn [target_of target_kind]; kind_solve].

Ltac cell_solve :=
  unfold typed_cell; cbn [state kind];
  first
    [ reflexivity
    | split;
      [ repeat (apply Forall_cons; split; [reaction_solve|]); apply List.Forall_nil
      | unfold pending_exchange, weights_by; cbn; lia ] ].

(** Side conditions of the form [forall k, kind_at ps p = Some k -> _]. *)
Ltac pre_solve :=
  let k := fresh "k" in
  let Hk := fresh "Hk" in
  let Hk' := fresh "Hk" in
  intros k Hk;
  lazymatch type of Hk with
  | Some _ = Some _ => injection Hk as <-
  | kind_at ?ps ?p = Some _ =>
      eassert (Hk' : kind_at ps p = Some _) by (clear Hk; kind_solve);
      rewrite Hk' in Hk; injection Hk as <-
  end;
  first [ reaction_solve | reflexivity | assumption ].

Ltac typed_solve :=
  match goal with
  | H : typed_heap ?ps ?q |- typed_heap ?ps ?q => exact H
  | H : typed_heap ?a ?b -> _ -> typed_heap ?ps ?q |- typed_heap ?ps ?q =>
      apply H; [typed_solve | pre_solve]
  | |- typed_heap (?ps ++ ?l) ?q =>
      apply typed_alloc;
      [ typed_solve
      | repeat (apply Forall_cons; split; [cell_solve|]); apply List.Forall_nil ]
  end.

Ltac marker_solve :=
  match goal with
  | |- typed_marker None _ => intros ? ?; discriminate
  | H : typed_marker ?tp ?a |- typed_marker ?tp ?b =>
      apply (typed_marker_ext tp a b); [ext_solve | exact H]
  | |- typed_marker (Some _) _ =>
      let wp := fresh in
      let E := fresh in
      intros wp E; injection E as <-; kind_solve
  end.

Ltac flight_solve :=
  repeat match goal with
  | H : work awaits_exchange ?ps ?q = _ |- context [work awaits_exchange ?ps ?q] =>
      rewrite H; clear H
  end;
  rewrite ?work_enqueue, ?work_snoc;
  unfold weights_by; cbn [parked state sum_list_with awaits_exchange fmap list_fmap fst];
  lia.

Ltac unfold_invariant :=
  unfold invariant, well_typed, single_flight, in_flight, marker, kind_of in *.

Ltac marker_fact :=
  match goal with
  | H : typed_marker (Some ?tp) ?ps |- _ =>
      lazymatch goal with
      | _ : kind_at ps tp = Some TokenResult |- _ => fail
      | _ => pose proof (H tp eq_refl)
      end
  | _ => idtac
  end.

Ltac inv_solve :=
  marker_fact;
  repeat match goal with
  | |- _ /\ _ => split
  end;
  first [ typed_solve | marker_solve | flight_solve | ext_solve | kind_solve ].

Lemma fetchToken_invariant w :
  invariant w ->
  let '(r, w') := fetchToken w in
  invariant w' /\ heap_ext (promises w) (promises w') /\ kind_of w' r = Some TokenResult.
Proof.
  destruct w as [w_tp w_fc w_key w_db w_st w_sched w_cs w_ps w_q w_clk w_rd].
  unfold_invariant. fields. intros ((Ht & Hm) & Hx).
  unfold fetchToken. unfold_M. fields. destruct w_tp as [tp|]; fields;
    repeat inv_step; inv_solve.
Qed.

(** Use the invariant lemma [lem] of a method of the connector for its
    call [c]: the world it returns is left unknown. *)
Ltac inv_call lem c :=
  let H := fresh "Hc" in
  let r := fresh "r" in
  let w' := fresh "w" in
  let ps' := fresh "ps" in
  let q' := fresh "q" in
  pose proof lem as H;
  destruct c as [r w']; destruct w' as [? ? ? ? ? ? ? ps' q' ? ?];
  unfold_invariant; fields in H;
  lapply H; [clear H; intros (((? & ?) & ?) & ? & ?) | inv_solve]; fields.

Ltac inv_exec :=
  unfold_M; fields;
  repeat first
    [ inv_step
    | match goal with
      | |- context [fetchToken ?w] => inv_call (fetchToken_invariant w) (fetchToken w)
      end
    | case_step; fields ].

Lemma refreshToken_invariant w :
  invariant w ->
  let '(r, w') := refreshToken w in
  invariant w' /\ heap_ext (promises w) (promises w') /\ kind_of w' r = Some TokenResult.
Proof.
  destruct w as [w_tp w_fc w_key w_db w_st w_sched w_cs w_ps w_q w_clk w_rd].
  unfold_invariant. fields. intros ((Ht & Hm) & Hx).
  unfold refreshToken. inv_exec; inv_solve.
Qed.

Ltac inv_exec2 :=
  unfold_M; fields;
  repeat first
    [ inv_step
    | match goal with
      | |- context [refreshToken ?w] =>
          inv_call (refreshToken_invariant w) (refreshToken w)
      end
    | case_step; fields ].

Lemma getToken_invariant w :
  invariant w ->
  let '(r, w') := getToken w in
  invariant w' /\ heap_ext (promises w) (promises w') /\ kind_of w' r = Some TokenResult.
Proof.
  destruct w as [w_tp w_fc w_key w_db w_st w_sched w_cs w_ps w_q w_clk w_rd].
  unfold_invariant. fields. intros ((Ht & Hm) & Hx).
  unfold getToken, isExpiring, getRefreshDelay_asserted. inv_exec2; inv_solve.
Qed.


Ltac inv_exec3 :=
  unfold_M; fields;
  repeat first
    [ inv_step
    | match goal with
      | |- context [refreshToken ?w] =>
          inv_call (refreshToken_invariant w) (refreshToken w)
      | |- context [getToken ?w] =>
          inv_call (getToken_invariant w) (getToken w)
      end
    | case_step; fields ].

Lemma dispatch_invariant ev w :
  invariant w ->
  invariant (snd (dispatch ev w)) /\ heap_ext (promises w) (promises (snd (dispatch ev w))).
Proof.
  destruct w as [w_tp w_fc w_key w_db w_st w_sched w_cs w_ps w_q w_clk w_rd].
  unfold_invariant. fields. intros ((Ht & Hm) & Hx).
  destruct ev;
    unfold dispatch, connect, reconnect, disconnect, timer_fires, collaborator_settles, kind_of;
    inv_exec3; inv_solve.
Qed.

Lemma run_job_invariant r o rest w :
  invariant w ->
  microtasks w = (r, o) :: rest ->
  invariant (snd (run_job r o (with_microtasks rest w))) /\
  heap_ext (promises w) (promises (snd (run_job r o (with_microtasks rest w)))).
Proof.
  destruct w as [w_tp w_fc w_key w_db w_st w_sched w_cs w_ps w_q w_clk w_rd].
  unfold_invariant. fields. intros ((Ht & Hm) & Hx) ->.
  apply typed_dequeue in Ht as (Ht & Ho & Hk). rewrite work_dequeue in Hx.
  cbn [fst snd] in Ho, Hk.
  destruct w_tp as [tp|], r; cbn [awaits_exchange] in Hx; try lia;
    cbn [source_token target_of target_kind outcome_matches] in Ho, Hk;
    destruct o as [[t|]|[m|reason]]; try discriminate Ho;
    unfold run_job; inv_exec3; inv_solve.
Qed.

Lemma drain_invariant n w :
  invariant w ->
  invariant (drain n w) /\ heap_ext (promises w) (promises (drain n w)).
Proof.
  intros H.
  apply (drain_ind (fun w' => invariant w' /\ heap_ext (promises w) (promises w'))).
  - intros r o rest w' [Hw He] E.
    destruct (run_job_invariant r o rest w' Hw E) as [Hw' He'].
    split; [exact Hw'|]. eapply heap_ext_trans; eassumption.
  - split; [exact H|apply heap_ext_refl].
Qed.

Lemma handle_invariant ev w :
  invariant w -> invariant (handle ev w) /\ heap_ext (promises w) (promises (handle ev w)).
Proof.
  intros H. unfold handle, call. destruct (dispatch_invariant ev w H) as [Hd He].
  destruct (dispatch ev w) as [u w']. cbn [snd] in *.
  destruct (drain_invariant (pending_work w') w' Hd) as [Hr He'].
  split; [exact Hr|]. eapply heap_ext_trans; eassumption.
Qed.

Lemma constructor_invariant params clk : invariant (constructor params clk).
Proof.
  unfold constructor. unfold_invariant. fields. repeat split; try constructor.
  intros wp H. discriminate H.
Qed.

Lemma run_invariant evs w :
  invariant w -> invariant (run evs w) /\ heap_ext (promises w) (promises (run evs w)).
Proof.
  intros H. induction evs as [|ev evs [IH He]] using rev_ind.
  - split; [exact H|apply heap_ext_refl].
  - rewrite run_snoc. destruct (handle_invariant ev _ IH) as [Hh He'].
    split; [exact Hh|]. eapply heap_ext_trans; eassumption.
Qed.

Lemma reachable_invariant params clk evs : invariant (run evs (constructor params clk)).
Proof. apply run_invariant, constructor_invariant. Qed.

(** A call from the outside, followed by any events: the promise it
    returned keeps its kind, and the invariant holds. *)
Lemma call_invariant (K : Kind) (f : M pid) :
  (forall w, invariant w ->
     let '(r, w') := f w in
     invariant w' /\ heap_ext (promises w) (promises w') /\ kind_of w' r = Some K) ->
  forall w evs, invariant w ->
    let '(r, w1) := call f w in
    invariant (run evs w1) /\ kind_of (run evs w1) r = Some K.
Proof.
  intros Hf w evs Hw. unfold call. specialize (Hf w Hw).
  destruct (f w) as [r w']. destruct Hf as (Hw' & _ & Hk).
  destruct (drain_invariant (pending_work w') w' Hw') as [Hd Hde].
  destruct (run_invariant evs _ Hd) as [Hr Hre].
  split; [exact Hr|]. apply Hre, Hde, Hk.
Qed.

Lemma settled_outcome_typed w p k o :
  invariant w -> kind_of w p = Some k -> outcome_of w p = Some o ->
  outcome_matches (token_kind k) o = true.
Proof.
  intros (((Hc & _) & _) & _). unfold kind_of, kind_at, outcome_of, outcome_at.
  destruct (promises w !! p) as [[k' [rs|o']]|] eqn:E; try discriminate.
  cbn. intros [= ->] [= ->].
  exact (proj1 (Forall_lookup _ _) Hc _ _ E).
Qed.

Lemma connect_invariant w :
  invariant w ->
  let '(r, w') := connect w in
  invariant w' /\ heap_ext (promises w) (promises w') /\ kind_of w' r = Some VoidResult.
Proof.
  destruct w as [w_tp w_fc w_key w_db w_st w_sched w_cs w_ps w_q w_clk w_rd].
  unfold_invariant. fields. intros ((Ht & Hm) & Hx).
  unfold connect. inv_exec3; inv_solve.
Qed.

Lemma token_outcome_cases o :
  token_outcome o = true ->
  (exists t, o = Fulfilled (Some t)) \/ (exists reason, o = Rejected (Reason reason)).
Proof. destruct o as [[t|]|[m|reason]]; try discriminate; eauto. Qed.

Lemma void_outcome_cases o :
  void_outcome o = true ->
  o = Fulfilled None \/ (exists reason, o = Rejected (Reason reason)).
Proof. destruct o as [[t|]|[m|reason]]; try discriminate; eauto. Qed.

Lemma token_call_outcome (f : M pid) :
  (forall w, invariant w ->
     let '(r, w') := f w in
     invariant w' /\ heap_ext (promises w) (promises w') /\ kind_of w' r = Some TokenResult) ->
  forall w evs, invariant w ->
    let '(r, w1) := call f w in
    forall o, outcome_of (run evs w1) r = Some o ->
      (exists t, o = Fulfilled (Some t)) \/ (exists reason, o = Rejected (Reason reason)).
Proof.
  intros Hf w evs Hw. pose proof (call_invariant TokenResult f Hf w evs Hw) as H.
  destruct (call f w) as [r w1]. destruct H as [Hi Hk]. intros o Ho.
  apply token_outcome_cases. exact (settled_outcome_typed _ _ _ _ Hi Hk Ho).
Qed.

(** ** No undefined token, no throw *)

(** As long as every exchange resolves with a token or is rejected: on a
    connector that went through the events [evs] since it was built, no job
    that resumes code waiting for a token ever carries [undefined], so
    neither "error getting token" branch is taken; the promises returned by
    [getToken], [fetchToken] and [refreshToken] are settled, if at all, with
    a token or with the reason a collaborator rejected with; and the promise
    returned by [connect] with [undefined] or with such a reason, never with
    an error thrown by the connector. *)
Lemma typed_client_no_throw
    (params : EoswsConnectorParams) (clk : nat -> Z) (evs evs' : list Event) :
  let w := run evs (constructor params clk) in
  (forall ev n r o,
      In (r, o) (microtasks (drain n (snd (dispatch ev w)))) ->
      source_token r = true ->
      (exists t, o = Fulfilled (Some t)) \/ (exists reason, o = Rejected (Reason reason))) /\
  (let '(r, w1) := call getToken w in
   forall o, outcome_of (run evs' w1) r = Some o ->
     (exists t, o = Fulfilled (Some t)) \/ (exists reason, o = Rejected (Reason reason))) /\
  (let '(r, w1) := call fetchToken w in
   forall o, outcome_of (run evs' w1) r = Some o ->
     (exists t, o = Fulfilled (Some t)) \/ (exists reason, o = Rejected (Reason reason))) /\
  (let '(r, w1) := call refreshToken w in
   forall o, outcome_of (run evs' w1) r = Some o ->
     (exists t, o = Fulfilled (Some t)) \/ (exists reason, o = Rejected (Reason reason))) /\
  (let '(r, w1) := call connect w in
   forall o, outcome_of (run evs' w1) r = Some o ->
     o = Fulfilled None \/ (exists reason, o = Rejected (Reason reason))).
Proof.
  intros w. assert (Hw : invariant w) by apply reachable_invariant.
  split; [|split; [|split; [|split]]].
  - intros ev n r o Hin Hr.
    destruct (dispatch_invariant ev w Hw) as [Hd _].
    destruct (drain_invariant n _ Hd) as [(((_ & Hq) & _) & _) _].
    apply token_outcome_cases.
    pose proof (proj1 (List.Forall_forall _ _) Hq _ Hin) as [Ho _].
    cbn [fst snd] in Ho. rewrite Hr in Ho. exact Ho.
  - apply token_call_outcome; [apply getToken_invariant | exact Hw].
  - apply token_call_outcome; [apply fetchToken_invariant | exact Hw].
  - apply token_call_outcome; [apply refreshToken_invariant | exact Hw].
  - pose proof (call_invariant VoidResult connect connect_invariant w evs' Hw) as H.
    destruct (call connect w) as [r w1]. destruct H as [Hi Hk]. intros o Ho.
    apply void_outcome_cases. exact (settled_outcome_typed _ _ _ _ Hi Hk Ho).
Qed.

(** ** One fetch at a time *)

Lemma sum_list_with_le {A : Type} (f g : A -> nat) (l : list A) :
  Forall (fun x => f x <= g x) l -> sum_list_with f l <= sum_list_with g l.
Proof. induction 1; cbn; lia. Qed.

Lemma typed_cell_pending_exchange ps c :
  typed_cell ps c -> pending_exchange c <= weights_by awaits_exchange (parked c).
Proof.
  unfold typed_cell, parked, pending_exchange. destruct c as [k [rs|o]]; cbn.
  - intros [_ H]. exact H.
  - intros _. destruct k; lia.
Qed.

Lemma exchanges_pending_marker w : invariant w -> exchanges_pending w <= marker w.
Proof.
  intros (((Hc & _) & _) & Hx). unfold single_flight, in_flight, work in Hx.
  rewrite <- Hx. unfold exchanges_pending.
  etransitivity; [|apply Nat.le_add_l].
  apply sum_list_with_le. eapply Forall_impl; [exact Hc|].
  intros c. apply typed_cell_pending_exchange.
Qed.

Lemma marker_le_1 w : marker w <= 1.
Proof. unfold marker. destruct (tokenPromise w); lia. Qed.

(** While the marker is set, [fetchToken] and [refreshToken] make no call
    to the transport client and park on the marked promise. *)
Lemma fetchToken_in_flight w tp k rs :
  tokenPromise w = Some tp ->
  promises w !! tp = Some (mkPromise k (Pending rs)) ->
  let '(r, w1) := fetchToken w in
  calls w1 = calls w /\
  tokenPromise w1 = Some tp /\
  promises w1 !! tp = Some (mkPromise k (Pending (rs ++ [Adopt r]))).
Proof.
  destruct w as [w_tp w_fc w_key w_db w_st w_sched w_cs w_ps w_q w_clk w_rd].
  fields. intros -> E.
  unfold fetchToken. unfold_M. fields. rewrite on_settled_unfold. fields.
  rewrite (lookup_app_l_Some _ _ _ _ E). fields.
  split; [reflexivity|]. split; [reflexivity|].
  rewrite insert_app_l by (eapply lookup_lt_Some; exact E).
  apply lookup_app_l_Some. apply list_lookup_insert_eq. eapply lookup_lt_Some; exact E.
Qed.

Lemma refreshToken_in_flight w tp k rs :
  tokenPromise w = Some tp ->
  promises w !! tp = Some (mkPromise k (Pending rs)) ->
  let '(r, w1) := refreshToken w in
  calls w1 = calls w /\
  tokenPromise w1 = Some tp /\
  promises w1 !! tp = Some (mkPromise k (Pending (rs ++ [Adopt (r + 1)]))).
Proof.
  revert w. intros w. open_world w. exec.
  split; [reflexivity|]. split; [reflexivity|].
  apply lookup_app_l_Some, list_lookup_insert_eq. eapply lookup_lt_Some; eassumption.
Qed.

(** *** Callers pile up on the wrapper promise *)

(** [refreshToken()] queues no job as long as the marked promise, if any, is
    pending: whether calls are made back to back in one task or each from a
    task of its own makes no difference. *)
Lemma refreshToken_queues_nothing w :
  microtasks w = [] ->
  (forall tp, tokenPromise w = Some tp ->
     exists k rs, promises w !! tp = Some (mkPromise k (Pending rs))) ->
  call refreshToken w = refreshToken w.
Proof.
  intros Hq Htp.
  assert (H : microtasks (snd (refreshToken w)) = []).
  { revert Hq Htp. destruct w as [w_tp w_fc w_key w_db w_st w_sched w_cs w_ps w_q w_clk w_rd].
    fields. intros -> Htp. rewrite <- (app_nil_r w_ps).
    destruct w_tp as [tp|]; [destruct (Htp tp eq_refl) as (k & rs & E)|]; exec; reflexivity. }
  unfold call. destruct (refreshToken w) as [r w1]. cbn [snd] in H.
  rewrite (run_microtasks_idle _ H). reflexivity.
Qed.

Lemma refreshToken_first w :
  microtasks w = [] ->
  tokenPromise w = None ->
  let '(r, w1) := call refreshToken w in
  waiting w1 (r + 2) (r + 3) [r] /\
  calls w1 = calls w ++ [GetNewApiToken (apiKey w) (r + 3)] /\
  apiKey w1 = apiKey w.
Proof.
  revert w. intros w. open_world w. unfold waiting. exec.
  repeat split; try reflexivity.
  - repeat constructor; exec; reflexivity.
  - repeat constructor. intros H; inversion H.
Qed.

Lemma waiting_distinct w wrapper e rs r :
  waiting w wrapper e rs -> r ∈ rs ->
  r ≠ wrapper /\ r + 1 ≠ wrapper /\ r ≠ e /\ r + 1 ≠ e /\
  r < length (promises w) /\
  forall r', r' ∈ rs -> r' ≠ r + 1.
Proof.
  intros (_ & _ & Ee & Ew & Hrs & _) Hr.
  pose proof (proj1 (Forall_forall _ _) Hrs) as Hall.
  destruct (Hall r Hr) as [H1 H2].
  repeat split.
  - intros ->. rewrite Ew in H1. injection H1 as H1.
    apply fmap_nil_inv in H1. subst rs. inversion Hr.
  - intros <-. rewrite Ew in H2. injection H2 as H2.
    destruct rs as [|x [|y l]]; discriminate H2.
  - intros ->. rewrite Ee in H1. discriminate H1.
  - intros <-. rewrite Ee in H2. discriminate H2.
  - eapply lookup_lt_Some; exact H1.
  - intros r' Hr' ->. destruct (Hall _ Hr') as [H1' _]. rewrite H2 in H1'. discriminate H1'.
Qed.

Lemma refreshToken_next w wrapper e rs :
  waiting w wrapper e rs ->
  let '(r, w1) := call refreshToken w in
  waiting w1 wrapper e (rs ++ [r]) /\ calls w1 = calls w /\ apiKey w1 = apiKey w.
Proof.
  intros Hw. pose proof (fun r => waiting_distinct w wrapper e rs r Hw) as Hd.
  revert w Hw Hd. intros w.
  destruct w as [w_tp w_fc w_key w_db w_st w_sched w_cs w_ps w_q w_clk w_rd].
  unfold waiting. fields. intros (-> & -> & Ee & Ew & Hrs & Hnd) Hd.
  assert (Hwe : wrapper ≠ e) by (intros ->; rewrite Ee in Ew; discriminate Ew).
  assert (Hwl : wrapper < length w_ps) by (eapply lookup_lt_Some; exact Ew).
  rewrite <- (app_nil_r w_ps). exec.
  split; [|split; reflexivity].
  split; [reflexivity|]. split; [reflexivity|].
  split; [|split; [|split]].
  - apply lookup_app_l_Some. rewrite list_lookup_insert_ne by exact Hwe. exact Ee.
  - apply lookup_app_l_Some. rewrite list_lookup_insert_eq by exact Hwl.
    rewrite fmap_app. cbn. rewrite <- Nat.add_assoc. reflexivity.
  - apply Forall_app. split.
    + apply Forall_forall. intros r Hr.
      destruct (Hd r Hr) as (N1 & N2 & _).
      destruct (proj1 (Forall_forall _ _) Hrs r Hr) as [H1 H2].
      split; apply lookup_app_l_Some; rewrite list_lookup_insert_ne by congruence;
        assumption.
    + apply Forall_singleton. exec. split; reflexivity.
  - apply NoDup_app. split; [exact Hnd|]. split; [|apply NoDup_singleton].
    intros r Hr Hin. apply list_elem_of_singleton in Hin.
    destruct (Hd r Hr) as (_ & _ & _ & _ & Hlt & _). lia.
Qed.

Lemma refreshToken_times_waiting n : forall w wrapper e rs,
  waiting w wrapper e rs ->
  let '(rs', w1) := refreshToken_times n w in
  waiting w1 wrapper e (rs ++ rs') /\ calls w1 = calls w /\ apiKey w1 = apiKey w /\
  length rs' = n.
Proof.
  induction n as [|n IH]; intros w wrapper e rs Hw.
  - cbn. rewrite app_nil_r. auto.
  - cbn [refreshToken_times]. unfold mbind, M_bind, mret, M_ret.
    pose proof (refreshToken_next w wrapper e rs Hw) as H1.
    destruct (call refreshToken w) as [r w1]. destruct H1 as (Hw1 & Hc1 & Hk1).
    specialize (IH w1 wrapper e (rs ++ [r]) Hw1).
    destruct (refreshToken_times n w1) as [rs' w2].
    destruct IH as (Hw2 & Hc2 & Hk2 & Hl).
    rewrite <- app_assoc in Hw2. cbn [app] in Hw2.
    split; [exact Hw2|]. split; [congruence|]. split; [congruence|]. cbn. lia.
Qed.

(** *** Settled promises stay settled *)

Lemma settled_ext_refl ps : settled_ext ps ps.
Proof. intros p o H. exact H. Qed.

Lemma settled_ext_trans a b c : settled_ext a b -> settled_ext b c -> settled_ext a c.
Proof. intros H1 H2 p o H. apply H2, H1, H. Qed.

Lemma settled_ext_app ps l : settled_ext ps (ps ++ l).
Proof.
  intros p o. unfold outcome_at. destruct (ps !! p) as [c|] eqn:E; [|discriminate].
  rewrite (lookup_app_l_Some _ _ _ _ E). trivial.
Qed.

Lemma settled_ext_insert ps p k rs c :
  ps !! p = Some (mkPromise k (Pending rs)) -> settled_ext ps (<[p := c]> ps).
Proof.
  intros E q o. unfold outcome_at. destruct (decide (p = q)) as [->|Hne].
  - rewrite E. discriminate.
  - rewrite list_lookup_insert_ne by exact Hne. trivial.
Qed.

Lemma settle_settled_ext p o w : settled_ext (promises w) (promises (snd (settle p o w))).
Proof.
  rewrite settle_unfold. destruct (promises w !! p) as [[k [rs|o']]|] eqn:E; fields;
    try apply settled_ext_refl.
  eapply settled_ext_insert; exact E.
Qed.

Lemma on_settled_settled_ext p r w :
  settled_ext (promises w) (promises (snd (on_settled p r w))).
Proof.
  rewrite on_settled_unfold. destruct (promises w !! p) as [[k [rs|o']]|] eqn:E; fields;
    try apply settled_ext_refl.
  eapply settled_ext_insert; exact E.
Qed.

Lemma run_job_settled_ext r o w :
  settled_ext (promises w) (promises (snd (run_job r o w))).
Proof.
  destruct r, o as [[t|]|e]; unfold run_job; unfold_M; fields;
    try (match goal with |- context [settle ?p ?o ?w'] =>
           exact (settle_settled_ext p o w') end).
  match goal with |- context [on_settled ?p ?r ?w'] =>
    pose proof (on_settled_settled_ext p r w') as H end.
  fields in H. eapply settled_ext_trans; [|exact H]. apply settled_ext_app.
Qed.

Lemma run_microtasks_settled w p o :
  outcome_of w p = Some o -> outcome_of (run_microtasks w) p = Some o.
Proof.
  intros H.
  apply (run_microtasks_ind (fun w' => outcome_of w' p = Some o)); [|exact H].
  intros r o' rest w' Hw' _.
  exact (run_job_settled_ext r o' (with_microtasks rest w') p o Hw').
Qed.

(** *** The exchange resolves: every caller is resumed *)

Lemma settle_ready r o w :
  ready w o r ->
  outcome_of (snd (settle r o w)) r = Some o /\
  microtasks (snd (settle r o w)) = microtasks w /\
  same_fields w (snd (settle r o w)) /\
  (forall r', ready w o r' -> ready (snd (settle r o w)) o r').
Proof.
  intros Hr. pose proof (settle_same_fields r o w) as Hf.
  pose proof (settle_settled_ext r o w) as He.
  split; [|split; [|split; [exact Hf|]]].
  - destruct Hr as [E|E]; [|apply He, E].
    rewrite settle_unfold, E. fields. unfold outcome_of, outcome_at. fields.
    rewrite list_lookup_insert_eq by (eapply lookup_lt_Some; exact E). reflexivity.
  - rewrite settle_unfold. destruct Hr as [E|E].
    + rewrite E. fields. apply app_nil_r.
    + unfold outcome_of, outcome_at in E.
      destruct (promises w !! r) as [[k [rs|o']]|]; try discriminate E. reflexivity.
  - intros r' [E'|E']; [|right; apply He, E'].
    rewrite settle_unfold. destruct Hr as [E|E].
    + rewrite E. fields. destruct (decide (r = r')) as [->|Hne].
      * right. unfold outcome_of, outcome_at. fields.
        rewrite list_lookup_insert_eq by (eapply lookup_lt_Some; exact E). reflexivity.
      * left. fields. rewrite list_lookup_insert_ne by exact Hne. exact E'.
    + unfold outcome_of, outcome_at in E.
      destruct (promises w !! r) as [[k [rs|o']]|]; try discriminate E. left. exact E'.
Qed.

Lemma resume_callers (B : list pid) : forall (w : World) (t : ApiTokenInfo),
  microtasks w = (fun r => (AfterFetchToken r, Fulfilled (Some t))) <$> B ->
  Forall (ready w (Fulfilled (Some t))) B ->
  Forall (fun r => outcome_of (run_microtasks w) r = Some (Fulfilled (Some t))) B /\
  tokenPromise (run_microtasks w) = tokenPromise w /\
  exchange_calls (run_microtasks w) = exchange_calls w /\
  tokenStorage (run_microtasks w) = match B with [] => tokenStorage w | _ => Some t end.
Proof.
  induction B as [|r B IH]; intros w t Hq Hr.
  - rewrite run_microtasks_idle by exact Hq. repeat split. constructor.
  - rewrite run_microtasks_unfold, Hq. cbn [fmap list_fmap].
    apply Forall_cons in Hr as [Hr HB].
    unfold run_job. unfold_M. fields.
    match goal with |- context [settle r ?o ?W] =>
      destruct (settle_ready r o W Hr) as (Ho & Hq' & Hf & Hrd);
      set (w1 := snd (settle r o W)) in *
    end.
    fields in Hq'. destruct Hf as (Htp & _ & _ & _ & Hst & _ & Hcs & _). fields in Htp.
    fields in Hst. fields in Hcs.
    destruct (IH w1 t Hq') as (IH1 & IH2 & IH3 & IH4).
    { eapply Forall_impl; [exact HB|]. intros r'. apply Hrd. }
    split; [|split; [|split]].
    + apply Forall_cons. split; [|exact IH1]. apply run_microtasks_settled, Ho.
    + congruence.
    + rewrite IH3. unfold exchange_calls. rewrite Hcs. count_calls. lia.
    + rewrite IH4. destruct B; congruence.
Qed.

Lemma settle_fetch r o w :
  promises w !! (r + 1) = Some (mkPromise TokenResult (Pending [AfterFetchToken r])) ->
  microtasks (snd (settle (r + 1) o w)) = microtasks w ++ [(AfterFetchToken r, o)] /\
  same_fields w (snd (settle (r + 1) o w)) /\
  (forall p c, p ≠ r + 1 -> promises w !! p = Some c ->
               promises (snd (settle (r + 1) o w)) !! p = Some c) /\
  (forall r', ready w o r' -> ready (snd (settle (r + 1) o w)) o r').
Proof.
  intros E. pose proof (settle_same_fields (r + 1) o w) as Hf.
  pose proof (settle_settled_ext (r + 1) o w) as He.
  rewrite settle_unfold in *. rewrite E in *. fields. fields in He.
  split; [reflexivity|]. split; [exact Hf|]. split.
  - intros p c Hne Hp. rewrite list_lookup_insert_ne by congruence. exact Hp.
  - intros r' [E'|E']; [left|right; apply He, E'].
    fields. rewrite list_lookup_insert_ne; [exact E'|].
    intros <-. rewrite E in E'. discriminate E'.
Qed.

Lemma adopt_callers (A : list pid) : forall (B : list pid) (w : World) (t : ApiTokenInfo),
  microtasks w
    = ((fun r => (Adopt (r + 1), Fulfilled (Some t))) <$> A)
      ++ ((fun r => (AfterFetchToken r, Fulfilled (Some t))) <$> B) ->
  NoDup A ->
  Forall (fun r =>
            promises w !! (r + 1)
              = Some (mkPromise TokenResult (Pending [AfterFetchToken r])) /\
            ready w (Fulfilled (Some t)) r) A ->
  Forall (ready w (Fulfilled (Some t))) B ->
  Forall (fun r => outcome_of (run_microtasks w) r = Some (Fulfilled (Some t))) (A ++ B) /\
  tokenPromise (run_microtasks w) = tokenPromise w /\
  exchange_calls (run_microtasks w) = exchange_calls w /\
  tokenStorage (run_microtasks w) = match A ++ B with [] => tokenStorage w | _ => Some t end.
Proof.
  induction A as [|r A IH]; intros B w t Hq Hnd HA HB.
  - apply resume_callers; assumption.
  - rewrite run_microtasks_unfold, Hq. cbn [fmap list_fmap app].
    apply NoDup_cons in Hnd as [Hnin Hnd]. apply Forall_cons in HA as [[Er Hr] HA].
    unfold run_job.
    match goal with |- context [settle (r + 1) ?o ?W] =>
      destruct (settle_fetch r o W Er) as (Hq' & Hf & Hlk & Hrd);
      set (w1 := snd (settle (r + 1) o W)) in *
    end.
    fields in Hq'. destruct Hf as (Htp & _ & _ & _ & Hst & _ & Hcs & _). fields in Htp.
    fields in Hst. fields in Hcs. fields in Hlk.
    destruct (IH (B ++ [r]) w1 t) as (IH1 & IH2 & IH3 & IH4).
    { rewrite Hq', fmap_app, <- app_assoc. reflexivity. }
    { exact Hnd. }
    { apply Forall_forall. intros r' Hr'.
      destruct (proj1 (Forall_forall _ _) HA r' Hr') as [E' R'].
      split; [|apply Hrd, R']. apply Hlk; [|exact E'].
      intros Heq. apply Hnin. assert (r' = r) as -> by lia. exact Hr'. }
    { apply Forall_app. split.
      - eapply Forall_impl; [exact HB|]. intros r'. apply Hrd.
      - apply Forall_singleton, Hrd, Hr. }
    split; [|split; [|split]].
    + apply Forall_app in IH1 as [IA IB]. apply Forall_app in IB as [IB Ir].
      rewrite Forall_singleton in Ir.
      apply Forall_cons. split; [exact Ir|]. apply Forall_app. split; assumption.
    + congruence.
    + rewrite IH3. unfold exchange_calls. rewrite Hcs. reflexivity.
    + rewrite IH4. destruct (A ++ B ++ [r]) eqn:El; [|reflexivity].
      apply app_eq_nil in El as [_ El]. apply app_eq_nil in El as [_ El]. discriminate El.
Qed.

Lemma exchange_resolves_waiting w wrapper e rs t :
  waiting w wrapper e rs ->
  Forall (fun r => outcome_of (handle (ExchangeResolves e t) w) r
                   = Some (Fulfilled (Some t))) rs /\
  tokenPromise (handle (ExchangeResolves e t) w) = None /\
  exchange_calls (handle (ExchangeResolves e t) w) = exchange_calls w /\
  tokenStorage (handle (ExchangeResolves e t) w)
    = match rs with [] => tokenStorage w | _ => Some t end.
Proof.
  intros Hw. pose proof (fun r => waiting_distinct w wrapper e rs r Hw) as Hd.
  revert Hw Hd.
  destruct w as [w_tp w_fc w_key w_db w_st w_sched w_cs w_ps w_q w_clk w_rd].
  unfold waiting. fields. intros (-> & -> & Ee & Ew & Hrs & Hnd) Hd.
  assert (Hwe : e ≠ wrapper) by (intros ->; rewrite Ee in Ew; discriminate Ew).
  unfold handle, call, dispatch, collaborator_settles, kind_of, kind_at. fields.
  rewrite Ee. cbn [fmap option_fmap option_map kind]. rewrite settle_unfold. fields.
  rewrite Ee. fields. cbn [app fmap list_fmap].
  rewrite run_microtasks_unfold. fields. unfold run_job. unfold_M. fields.
  rewrite settle_unfold. fields. rewrite list_lookup_insert_ne by exact Hwe.
  rewrite Ew. fields. cbn [app].
  match goal with |- context [run_microtasks ?W] => set (w2 := W) end.
  destruct (adopt_callers rs [] w2 t) as (H1 & H2 & H3 & H4).
  - unfold w2. fields. rewrite <- list_fmap_compose. cbn [fmap list_fmap]. 
    rewrite app_nil_r. reflexivity.
  - exact Hnd.
  - apply Forall_forall. intros r Hr.
    destruct (Hd r Hr) as (N1 & N2 & N3 & N4 & _).
    destruct (proj1 (Forall_forall _ _) Hrs r Hr) as [E1 E2].
    unfold ready, w2. fields. split; [|left];
      rewrite !list_lookup_insert_ne by congruence; assumption.
  - constructor.
  - rewrite app_nil_r in H1, H4. split; [exact H1|]. split; [exact H2|].
    split; [exact H3|exact H4].
Qed.

Lemma fetchToken_no_call_in_flight w tp :
  tokenPromise w = Some tp ->
  calls (snd (fetchToken w)) = calls w /\ tokenPromise (snd (fetchToken w)) = Some tp /\
  calls (snd (refreshToken w)) = calls w /\ tokenPromise (snd (refreshToken w)) = Some tp.
Proof.
  destruct w as [w_tp w_fc w_key w_db w_st w_sched w_cs w_ps w_q w_clk w_rd].
  fields. intros ->. repeat split; frame_exec; reflexivity.
Qed.

Lemma refreshToken_times_concurrent (n : nat) (w : World) (t : ApiTokenInfo) :
  microtasks w = [] ->
  tokenPromise w = None ->
  let '(rs, w1) := refreshToken_times (S n) w in
  exists e,
    calls w1 = calls w ++ [GetNewApiToken (apiKey w) e] /\
    length rs = S n /\
    NoDup rs /\
    let w2 := handle (ExchangeResolves e t) w1 in
    Forall (fun r => outcome_of w2 r = Some (Fulfilled (Some t))) rs /\
    exchange_calls w2 = exchange_calls w + 1 /\
    tokenPromise w2 = None /\
    tokenStorage w2 = Some t.
Proof.
  intros Hq Htp. cbn [refreshToken_times]. unfold mbind, M_bind, mret, M_ret.
  pose proof (refreshToken_first w Hq Htp) as H1.
  destruct (call refreshToken w) as [r w1]. destruct H1 as (Hw1 & Hc1 & Hk1).
  pose proof (refreshToken_times_waiting n w1 _ _ [r] Hw1) as H2.
  destruct (refreshToken_times n w1) as [rs w2]. destruct H2 as (Hw2 & Hc2 & Hk2 & Hl).
  cbn [app] in Hw2.
  exists (r + 3). split; [congruence|]. split; [cbn; lia|].
  split; [apply Hw2|]. cbv zeta.
  destruct (exchange_resolves_waiting w2 _ _ _ t Hw2) as (E1 & E2 & E3 & E4).
  split; [exact E1|]. split; [|split; [exact E2|exact E4]].
  rewrite E3. unfold exchange_calls. rewrite Hc2, Hc1. count_calls. lia.
Qed.

(** C3.  (1) On a connector that went through any events since it was
    built, at most one exchange promise is pending, none while the marker
    [tokenPromise] is clear, and the number of fetches in flight is one or
    zero as the marker is set or not.  (2) While the marker is set,
    [fetchToken()] and [refreshToken()] make no call to the transport client
    and leave the marker as it is, and the promise [fetchToken()] returns is
    parked on the marked promise, to be settled as that one is.  (3) [n + 1]
    calls of [refreshToken()] made while no fetch is in flight start one
    exchange; when it resolves with a token, the promise of every caller is
    fulfilled with that token. *)
Theorem one_fetch_in_flight :
  (forall (params : EoswsConnectorParams) (clk : nat -> Z) (evs : list Event),
      let w := run evs (constructor params clk) in
      exchanges_pending w <= 1 /\
      (tokenPromise w = None -> exchanges_pending w = 0) /\
      in_flight w = marker w) /\
  (forall (w : World) (tp : pid),
      tokenPromise w = Some tp ->
      (calls (snd (fetchToken w)) = calls w /\
       tokenPromise (snd (fetchToken w)) = Some tp /\
       calls (snd (refreshToken w)) = calls w /\
       tokenPromise (snd (refreshToken w)) = Some tp) /\
      (forall k rs,
          promises w !! tp = Some (mkPromise k (Pending rs)) ->
          (let '(r, w1) := fetchToken w in
           promises w1 !! tp = Some (mkPromise k (Pending (rs ++ [Adopt r])))) /\
          (let '(r, w1) := refreshToken w in
           promises w1 !! tp = Some (mkPromise k (Pending (rs ++ [Adopt (r + 1)])))))) /\
  (forall (n : nat) (w : World) (t : ApiTokenInfo),
      microtasks w = [] ->
      tokenPromise w = None ->
      let '(rs, w1) := refreshToken_times (S n) w in
      exists e,
        calls w1 = calls w ++ [GetNewApiToken (apiKey w) e] /\
        length rs = S n /\
        NoDup rs /\
        let w2 := handle (ExchangeResolves e t) w1 in
        Forall (fun r => outcome_of w2 r = Some (Fulfilled (Some t))) rs /\
        exchange_calls w2 = exchange_calls w + 1 /\
        tokenPromise w2 = None /\
        tokenStorage w2 = Some t).
Proof.
  split; [|split].
  - intros params clk evs w.
    pose proof (reachable_invariant params clk evs) as Hi. fold w in Hi.
    pose proof (exchanges_pending_marker w Hi) as Hm.
    pose proof (marker_le_1 w) as H1.
    split; [lia|]. split; [|apply Hi].
    intros Htp. unfold marker in Hm. rewrite Htp in Hm. lia.
  - intros w tp Htp. split; [apply fetchToken_no_call_in_flight, Htp|].
    intros k rs E. split.
    + pose proof (fetchToken_in_flight w tp k rs Htp E) as H.
      destruct (fetchToken w) as [r w1]. apply H.
    + pose proof (refreshToken_in_flight w tp k rs Htp E) as H.
      destruct (refreshToken w) as [r w1]. apply H.
  - intros n w t. apply refreshToken_times_concurrent.
Qed.

Lemma one_fetch_in_flight_witness :
  microtasks W0 = [] /\
  tokenPromise W0 = None /\
  let '(rs, w1) := refreshToken_times 3 W0 in
  exists e,
    length rs = 3 /\
    Forall (fun r => outcome_of (handle (ExchangeResolves e (tok1 (seconds 5000000))) w1) r
                     = Some (Fulfilled (Some (tok1 (seconds 5000000))))) rs.
Proof.
  split; [reflexivity|]. split; [reflexivity|].
  pose proof (proj2 (proj2 one_fetch_in_flight) 2 W0 (tok1 (seconds 5000000))
                eq_refl eq_refl) as H.
  revert H. generalize (refreshToken_times 3 W0). intros [rs w1] H.
  destruct H as (e & _ & Hl & _ & Hf & _).
  exists e. split; [exact Hl|exact Hf].
Defined.

(** ** Callers of a fetch in flight *)

(** *** What a job does to the heap and the queue *)

Lemma settle_heap p o w w0 :
  promises w0 = promises w -> microtasks w0 = microtasks w ->
  promises (snd (settle p o w0)) = promises (snd (settle p o w)) /\
  microtasks (snd (settle p o w0)) = microtasks (snd (settle p o w)).
Proof.
  intros Hp Hq. rewrite !settle_unfold, Hp.
  destruct (promises w !! p) as [[k [rs|o']]|]; fields; rewrite ?Hp, ?Hq; split; reflexivity.
Qed.

Lemma run_job_effect r o w : job_effect r w (snd (run_job r o w)).
Proof.
  destruct r, o as [[t|]|e]; unfold run_job; unfold_M; fields;
    try (eapply job_settles; eapply settle_heap; reflexivity).
  eapply job_connects.
  - rewrite on_settled_unfold. fields. rewrite lookup_snoc. cbv beta iota.
    fields. rewrite insert_snoc. reflexivity.
  - rewrite on_settled_unfold. fields. rewrite lookup_snoc. reflexivity.
Qed.

(** *** Guards *)

Lemma guarded_impl (P Q : Reaction -> Prop) ps q :
  (forall r, P r -> Q r) -> guarded P ps q -> guarded Q ps q.
Proof.
  intros H [Hq Hp]. split.
  - eapply Forall_impl; [exact Hq|]. intros j. apply H.
  - eapply Forall_impl; [exact Hp|]. intros c Hc. eapply Forall_impl; [exact Hc|exact H].
Qed.

Lemma guarded_dequeue P ps j q : guarded P ps (j :: q) -> P (fst j) /\ guarded P ps q.
Proof.
  intros [Hq Hp]. apply Forall_cons in Hq as [Hj Hq]. split; [exact Hj|split; assumption].
Qed.

Lemma guarded_enqueue P ps q r o : guarded P ps q -> P r -> guarded P ps (q ++ [(r, o)]).
Proof.
  intros [Hq Hp] Hr. split; [|exact Hp].
  apply Forall_app. split; [exact Hq|]. apply Forall_singleton. exact Hr.
Qed.

Lemma guarded_alloc P ps q l :
  guarded P ps q -> Forall (fun c => Forall P (parked c)) l -> guarded P (ps ++ l) q.
Proof. intros [Hq Hp] Hl. split; [exact Hq|]. apply Forall_app. split; assumption. Qed.

Lemma guarded_park P ps q p k rs r :
  guarded P ps q -> ps !! p = Some (mkPromise k (Pending rs)) -> P r ->
  guarded P (<[p := mkPromise k (Pending (rs ++ [r]))]> ps) q.
Proof.
  intros [Hq Hp] E Hr. split; [exact Hq|].
  apply Forall_insert; [exact Hp|]. cbn [parked state].
  apply Forall_app. split; [|apply Forall_singleton; exact Hr].
  exact (proj1 (Forall_lookup _ _) Hp _ _ E).
Qed.

Lemma guarded_settled P ps q p k rs o :
  guarded P ps q -> ps !! p = Some (mkPromise k (Pending rs)) ->
  guarded P (<[p := mkPromise k (Settled o)]> ps) (q ++ ((fun r => (r, o)) <$> rs)).
Proof.
  intros [Hq Hp] E. split.
  - apply Forall_app. split; [exact Hq|]. apply Forall_fmap.
    exact (proj1 (Forall_lookup _ _) Hp _ _ E).
  - apply Forall_insert; [exact Hp|]. apply List.Forall_nil.
Qed.

Lemma guarded_settle P p o w :
  guarded P (promises w) (microtasks w) ->
  guarded P (promises (snd (settle p o w))) (microtasks (snd (settle p o w))).
Proof.
  intros H. rewrite settle_unfold.
  destruct (promises w !! p) as [[k [rs|o']]|] eqn:E; fields; try exact H.
  eapply guarded_settled; eassumption.
Qed.

(** Reactions settle promises that exist. *)
Lemma typed_bounded ps q :
  typed_heap ps q -> guarded (fun r => target_of r < length ps) ps q.
Proof.
  assert (Hk : forall p k, kind_at ps p = Some k -> p < length ps).
  { intros p k. unfold kind_at. destruct (ps !! p) eqn:E; [|discriminate].
    intros _. eapply lookup_lt_Some. exact E. }
  intros [Hc Hq]. split.
  - eapply Forall_impl; [exact Hq|]. intros j [_ H]. eapply Hk. exact H.
  - eapply Forall_impl; [exact Hc|]. intros c. unfold typed_cell, parked.
    destruct (state c) as [rs|o]; [|intros _; apply List.Forall_nil].
    intros [H _]. eapply Forall_impl; [exact H|]. intros r [_ H']. eapply Hk. exact H'.
Qed.

(** *** A fetch in flight stays in flight until its callback runs *)

Lemma fetching_alloc wp ps q l :
  fetching wp ps q -> Forall (fun c => Forall (owns wp) (parked c)) l ->
  fetching wp (ps ++ l) q.
Proof.
  intros ((rs & Hwp) & Hg & Hx) Hl. split; [|split].
  - exists rs. apply lookup_app_l_Some. exact Hwp.
  - apply guarded_alloc; assumption.
  - destruct Hx as [(e & He)|Hx]; [left|right; exact Hx].
    exists e. apply lookup_app_l_Some. exact He.
Qed.

Lemma fetching_enqueue wp ps q r o :
  fetching wp ps q -> owns wp r -> fetching wp ps (q ++ [(r, o)]).
Proof.
  intros (Hwp & Hg & Hx) Hr. split; [exact Hwp|split].
  - apply guarded_enqueue; assumption.
  - destruct Hx as [He|(o' & Hin)]; [left; exact He|right].
    exists o'. apply in_or_app. left. exact Hin.
Qed.

Lemma fetching_park wp ps q p k rs r :
  fetching wp ps q -> ps !! p = Some (mkPromise k (Pending rs)) -> k <> Exchange ->
  owns wp r ->
  fetching wp (<[p := mkPromise k (Pending (rs ++ [r]))]> ps) q.
Proof.
  intros ((rs' & Hwp) & Hg & Hx) E Hk Hr. split; [|split].
  - destruct (decide (p = wp)) as [->|Hne].
    + rewrite Hwp in E. injection E as <- <-. exists (rs' ++ [r]).
      apply list_lookup_insert_eq. eapply lookup_lt_Some. exact Hwp.
    + exists rs'. rewrite list_lookup_insert_ne by exact Hne. exact Hwp.
  - eapply guarded_park; eassumption.
  - destruct Hx as [(e & He)|Hx]; [left|right; exact Hx].
    exists e. rewrite list_lookup_insert_ne; [exact He|].
    intros ->. rewrite He in E. injection E as <- _. apply Hk. reflexivity.
Qed.

Lemma fetching_settle wp p o w :
  fetching wp (promises w) (microtasks w) -> p <> wp ->
  fetching wp (promises (snd (settle p o w))) (microtasks (snd (settle p o w))).
Proof.
  intros ((rs' & Hwp) & Hg & Hx) Hne. split; [|split].
  - exists rs'. rewrite settle_unfold.
    destruct (promises w !! p) as [[k [rs|o']]|] eqn:E; fields; try exact Hwp.
    rewrite list_lookup_insert_ne by exact Hne. exact Hwp.
  - apply guarded_settle. exact Hg.
  - rewrite settle_unfold.
    destruct (promises w !! p) as [[k [rs|o']]|] eqn:E; fields; try exact Hx.
    destruct Hx as [(e & He)|(o' & Hin)].
    + destruct (decide (e = p)) as [->|Hep].
      * right. exists o. rewrite He in E. injection E as <- <-.
        apply in_or_app. right. left. reflexivity.
      * left. exists e. rewrite list_lookup_insert_ne by (intros ->; apply Hep; reflexivity).
        exact He.
    + right. exists o'. apply in_or_app. left. exact Hin.
Qed.

(** A fetch starts: wrapper and exchange are new. *)
Lemma fetching_start wp e ps q l :
  guarded (fun r => target_of r < length ps) ps q ->
  length ps <= wp ->
  (exists rs, (ps ++ l) !! wp = Some (mkPromise TokenResult (Pending rs))) ->
  (ps ++ l) !! e = Some (mkPromise Exchange (Pending [ExchangeSettled wp])) ->
  Forall (fun c => Forall (owns wp) (parked c)) l ->
  fetching wp (ps ++ l) q.
Proof.
  intros Hb Hle Hwp He Hl. split; [exact Hwp|split].
  - apply guarded_alloc; [|exact Hl].
    eapply guarded_impl; [|exact Hb]. intros r Hr Heq. cbv beta in Hr. lia.
  - left. exists e. exact He.
Qed.

Lemma run_job_marker r o w :
  tokenPromise (snd (run_job r o w)) =
  match r with ExchangeSettled _ => None | _ => tokenPromise w end.
Proof. destruct w, r, o as [[t|]|e]; frame_exec; reflexivity. Qed.

Lemma fetching_dequeue wp ps r o q :
  fetching wp ps ((r, o) :: q) -> r <> ExchangeSettled wp ->
  fetching wp ps q /\ target_of r <> wp.
Proof.
  intros (Hwp & Hg & Hx) Hr. apply guarded_dequeue in Hg as [Ho Hg].
  split; [split; [exact Hwp|split; [exact Hg|]]|].
  - destruct Hx as [He|(o' & [Hin|Hin])]; [left; exact He| |right; exists o'; exact Hin].
    injection Hin as -> _. contradiction Hr. reflexivity.
  - intros Heq. apply Hr, Ho, Heq.
Qed.

Lemma run_job_flight r o rest w :
  flight w -> microtasks w = (r, o) :: rest ->
  flight (snd (run_job r o (with_microtasks rest w))).
Proof.
  intros Hf Hq wp. rewrite run_job_marker.
  assert (Hm : r <> ExchangeSettled wp ->
               tokenPromise (with_microtasks rest w) = Some wp ->
               fetching wp (promises (snd (run_job r o (with_microtasks rest w))))
                          (microtasks (snd (run_job r o (with_microtasks rest w))))).
  { fields. intros Hr Hwp. specialize (Hf wp Hwp). rewrite Hq in Hf.
    apply fetching_dequeue in Hf as [Hf Ht]; [|exact Hr].
    destruct (run_job_effect r o (with_microtasks rest w)) as [o' -> ->| -> ->].
    - apply fetching_settle; [exact Hf|exact Ht].
    - fields. apply fetching_alloc; [exact Hf|].
      apply Forall_singleton. cbn [parked state]. apply Forall_singleton.
      intros Heq. cbn [target_of] in Heq. contradiction. }
  destruct r; try (apply Hm; discriminate). discriminate.
Qed.

Ltac owns_one :=
  let Heq := fresh in
  intros Heq; cbn [target_of] in Heq; first [reflexivity | exfalso; lia | contradiction].

Ltac cells_solve :=
  repeat (apply Forall_cons; split;
          [cbn [parked state];
           repeat (apply Forall_cons; split; [owns_one|]); apply List.Forall_nil|]);
  apply List.Forall_nil.

Ltac fetch_solve :=
  let wp := fresh in
  let E := fresh in
  intros wp E; first [discriminate E | injection E as <-];
  repeat first
    [ assumption
    | match goal with
      | |- fetching ?wp _ _ => eapply (fetching_start wp (wp + 1))
      end;
      [ eassumption | lia
      | eexists; heap_norm; reflexivity
      | heap_norm; reflexivity
      | cells_solve ]
    | apply fetching_alloc; [|cells_solve]
    | eapply fetching_park; [ |eassumption|discriminate|owns_one]
    | apply fetching_enqueue; [|owns_one] ].

Lemma settle_flight p o w :
  flight w -> (forall wp, tokenPromise w = Some wp -> p <> wp) -> flight (snd (settle p o w)).
Proof.
  intros Hf Hne wp Hm.
  destruct (settle_same_fields p o w) as (Htp & _). rewrite Htp in Hm.
  apply fetching_settle; [apply Hf, Hm|apply Hne, Hm].
Qed.

Lemma collaborator_settles_flight p o w :
  flight w -> flight (snd (collaborator_settles p o w)).
Proof.
  intros Hf. unfold collaborator_settles.
  assert (Hne : forall k, kind_of w p = Some k -> k <> TokenResult ->
                forall wp, tokenPromise w = Some wp -> p <> wp).
  { intros k Hk Hk' wp Hm ->. destruct (Hf wp Hm) as ((rs & Hrs) & _).
    unfold kind_of, kind_at in Hk. rewrite Hrs in Hk. injection Hk as <-.
    apply Hk'. reflexivity. }
  destruct (kind_of w p) as [[]|] eqn:K, o as [[t|]|e]; try exact Hf;
    (apply settle_flight; [exact Hf|eapply Hne; [reflexivity|discriminate]]).
Qed.

Ltac split_state :=
  repeat match goal with
  | |- context [match ?x with _ => _ end] => is_var x; destruct x
  | |- context [Qcleb ?a ?b] => destruct (Qcleb a b) eqn:?
  end.

Lemma dispatch_flight ev w :
  invariant w -> flight w -> flight (snd (dispatch ev w)).
Proof.
  intros Hi Hf.
  destruct ev; try (apply collaborator_settles_flight; exact Hf).
  all: assert (Hb := typed_bounded _ _ (proj1 (proj1 Hi))).
  all: assert (Hwp : forall wp, tokenPromise w = Some wp ->
                  wp < length (promises w) /\
                  exists rs, promises w !! wp = Some (mkPromise TokenResult (Pending rs)))
         by (intros wp H; destruct (Hf wp H) as ((rs & Hrs) & _); split; [|eauto];
             eapply lookup_lt_Some; exact Hrs).
  all: clear Hi; revert Hf Hb Hwp; unfold flight.
  all: destruct w as [w_tp w_fc w_key w_db w_st w_sched w_cs w_ps w_q w_clk w_rd].
  all: fields; intros Hf Hb Hwp; rewrite <- (app_nil_r w_ps).
  all: destruct w_tp as [wp|];
         [ destruct (Hwp wp eq_refl) as (Hlt & rs & Hrs); specialize (Hf wp eq_refl) |].
  all: repeat (exec; split_state).
  all: try fetch_solve.
Qed.

Lemma handle_flight ev w : invariant w -> flight w -> flight (handle ev w).
Proof.
  intros Hi Hf. unfold handle, call.
  pose proof (dispatch_flight ev w Hi Hf) as Hd.
  destruct (dispatch ev w) as [u w']. cbn [snd] in *.
  apply (run_microtasks_ind flight); [|exact Hd].
  intros r o rest w0 H0 E. apply run_job_flight; assumption.
Qed.

Lemma run_flight evs w : invariant w -> flight w -> flight (run evs w).
Proof.
  intros Hi Hf. induction evs as [|ev evs IH] using rev_ind; [exact Hf|].
  rewrite run_snoc. apply handle_flight; [|exact IH]. apply run_invariant. exact Hi.
Qed.

Lemma reachable_flight params clk evs : flight (run evs (constructor params clk)).
Proof.
  apply run_flight; [apply constructor_invariant|]. intros wp H. discriminate H.
Qed.

(** *** Chains of reactions *)

Lemma run_job_passes r o w :
  passes o r = true ->
  promises (snd (run_job r o w)) = promises (snd (settle (target_of r) o w)) /\
  microtasks (snd (run_job r o w)) = microtasks (snd (settle (target_of r) o w)).
Proof.
  destruct r, o as [[t|]|e]; try discriminate; intros _;
    unfold run_job; unfold_M; fields; apply settle_heap; reflexivity.
Qed.

Lemma chain_parked_unfold T ps p ch :
  chain_parked T ps p ch <->
  exists k rs rs',
    Forall (off T) rs /\ Forall (off T) rs' /\
    match ch with
    | [] => ps !! p = Some (mkPromise k (Pending (rs ++ rs')))
    | r :: ch' =>
        ps !! p = Some (mkPromise k (Pending (rs ++ r :: rs'))) /\
        chain_parked T ps (target_of r) ch'
    end.
Proof. destruct ch; reflexivity. Qed.

Lemma chain_parked_insert T ps t c p ch :
  t <> p -> t ∉ target_of <$> ch ->
  chain_parked T ps p ch -> chain_parked T (<[t := c]> ps) p ch.
Proof.
  revert p. induction ch as [|r ch IH]; intros p Hp Hch (k & rs & rs' & Hrs & Hrs' & H);
    exists k, rs, rs'; (split; [exact Hrs|]); (split; [exact Hrs'|]).
  - rewrite list_lookup_insert_ne by exact Hp. exact H.
  - destruct H as [H1 H2]. split.
    + rewrite list_lookup_insert_ne by exact Hp. exact H1.
    + apply IH; [| |exact H2].
      * intros ->. apply Hch. apply list_elem_of_here.
      * intros Hin. apply Hch. apply list_elem_of_further. exact Hin.
Qed.

Lemma chain_parked_app T ps l p ch :
  chain_parked T ps p ch -> chain_parked T (ps ++ l) p ch.
Proof.
  revert p. induction ch as [|r ch IH]; intros p (k & rs & rs' & Hrs & Hrs' & H);
    exists k, rs, rs'; (split; [exact Hrs|]); (split; [exact Hrs'|]).
  - apply lookup_app_l_Some. exact H.
  - destruct H as [H1 H2]. split; [apply lookup_app_l_Some; exact H1|apply IH; exact H2].
Qed.

Lemma outcome_at_insert_ne ps t c p :
  t <> p -> outcome_at (<[t := c]> ps) p = outcome_at ps p.
Proof. intros H. unfold outcome_at. rewrite list_lookup_insert_ne by exact H. reflexivity. Qed.

Lemma outcome_at_app ps l p o :
  outcome_at ps p = Some o -> outcome_at (ps ++ l) p = Some o.
Proof.
  unfold outcome_at. destruct (ps !! p) as [c|] eqn:E; [|discriminate].
  rewrite (lookup_app_l_Some _ _ _ _ E). trivial.
Qed.

Lemma chain_inv_settle_off o C ch p o' w :
  chain_inv o C ch (promises w) (microtasks w) ->
  p ∉ target_of <$> C ->
  chain_inv o C ch (promises (snd (settle p o' w))) (microtasks (snd (settle p o' w))).
Proof.
  intros H Hp. rewrite settle_unfold.
  destruct (promises w !! p) as [[k [rs|o'']]|] eqn:E; fields; try exact H.
  destruct H as ((done & HC & Hdone) & Hoff & Hq).
  assert (Hrs : Forall (off (target_of <$> C)) rs) by exact (Hoff _ _ E Hp).
  assert (Hjobs : Forall (fun j => off (target_of <$> C) (fst j)) ((fun r => (r, o')) <$> rs))
    by (apply Forall_fmap; exact Hrs).
  split; [|split].
  - exists done. split; [exact HC|]. apply Forall_forall. intros r Hr.
    rewrite outcome_at_insert_ne; [exact (proj1 (Forall_forall _ _) Hdone r Hr)|].
    intros ->. apply Hp. rewrite HC. apply list_elem_of_fmap_2, elem_of_app. left. exact Hr.
  - intros p' c Hc Hp'. destruct (decide (p = p')) as [->|Hne].
    + rewrite list_lookup_insert_eq in Hc by (eapply lookup_lt_Some; exact E).
      injection Hc as <-. apply List.Forall_nil.
    + rewrite list_lookup_insert_ne in Hc by exact Hne. exact (Hoff _ _ Hc Hp').
  - destruct ch as [|r ch'].
    + apply Forall_app. split; assumption.
    + destruct Hq as (q1 & q2 & -> & H1 & H2 & Hpk).
      exists q1, (q2 ++ ((fun r => (r, o')) <$> rs)). split; [|split; [exact H1|split]].
      * rewrite <- app_assoc. reflexivity.
      * apply Forall_app. split; assumption.
      * assert (Hin : forall x, x ∈ target_of <$> r :: ch' -> x ∈ target_of <$> C).
        { intros x Hx. rewrite HC, fmap_app. apply elem_of_app. right. exact Hx. }
        apply chain_parked_insert; [| |exact Hpk].
        -- intros ->. apply Hp, Hin. apply list_elem_of_here.
        -- intros Hx. apply Hp, Hin. apply list_elem_of_further. exact Hx.
Qed.

Lemma chain_inv_alloc o C ch ps q k r0 :
  chain_inv o C ch ps q -> off (target_of <$> C) r0 ->
  chain_inv o C ch (ps ++ [mkPromise k (Pending [r0])]) q.
Proof.
  intros ((done & HC & Hdone) & Hoff & Hq) Hr0. split; [|split].
  - exists done. split; [exact HC|]. eapply Forall_impl; [exact Hdone|].
    intros r. apply outcome_at_app.
  - intros p c Hc Hp. apply lookup_app_Some in Hc as [Hc|[_ Hc]]; [exact (Hoff _ _ Hc Hp)|].
    apply list_lookup_singleton_Some in Hc as [_ <-]. apply Forall_singleton. exact Hr0.
  - destruct ch as [|r ch']; [exact Hq|].
    destruct Hq as (q1 & q2 & -> & H1 & H2 & Hpk).
    exists q1, q2. repeat (split; [assumption || reflexivity|]).
    apply chain_parked_app. exact Hpk.
Qed.

Lemma chain_inv_dequeue o C ch ps r' o' rest :
  chain_inv o C ch ps ((r', o') :: rest) -> off (target_of <$> C) r' ->
  chain_inv o C ch ps rest.
Proof.
  intros (Hd & Hoff & Hq) Hr'. split; [exact Hd|split; [exact Hoff|]].
  destruct ch as [|r ch'].
  - apply Forall_cons in Hq as [_ Hq]. exact Hq.
  - destruct Hq as ([|j q1] & q2 & E & H1 & H2 & Hpk).
    + simplify_eq/=. destruct Hd as (done & HC & _).
      contradiction Hr'. rewrite HC. apply list_elem_of_fmap_2, elem_of_app. right.
      apply list_elem_of_here.
    + simplify_eq/=. apply Forall_cons in H1 as [_ H1].
      exists q1, q2. repeat (split; [assumption || reflexivity|]). exact Hpk.
Qed.

Lemma chain_inv_head o C ch ps r' o' rest :
  chain_inv o C ch ps ((r', o') :: rest) -> target_of r' ∈ target_of <$> C ->
  exists ch', ch = r' :: ch' /\ o' = o /\
    Forall (fun j => off (target_of <$> C) (fst j)) rest /\
    chain_parked (target_of <$> C) ps (target_of r') ch'.
Proof.
  intros (Hd & Hoff & Hq) Hin. destruct ch as [|r ch'].
  - apply Forall_cons in Hq as [Hq _]. contradiction.
  - destruct Hq as ([|j q1] & q2 & E & H1 & H2 & Hpk).
    + simplify_eq/=. exists ch'. repeat (split; [assumption || reflexivity|]). exact Hpk.
    + simplify_eq/=. apply Forall_cons in H1 as [H1 _]. contradiction.
Qed.

Lemma NoDup_app_head {A : Type} (l1 : list A) (x : A) (l2 : list A) :
  NoDup (l1 ++ x :: l2) -> (x ∉ l1) /\ (x ∉ l2).
Proof.
  intros H. apply NoDup_app in H as (_ & H1 & H2). apply NoDup_cons in H2 as [H2 _].
  split; [|exact H2].
  intros Hin. apply (H1 x); [exact Hin|apply list_elem_of_here].
Qed.

Lemma chain_inv_advance o C r ch' w :
  NoDup (target_of <$> C) ->
  chain_inv o C (r :: ch') (promises w) ((r, o) :: microtasks w) ->
  chain_inv o C ch'
    (promises (snd (settle (target_of r) o w))) (microtasks (snd (settle (target_of r) o w))).
Proof.
  intros Hnd H.
  assert (Hin : target_of r ∈ target_of <$> C).
  { destruct H as ((done & HC & _) & _). rewrite HC.
    apply list_elem_of_fmap_2, elem_of_app. right. apply list_elem_of_here. }
  destruct (chain_inv_head _ _ _ _ _ _ _ H Hin) as (ch0 & E & _ & Hrest & Hpk).
  injection E as <-.
  destruct H as ((done & HC & Hdone) & Hoff & _).
  rewrite HC, fmap_app in Hnd. cbn [fmap list_fmap] in Hnd.
  apply NoDup_app_head in Hnd as [Hnd1 Hnd2].
  apply chain_parked_unfold in Hpk as (k & rs & rs' & Hrs & Hrs' & Hpk).
  assert (E : exists tl, promises w !! target_of r = Some (mkPromise k (Pending (rs ++ tl))) /\
                match ch' with
                | [] => tl = rs'
                | r2 :: ch'' => tl = r2 :: rs' /\
                    chain_parked (target_of <$> C) (promises w) (target_of r2) ch''
                end).
  { destruct ch' as [|r2 ch'']; [exists rs'; split; [exact Hpk|reflexivity]|].
    destruct Hpk as [H1 H2]. exists (r2 :: rs'). split; [exact H1|split; [reflexivity|exact H2]]. }
  destruct E as (tl & E & Htl).
  rewrite settle_unfold, E. fields.
  assert (Hjobs : Forall (fun j => off (target_of <$> C) (fst j)) ((fun r => (r, o)) <$> rs))
    by (apply Forall_fmap; exact Hrs).
  assert (Hjobs' : Forall (fun j => off (target_of <$> C) (fst j)) ((fun r => (r, o)) <$> rs'))
    by (apply Forall_fmap; exact Hrs').
  split; [|split].
  - exists (done ++ [r]). split; [rewrite <- app_assoc; exact HC|].
    apply Forall_app. split.
    + apply Forall_forall. intros r0 Hr0.
      rewrite outcome_at_insert_ne; [exact (proj1 (Forall_forall _ _) Hdone r0 Hr0)|].
      intros Heq. apply Hnd1. rewrite Heq. apply list_elem_of_fmap_2. exact Hr0.
    + apply Forall_singleton. unfold outcome_at.
      rewrite list_lookup_insert_eq by (eapply lookup_lt_Some; exact E). reflexivity.
  - intros p' c Hc Hp'. rewrite list_lookup_insert_ne in Hc; [exact (Hoff _ _ Hc Hp')|].
    intros <-. contradiction.
  - destruct ch' as [|r2 ch''].
    + subst tl. rewrite fmap_app. repeat (apply Forall_app; split); assumption.
    + destruct Htl as [-> Hpk2].
      exists (microtasks w ++ ((fun r => (r, o)) <$> rs)), ((fun r => (r, o)) <$> rs').
      split; [|split; [|split; [exact Hjobs'|]]].
      * rewrite fmap_app, app_assoc. reflexivity.
      * apply Forall_app. split; assumption.
      * apply chain_parked_insert; [| |exact Hpk2].
        -- intros Heq. apply Hnd2. rewrite Heq. apply list_elem_of_here.
        -- intros Hx. apply Hnd2. apply list_elem_of_further. exact Hx.
Qed.

(** One job: either it is none of the chain's and leaves the chain as it
    is, or it is the job the chain waits for, and the chain advances. *)
Lemma chain_step o C ch r' o' rest w :
  NoDup (target_of <$> C) -> Forall (fun r => passes o r = true) C ->
  chain_inv o C ch (promises w) (microtasks w) -> microtasks w = (r', o') :: rest ->
  (off (target_of <$> C) r' /\
   chain_inv o C ch (promises (snd (run_job r' o' (with_microtasks rest w))))
                    (microtasks (snd (run_job r' o' (with_microtasks rest w))))) \/
  (exists ch', ch = r' :: ch' /\ o' = o /\
   chain_inv o C ch' (promises (snd (run_job r' o' (with_microtasks rest w))))
                     (microtasks (snd (run_job r' o' (with_microtasks rest w))))).
Proof.
  intros Hnd Hpass H Hq. rewrite Hq in H.
  destruct (decide (target_of r' ∈ target_of <$> C)) as [Hin|Hoff].
  - right. destruct (chain_inv_head _ _ _ _ _ _ _ H Hin) as (ch' & -> & -> & _).
    exists ch'. split; [reflexivity|split; [reflexivity|]].
    assert (Hp : passes o r' = true).
    { destruct H as ((done & HC & _) & _). rewrite HC in Hpass.
      apply Forall_app in Hpass as [_ Hpass]. apply Forall_cons in Hpass as [Hpass _].
      exact Hpass. }
    destruct (run_job_passes r' o (with_microtasks rest w) Hp) as [-> ->].
    apply chain_inv_advance; [exact Hnd|]. fields. exact H.
  - left. split; [exact Hoff|]. apply chain_inv_dequeue in H; [|exact Hoff].
    destruct (run_job_effect r' o' (with_microtasks rest w)) as [o'' -> ->| -> ->].
    + apply chain_inv_settle_off; [fields; exact H|exact Hoff].
    + fields. apply chain_inv_alloc; [exact H|exact Hoff].
Qed.

(** When the queue is empty no job of the chain is left to run. *)
Lemma chain_inv_done o C ch ps :
  chain_inv o C ch ps [] -> Forall (fun r => outcome_at ps (target_of r) = Some o) C.
Proof.
  intros ((done & HC & Hdone) & _ & Hq). destruct ch as [|r ch'].
  - rewrite app_nil_r in HC. subst done. exact Hdone.
  - destruct Hq as (q1 & q2 & E & _). destruct q1; discriminate E.
Qed.

(** Draining the queue with a property [Q] of the world that depends on
    the part of the chain still to run. *)
Lemma chain_drain_with o C (Q : list Reaction -> World -> Prop) ch w :
  NoDup (target_of <$> C) -> Forall (fun r => passes o r = true) C ->
  (forall ch r' o' rest w',
      Q ch w' -> microtasks w' = (r', o') :: rest -> off (target_of <$> C) r' ->
      Q ch (snd (run_job r' o' (with_microtasks rest w')))) ->
  (forall ch' r' rest w',
      Q (r' :: ch') w' -> microtasks w' = (r', o) :: rest ->
      Q ch' (snd (run_job r' o (with_microtasks rest w')))) ->
  chain_inv o C ch (promises w) (microtasks w) -> Q ch w ->
  Forall (fun r => outcome_of (run_microtasks w) (target_of r) = Some o) C /\
  Q [] (run_microtasks w).
Proof.
  intros Hnd Hpass Hother Hmine H HQ.
  assert (Hend : exists ch', chain_inv o C ch' (promises (run_microtasks w))
                                              (microtasks (run_microtasks w)) /\
                             Q ch' (run_microtasks w)).
  { apply (run_microtasks_ind
             (fun w' => exists ch', chain_inv o C ch' (promises w') (microtasks w') /\ Q ch' w'));
      [|exists ch; split; assumption].
    intros r' o' rest w' (ch' & H' & HQ') E.
    destruct (chain_step _ _ _ _ _ _ _ Hnd Hpass H' E) as [[Hoff Hs]|(ch'' & -> & -> & Hs)].
    - exists ch'. split; [exact Hs|]. eapply Hother; eassumption.
    - exists ch''. split; [exact Hs|]. eapply Hmine; eassumption. }
  destruct Hend as (ch' & Hend & HQ'). rewrite run_microtasks_quiescent in Hend.
  split; [exact (chain_inv_done _ _ _ _ Hend)|].
  destruct Hend as (_ & _ & Hq). destruct ch' as [|r ch'']; [exact HQ'|].
  destruct Hq as (q1 & q2 & E & _). destruct q1; discriminate E.
Qed.

(** *** What happens while the chain runs *)

Lemma settle_uniform p o w : uniform o w -> uniform o (snd (settle p o w)).
Proof.
  unfold uniform. intros H. rewrite settle_unfold.
  destruct (promises w !! p) as [[k [rs|o']]|]; fields; try exact H.
  apply Forall_app. split; [exact H|]. apply Forall_fmap, Forall_true. reflexivity.
Qed.

Lemma run_job_uniform o r w :
  passes o r = true \/ (exists p t, r = AfterGetToken p /\ o = Fulfilled (Some t)) ->
  uniform o w -> uniform o (snd (run_job r o w)).
Proof.
  intros [Hp|(p & t & -> & ->)] H; unfold uniform.
  - destruct (run_job_passes r o w Hp) as [_ ->]. apply settle_uniform. exact H.
  - destruct (run_job_effect (AfterGetToken p) (Fulfilled (Some t)) w) as [o' _ E|_ ->];
      [|exact H].
    revert E. unfold run_job. unfold_M. fields. rewrite !on_settled_unfold. fields.
    rewrite lookup_snoc. cbv beta iota. fields. intros _. exact H.
Qed.

Lemma uniform_dequeue o r o' rest w :
  uniform o w -> microtasks w = (r, o') :: rest ->
  o' = o /\ uniform o (with_microtasks rest w).
Proof.
  unfold uniform. intros H E. rewrite E in H. apply Forall_cons in H as [H1 H2].
  split; [exact H1|exact H2].
Qed.

Lemma run_job_rejected_fields r e w :
  calls (snd (run_job r (Rejected e) w)) = calls w /\
  tokenStorage (snd (run_job r (Rejected e) w)) = tokenStorage w /\
  refreshScheduler (snd (run_job r (Rejected e) w)) = refreshScheduler w.
Proof. destruct w, r; frame_exec; repeat split; reflexivity. Qed.

Lemma rejecting_step e w0 ch ch' r o rest w :
  rejecting e w0 ch w -> microtasks w = (r, o) :: rest ->
  ch' = ch \/ ch = r :: ch' ->
  rejecting e w0 ch' (snd (run_job r o (with_microtasks rest w))).
Proof.
  intros (Hu & Hc & Hs & Ht & Hm) E Hch.
  destruct (uniform_dequeue _ _ _ _ _ Hu E) as [-> Hu'].
  destruct (run_job_rejected_fields r e (with_microtasks rest w)) as (Hc' & Hs' & Ht').
  split; [|split; [|split; [|split]]].
  - apply run_job_uniform; [left; destruct r; reflexivity|exact Hu'].
  - rewrite Hc'. exact Hc.
  - rewrite Hs'. exact Hs.
  - rewrite Ht'. exact Ht.
  - rewrite run_job_marker. fields.
    destruct Hch as [->| ->].
    + destruct Hm as [Hm|Hm]; [left; exact Hm|right]. destruct r; exact Hm || reflexivity.
    + destruct r; cbn [existsb is_ExchangeSettled orb] in Hm;
        first [right; reflexivity | exact Hm].
Qed.

Lemma run_job_token_fields r t w :
  exchange_calls (snd (run_job r (Fulfilled (Some t)) w)) = exchange_calls w /\
  clock (snd (run_job r (Fulfilled (Some t)) w)) = clock w /\
  if is_AfterFetchToken r
  then tokenStorage (snd (run_job r (Fulfilled (Some t)) w)) = Some t /\
       refreshScheduler (snd (run_job r (Fulfilled (Some t)) w))
       = Some (delay_at t (clock w) (reads w))
  else refreshScheduler (snd (run_job r (Fulfilled (Some t)) w)) = refreshScheduler w /\
       (tokenStorage (snd (run_job r (Fulfilled (Some t)) w)) = tokenStorage w \/
        tokenStorage (snd (run_job r (Fulfilled (Some t)) w)) = Some t).
Proof.
  destruct w, r; cbn [is_AfterFetchToken]; unfold exchange_calls, delay_at; frame_exec;
    rewrite ?List.filter_app, ?app_nil_r; cbn [List.filter is_exchange_call];
    rewrite ?app_nil_r; repeat split; auto.
Qed.

Lemma head_source_token t r rest w :
  invariant w -> microtasks w = (r, Fulfilled (Some t)) :: rest -> source_token r = true.
Proof.
  intros (((_ & Hq) & _) & _) E. rewrite E in Hq. apply Forall_cons in Hq as [[Ho _] _].
  cbn [fst snd] in Ho. destruct (source_token r); [reflexivity|discriminate Ho].
Qed.

Lemma delivering_step t w0 ch ch' r o rest w :
  delivering t w0 ch w -> microtasks w = (r, o) :: rest ->
  ch' = ch \/ ch = r :: ch' ->
  delivering t w0 ch' (snd (run_job r o (with_microtasks rest w))).
Proof.
  intros (Hi & Hu & Hc & Hk & Hs & Hm) E Hch.
  destruct (uniform_dequeue _ _ _ _ _ Hu E) as [-> Hu'].
  pose proof (head_source_token _ _ _ _ Hi E) as Hsrc.
  destruct (run_job_token_fields r t (with_microtasks rest w)) as (Hc' & Hk' & Hf).
  split; [|split; [|split; [|split; [|split]]]].
  - exact (proj1 (run_job_invariant _ _ _ _ Hi E)).
  - apply run_job_uniform; [|exact Hu'].
    destruct r; try discriminate Hsrc; first [left; reflexivity | right; eauto].
  - rewrite Hc'. exact Hc.
  - rewrite Hk'. exact Hk.
  - fields in Hf. destruct (is_AfterFetchToken r) eqn:Er.
    + right. destruct Hf as [-> ->]. split; [reflexivity|]. rewrite Hk. eauto.
    + destruct Hf as [-> Hst].
      assert (Hs' : existsb is_AfterFetchToken ch' = true \/
                    (tokenStorage w = Some t /\
                     exists k, refreshScheduler w = Some (delay_at t (clock w0) k))).
      { destruct Hch as [->| ->]; [exact Hs|].
        cbn [existsb] in Hs. rewrite Er in Hs. exact Hs. }
      destruct Hs' as [Hs'|[Hs1 Hs2]]; [left; exact Hs'|right]. split; [|exact Hs2].
      destruct Hst as [->| ->]; [exact Hs1|reflexivity].
  - rewrite run_job_marker. fields.
    destruct Hch as [->| ->].
    + destruct Hm as [Hm|Hm]; [left; exact Hm|right]. destruct r; exact Hm || reflexivity.
    + destruct r; cbn [existsb is_ExchangeSettled orb] in Hm;
        first [right; reflexivity | exact Hm].
Qed.

(** *** Between events *)

Lemma sum_list_with_lookup_le {A : Type} (f : A -> nat) (l : list A) (i : nat) (x : A) :
  l !! i = Some x -> f x <= sum_list_with f l.
Proof.
  revert i. induction l as [|a l IH]; intros [|i] H; try discriminate; cbn in *.
  - injection H as ->. lia.
  - specialize (IH i H). lia.
Qed.

Lemma sum_list_with_two {A : Type} (f : A -> nat) (l : list A) (i j : nat) (x y : A) :
  i <> j -> l !! i = Some x -> l !! j = Some y -> f x + f y <= sum_list_with f l.
Proof.
  revert i j. induction l as [|a l IH]; intros [|i] [|j] Hne Hi Hj;
    try discriminate; try contradiction; cbn in *.
  - injection Hi as ->. pose proof (sum_list_with_lookup_le f l j y Hj). lia.
  - injection Hj as ->. pose proof (sum_list_with_lookup_le f l i x Hi). lia.
  - assert (i <> j) by lia. specialize (IH i j H Hi Hj). lia.
Qed.

Lemma weights_by_zero (wt : Reaction -> nat) (rs : list Reaction) :
  weights_by wt rs = 0 -> Forall (fun r => wt r = 0) rs.
Proof.
  unfold weights_by. induction rs as [|r rs IH]; cbn; intros H; [apply List.Forall_nil|].
  apply Forall_cons. split; [lia|apply IH; lia].
Qed.

(** Between events, while a fetch is in flight: the callback of the
    exchange is the only reaction that settles the wrapper promise, and it is
    parked on the exchange. *)
Lemma quiescent_fetching w wp :
  invariant w -> flight w -> microtasks w = [] -> tokenPromise w = Some wp ->
  exists e rs,
    promises w !! e = Some (mkPromise Exchange (Pending [ExchangeSettled wp])) /\
    promises w !! wp = Some (mkPromise TokenResult (Pending rs)) /\
    forall p c, promises w !! p = Some c -> p <> e ->
      Forall (fun r => target_of r < length (promises w) /\ target_of r <> wp) (parked c).
Proof.
  intros Hi Hf Hq Hm.
  destruct (Hf wp Hm) as ((rs & Hrs) & (_ & Hown) & [(e & He)|(o & Hin)]);
    [|rewrite Hq in Hin; destruct Hin].
  exists e, rs. split; [exact He|split; [exact Hrs|]].
  intros p c Hc Hne.
  destruct Hi as ((Ht & _) & Hsf).
  destruct (typed_bounded _ _ Ht) as (_ & Hb).
  unfold single_flight, in_flight, marker, work in Hsf. rewrite Hq, Hm in Hsf.
  change (weights_by awaits_exchange (fst <$> [])) with 0 in Hsf. cbn [Nat.add] in Hsf.
  pose proof (sum_list_with_two (fun c => weights_by awaits_exchange (parked c))
                _ _ _ _ _ (not_eq_sym Hne) He Hc) as Hle.
  cbn [parked state] in Hle. unfold weights_by at 1 in Hle. cbn in Hle.
  assert (Hz : weights_by awaits_exchange (parked c) = 0) by lia.
  apply weights_by_zero in Hz.
  pose proof (proj1 (Forall_lookup _ _) Hb _ _ Hc) as Hbc.
  pose proof (proj1 (Forall_lookup _ _) Hown _ _ Hc) as Hoc.
  apply Forall_forall. intros r Hr. split.
  - exact (proj1 (Forall_forall _ _) Hbc r Hr).
  - intros Heq. pose proof (proj1 (Forall_forall _ _) Hoc r Hr Heq) as ->.
    pose proof (proj1 (Forall_forall _ _) Hz _ Hr) as H0. discriminate H0.
Qed.

(** *** The exchange settles *)

Lemma passes_rejected e r : passes (Rejected e) r = true.
Proof. destruct r; reflexivity. Qed.

(** The transport client settles the exchange: the job of the callback is
    queued and the chain is ready to run. *)
Lemma waits_settled o w e wp ch :
  waits w e wp ch ->
  chain_inv o (ExchangeSettled wp :: ch) (ExchangeSettled wp :: ch)
    (promises (snd (settle e o w))) (microtasks (snd (settle e o w))) /\
  microtasks (snd (settle e o w)) = [(ExchangeSettled wp, o)].
Proof.
  intros (Hq & He & Hpk & Hnd & HeT & Hoff).
  rewrite settle_unfold, He, Hq. fields. split; [|reflexivity].
  split; [|split].
  - exists []. split; [reflexivity|apply List.Forall_nil].
  - cbn [fmap list_fmap target_of]. intros p c Hc Hp.
    destruct (decide (e = p)) as [->|Hne].
    + rewrite list_lookup_insert_eq in Hc by (eapply lookup_lt_Some; exact He).
      injection Hc as <-. apply List.Forall_nil.
    + rewrite list_lookup_insert_ne in Hc by exact Hne.
      apply (Hoff _ _ Hc); [intros ->; apply Hne; reflexivity|exact Hp].
  - exists [], []. split; [reflexivity|].
    split; [apply List.Forall_nil|split; [apply List.Forall_nil|]].
    cbn [fmap list_fmap target_of].
    apply chain_parked_insert; [| |exact Hpk].
    + intros ->. apply HeT. apply list_elem_of_here.
    + intros Hin. apply HeT. apply list_elem_of_further. exact Hin.
Qed.

Lemma waits_kind w e wp ch : waits w e wp ch -> kind_of w e = Some Exchange.
Proof. intros (_ & He & _). unfold kind_of, kind_at. rewrite He. reflexivity. Qed.

Lemma collaborator_settles_exchange w e o :
  kind_of w e = Some Exchange -> token_outcome o = true ->
  collaborator_settles e o w = settle e o w.
Proof.
  intros Hk Ho. unfold collaborator_settles. rewrite Hk.
  destruct o as [[t|]|[m|r]]; try discriminate Ho; reflexivity.
Qed.

(** The exchange is rejected: every promise of the chain is rejected with
    the same reason, and nothing else happens. *)
Lemma waits_rejects reason w e wp ch :
  waits w e wp ch ->
  Forall (fun r => outcome_of (handle (CollaboratorRejects e reason) w) (target_of r)
                   = Some (Rejected (Reason reason))) (ExchangeSettled wp :: ch) /\
  rejecting (Reason reason) w [] (handle (CollaboratorRejects e reason) w).
Proof.
  intros Hw. unfold handle, call, dispatch.
  rewrite (collaborator_settles_exchange _ _ (Rejected (Reason reason))
             (waits_kind _ _ _ _ Hw) eq_refl).
  destruct (waits_settled (Rejected (Reason reason)) _ _ _ _ Hw) as [Hc Hq].
  destruct Hw as (_ & _ & _ & Hnd & _).
  pose proof (settle_same_fields e (Rejected (Reason reason)) w) as Hsf.
  destruct (settle e (Rejected (Reason reason)) w) as [[] w1]. cbn [snd] in *.
  apply (chain_drain_with _ (ExchangeSettled wp :: ch) (rejecting (Reason reason) w)
           (ExchangeSettled wp :: ch) w1 Hnd).
  - apply Forall_forall. intros r _. apply passes_rejected.
  - intros ch0 r' o' rest w' HQ E _. eapply rejecting_step; [exact HQ|exact E|left; reflexivity].
  - intros ch' r' rest w' HQ E. eapply rejecting_step; [exact HQ|exact E|right; reflexivity].
  - exact Hc.
  - destruct Hsf as (_ & _ & _ & _ & Hst & Hrs & Hcs & _).
    split; [|split; [|split; [|split]]]; try assumption.
    + unfold uniform. rewrite Hq. apply Forall_singleton. reflexivity.
    + left. reflexivity.
Qed.

(** The exchange resolves with [t]: every promise of the chain is
    fulfilled with [t]; the store holds [t] and the timer is armed. *)
Lemma waits_resolves t w e wp ch :
  invariant w -> waits w e wp ch ->
  Forall (fun r => passes (Fulfilled (Some t)) r = true) ch ->
  existsb is_AfterFetchToken ch = true ->
  Forall (fun r => outcome_of (handle (ExchangeResolves e t) w) (target_of r)
                   = Some (Fulfilled (Some t))) (ExchangeSettled wp :: ch) /\
  delivering t w [] (handle (ExchangeResolves e t) w).
Proof.
  intros Hi Hw Hpass Haft.
  pose proof (dispatch_invariant (ExchangeResolves e t) w Hi) as [Hi1 _].
  revert Hi1. unfold handle, call, dispatch.
  rewrite (collaborator_settles_exchange _ _ (Fulfilled (Some t))
             (waits_kind _ _ _ _ Hw) eq_refl).
  destruct (waits_settled (Fulfilled (Some t)) _ _ _ _ Hw) as [Hc Hq].
  destruct Hw as (_ & _ & _ & Hnd & _).
  pose proof (settle_same_fields e (Fulfilled (Some t)) w) as Hsf.
  destruct (settle e (Fulfilled (Some t)) w) as [[] w1]. cbn [snd] in *. intros Hi1.
  apply (chain_drain_with _ (ExchangeSettled wp :: ch) (delivering t w)
           (ExchangeSettled wp :: ch) w1 Hnd).
  - apply Forall_cons. split; [reflexivity|exact Hpass].
  - intros ch0 r' o' rest w' HQ E _. eapply delivering_step; [exact HQ|exact E|left; reflexivity].
  - intros ch' r' rest w' HQ E. eapply delivering_step; [exact HQ|exact E|right; reflexivity].
  - exact Hc.
  - destruct Hsf as (_ & _ & _ & _ & Hst & Hrs & Hcs & Hclk & _).
    split; [exact Hi1|split; [|split; [|split; [|split]]]].
    + unfold uniform. rewrite Hq. apply Forall_singleton. reflexivity.
    + unfold exchange_calls. rewrite Hcs. reflexivity.
    + exact Hclk.
    + left. cbn [existsb is_ExchangeSettled orb]. exact Haft.
    + left. reflexivity.
Qed.

(** *** A call joins the fetch in flight, or starts one *)

(** How [waits] is established once a method has run up to its [await]:
    the promises [ps1] were there before, [l] are the ones the method
    allocated. *)
Lemma waits_intro w e wp ch ps1 l :
  promises w = ps1 ++ l ->
  microtasks w = [] ->
  (ps1 ++ l) !! e = Some (mkPromise Exchange (Pending [ExchangeSettled wp])) ->
  chain_parked (wp :: (target_of <$> ch)) (ps1 ++ l) wp ch ->
  NoDup (wp :: (target_of <$> ch)) ->
  e ∉ wp :: (target_of <$> ch) ->
  Forall (fun t => length ps1 <= t) (target_of <$> ch) ->
  (forall p c, ps1 !! p = Some c -> p <> e -> p <> wp ->
     Forall (fun r => target_of r < length ps1 /\ target_of r <> wp) (parked c)) ->
  (forall i c, l !! i = Some c -> length ps1 + i <> e ->
     length ps1 + i ∉ wp :: (target_of <$> ch) ->
     Forall (off (wp :: (target_of <$> ch))) (parked c)) ->
  waits w e wp ch.
Proof.
  intros Hps Hq He Hpk Hnd HeT Hnew Hold Hl. unfold waits. rewrite Hps.
  repeat (split; [assumption|]).
  intros p c Hc Hne HnT. apply lookup_app_Some in Hc as [Hc|[Hle Hc]].
  - assert (Hwp : p <> wp) by (intros ->; apply HnT, list_elem_of_here).
    eapply Forall_impl; [exact (Hold _ _ Hc Hne Hwp)|].
    intros r [Hlt Hr] Hin. apply elem_of_cons in Hin as [Hin|Hin]; [contradiction|].
    pose proof (proj1 (Forall_forall _ _) Hnew _ Hin). cbv beta in *. lia.
  - apply (Hl (p - length ps1) c Hc); replace (length ps1 + (p - length ps1)) with p by lia;
      assumption.
Qed.

Ltac not_in_solve :=
  rewrite ?not_elem_of_cons; repeat split;
  first [ apply not_elem_of_nil | lia
        | let H := fresh in intros H; subst; congruence ].

Ltac nodup_solve :=
  cbn [fmap list_fmap target_of];
  repeat (apply NoDup_cons; split; [not_in_solve|]); apply NoDup_nil_2.

Ltac new_cells_solve :=
  let i := fresh "i" in
  let c := fresh "c" in
  let Hc := fresh "Hc" in
  let Hne := fresh "Hne" in
  let HnT := fresh "HnT" in
  cbn [fmap list_fmap target_of];
  intros i c Hc Hne HnT;
  repeat (destruct i as [|i];
          [ exfalso;
            first [ apply Hne; lia
                  | apply HnT; rewrite !elem_of_cons; lia ] |]);
  discriminate Hc.

(** Obligations of [waits_intro] when the method joined a fetch in flight
    ([He], [Hrs], [Hold], [Hwe] describe the heap before the call). *)
Ltac waits_joined He Hrs Hold Hwe :=
  eapply waits_intro;
  [ reflexivity
  | reflexivity
  | apply lookup_app_l_Some; rewrite list_lookup_insert_ne by exact Hwe; exact He
  | cbn [chain_parked fmap list_fmap target_of];
    eexists TokenResult, _, (@nil Reaction); split;
    [ eapply Forall_impl; [exact (Hold _ _ Hrs Hwe)|];
      let r := fresh in let H1 := fresh in let H2 := fresh in
      intros r [H1 H2]; unfold off; not_in_solve
    | split; [apply List.Forall_nil|]; split;
      [ apply lookup_app_l_Some, list_lookup_insert_eq; eapply lookup_lt_Some; exact Hrs
      | repeat first
          [ split
          | apply List.Forall_nil
          | heap_norm; reflexivity
          | eexists _, (@nil Reaction), (@nil Reaction) ] ] ]
  | nodup_solve
  | cbn [fmap list_fmap target_of]; not_in_solve
  | cbn [fmap list_fmap target_of]; rewrite length_insert;
    repeat (apply Forall_cons; split; [lia|]); apply List.Forall_nil
  | let p := fresh in let c := fresh in let Hc := fresh in
    let H1 := fresh in let H2 := fresh in
    intros p c Hc H1 H2; rewrite length_insert;
    rewrite list_lookup_insert_ne in Hc by (intros ->; apply H2; reflexivity);
    exact (Hold _ _ Hc H1)
  | rewrite length_insert; new_cells_solve ].

(** Obligations of [waits_intro] when the method started the fetch
    ([Hb] bounds the targets of the reactions that were there before). *)
Ltac waits_started Hb :=
  eapply waits_intro;
  [ reflexivity
  | reflexivity
  | heap_norm; reflexivity
  | cbn [chain_parked fmap list_fmap target_of];
    repeat first
      [ split
      | apply List.Forall_nil
      | heap_norm; reflexivity
      | eexists _, (@nil Reaction), (@nil Reaction) ]
  | nodup_solve
  | cbn [fmap list_fmap target_of]; not_in_solve
  | cbn [fmap list_fmap target_of];
    repeat (apply Forall_cons; split; [lia|]); apply List.Forall_nil
  | let p := fresh in let c := fresh in let Hc := fresh in
    let r := fresh in let Hr := fresh in
    intros p c Hc _ _; eapply Forall_impl; [exact (Hb _ _ Hc)|];
    intros r Hr; cbv beta in Hr; split; [exact Hr|lia]
  | new_cells_solve ].

Ltac side_solve :=
  repeat split;
  first [ reflexivity | lia | discriminate | count_calls; lia
        | intros _; reflexivity ].

Lemma quiescent_bounded w :
  invariant w ->
  forall p c, promises w !! p = Some c ->
    Forall (fun r => target_of r < length (promises w)) (parked c).
Proof.
  intros ((Ht & _) & _) p c Hc.
  exact (proj1 (Forall_lookup _ _) (proj2 (typed_bounded _ _ Ht)) _ _ Hc).
Qed.

Lemma getToken_waits w :
  invariant w -> flight w -> microtasks w = [] ->
  fst (isExpiring (tokenStorage w) w) = true ->
  let '(r, w1) := call getToken w in
  exists e wp x r',
    waits w1 e wp [Adopt x; AfterFetchToken r'; AfterRefreshToken r] /\
    outcome_of w1 r = None /\
    tokenStorage w1 = tokenStorage w /\
    clock w1 = clock w /\
    exchange_calls w1 = exchange_calls w + (1 - marker w) /\
    (tokenPromise w = None -> calls w1 = calls w ++ [GetNewApiToken (apiKey w) e]).
Proof.
  intros Hi Hf Hq Hexp.
  destruct (tokenPromise w) as [wp|] eqn:Hm.
  - destruct (quiescent_fetching w wp Hi Hf Hq Hm) as (e & rs & He & Hrs & Hold).
    clear Hi Hf. revert Hq Hexp Hm He Hrs Hold. unfold marker.
    destruct w as [w_tp w_fc w_key w_db w_st w_sched w_cs w_ps w_q w_clk w_rd].
    fields. intros -> Hexp -> He Hrs Hold. rewrite <- (app_nil_r w_ps).
    assert (Hlt : wp < length w_ps) by (eapply lookup_lt_Some; exact Hrs).
    assert (Hle : e < length w_ps) by (eapply lookup_lt_Some; exact He).
    assert (Hwe : wp <> e) by (intros ->; rewrite He in Hrs; discriminate Hrs).
    destruct w_st as [t0|]; expose_expiring Hexp; exec.
    + exists e, wp, (length w_ps + 2), (length w_ps + 1).
      split; [|side_solve].
      waits_joined He Hrs Hold Hwe.
    + exists e, wp, (length w_ps + 2), (length w_ps + 1).
      split; [|side_solve].
      waits_joined He Hrs Hold Hwe.
  - pose proof (quiescent_bounded w Hi) as Hb.
    clear Hi Hf. revert Hq Hexp Hm Hb. unfold marker.
    destruct w as [w_tp w_fc w_key w_db w_st w_sched w_cs w_ps w_q w_clk w_rd].
    fields. intros -> Hexp -> Hb. rewrite <- (app_nil_r w_ps).
    destruct w_st as [t0|]; expose_expiring Hexp; exec.
    + exists (length w_ps + 4), (length w_ps + 3), (length w_ps + 2), (length w_ps + 1).
      split; [|side_solve].
      waits_started Hb.
    + exists (length w_ps + 4), (length w_ps + 3), (length w_ps + 2), (length w_ps + 1).
      split; [|side_solve].
      waits_started Hb.
Qed.

Lemma connect_waits w :
  invariant w -> flight w -> microtasks w = [] ->
  fst (isExpiring (tokenStorage w) w) = true ->
  let '(c, w1) := call connect w in
  exists e wp x r' r,
    waits w1 e wp [Adopt x; AfterFetchToken r'; AfterRefreshToken r; AfterGetToken c] /\
    outcome_of w1 c = None /\
    tokenStorage w1 = tokenStorage w /\
    client_connects w1 = client_connects w /\
    exchange_calls w1 = exchange_calls w + (1 - marker w).
Proof.
  intros Hi Hf Hq Hexp.
  destruct (tokenPromise w) as [wp|] eqn:Hm.
  - destruct (quiescent_fetching w wp Hi Hf Hq Hm) as (e & rs & He & Hrs & Hold).
    clear Hi Hf. revert Hq Hexp Hm He Hrs Hold. unfold marker.
    destruct w as [w_tp w_fc w_key w_db w_st w_sched w_cs w_ps w_q w_clk w_rd].
    fields. intros -> Hexp -> He Hrs Hold. rewrite <- (app_nil_r w_ps).
    assert (Hlt : wp < length w_ps) by (eapply lookup_lt_Some; exact Hrs).
    assert (Hle : e < length w_ps) by (eapply lookup_lt_Some; exact He).
    assert (Hwe : wp <> e) by (intros ->; rewrite He in Hrs; discriminate Hrs).
    destruct w_st as [t0|]; expose_expiring Hexp; exec;
      (exists e, wp, (length w_ps + 3), (length w_ps + 2), (length w_ps + 1);
       split; [|side_solve]; waits_joined He Hrs Hold Hwe).
  - pose proof (quiescent_bounded w Hi) as Hb.
    clear Hi Hf. revert Hq Hexp Hm Hb. unfold marker.
    destruct w as [w_tp w_fc w_key w_db w_st w_sched w_cs w_ps w_q w_clk w_rd].
    fields. intros -> Hexp -> Hb. rewrite <- (app_nil_r w_ps).
    destruct w_st as [t0|]; expose_expiring Hexp; exec;
      (exists (length w_ps + 5), (length w_ps + 4), (length w_ps + 3),
              (length w_ps + 2), (length w_ps + 1);
       split; [|side_solve]; waits_started Hb).
Qed.

Lemma refreshToken_waits w :
  invariant w -> flight w -> microtasks w = [] ->
  let '(r, w1) := call refreshToken w in
  exists e wp x,
    waits w1 e wp [Adopt x; AfterFetchToken r] /\
    tokenPromise w1 = Some wp /\
    outcome_of w1 r = None /\
    exchange_calls w1 = exchange_calls w + (1 - marker w).
Proof.
  intros Hi Hf Hq.
  destruct (tokenPromise w) as [wp|] eqn:Hm.
  - destruct (quiescent_fetching w wp Hi Hf Hq Hm) as (e & rs & He & Hrs & Hold).
    clear Hi Hf. revert Hq Hm He Hrs Hold. unfold marker.
    destruct w as [w_tp w_fc w_key w_db w_st w_sched w_cs w_ps w_q w_clk w_rd].
    fields. intros -> -> He Hrs Hold. rewrite <- (app_nil_r w_ps).
    assert (Hlt : wp < length w_ps) by (eapply lookup_lt_Some; exact Hrs).
    assert (Hle : e < length w_ps) by (eapply lookup_lt_Some; exact He).
    assert (Hwe : wp <> e) by (intros ->; rewrite He in Hrs; discriminate Hrs).
    exec. exists e, wp, (length w_ps + 1).
    split; [|side_solve]. waits_joined He Hrs Hold Hwe.
  - pose proof (quiescent_bounded w Hi) as Hb.
    clear Hi Hf. revert Hq Hm Hb. unfold marker.
    destruct w as [w_tp w_fc w_key w_db w_st w_sched w_cs w_ps w_q w_clk w_rd].
    fields. intros -> -> Hb. rewrite <- (app_nil_r w_ps).
    exec. exists (length w_ps + 3), (length w_ps + 2), (length w_ps + 1).
    split; [|side_solve]. waits_started Hb.
Qed.

(** With no fetch in flight, [refreshToken()] starts one. *)
Lemma refreshToken_starts_fetch w :
  microtasks w = [] -> tokenPromise w = None ->
  exchange_calls (snd (call refreshToken w)) = exchange_calls w + 1.
Proof.
  revert w. intros w. open_world w. exec. count_calls. reflexivity.
Qed.

Lemma waits_pending w e wp ch : waits w e wp ch -> outcome_of w e = None.
Proof. intros (_ & He & _). unfold outcome_of, outcome_at. rewrite He. reflexivity. Qed.

(** The exchange the chain waits for is the only one pending. *)
Lemma waits_one_exchange w e wp ch :
  invariant w -> waits w e wp ch -> exchanges_pending w = 1.
Proof.
  intros Hi (_ & He & _).
  pose proof (exchanges_pending_marker w Hi) as Hle. pose proof (marker_le_1 w) as H1.
  pose proof (sum_list_with_lookup_le pending_exchange _ _ _ He) as Hge.
  unfold exchanges_pending in *. cbn [pending_exchange kind state] in Hge. lia.
Qed.

Lemma delivering_done t w0 w :
  delivering t w0 [] w ->
  tokenStorage w = Some t /\
  tokenPromise w = None /\
  exchange_calls w = exchange_calls w0 /\
  exists k, refreshScheduler w = Some (delay_at t (clock w0) k).
Proof.
  intros (_ & _ & Hc & _ & [Hs|[Hs Hk]] & [Hm|Hm]); try discriminate.
  repeat (split; [assumption|]). exact Hk.
Qed.

Lemma rejecting_done e w0 w :
  rejecting e w0 [] w ->
  calls w = calls w0 /\ tokenStorage w = tokenStorage w0 /\
  refreshScheduler w = refreshScheduler w0 /\ tokenPromise w = None.
Proof.
  intros (_ & Hc & Hs & Ht & [Hm|Hm]); try discriminate.
  repeat (split; [assumption|]). exact Hm.
Qed.

(** *** getToken with no usable token *)

(** C5.  On a connector that went through the events [evs] since it was
    built, a [getToken()] that finds the store empty, or holding a token with
    [expires_at <= now], does not settle at once: it waits for a token
    exchange, the one in flight if there is one, else one it starts through
    [refreshToken]; no other exchange is pending.  Once that exchange
    resolves with a token, [getToken()]
    resolves with that token, whatever the store held before; the store
    holds it, the timer is armed from its expiry, the marker is cleared, and
    no further exchange was started. *)
Theorem getToken_expired_fetches
    (params : EoswsConnectorParams) (clk : nat -> Z) (evs : list Event)
    (t_new : ApiTokenInfo) :
  let w := run evs (constructor params clk) in
  fst (isExpiring (tokenStorage w) w) = true ->
  let '(r, w1) := call getToken w in
  outcome_of w1 r = None /\
  exchange_calls w1 = exchange_calls w + (1 - marker w) /\
  exchanges_pending w1 = 1 /\
  exists e,
    kind_of w1 e = Some Exchange /\
    outcome_of w1 e = None /\
    (tokenPromise w = None -> calls w1 = calls w ++ [GetNewApiToken (apiKey w) e]) /\
    let w2 := handle (ExchangeResolves e t_new) w1 in
    outcome_of w2 r = Some (Fulfilled (Some t_new)) /\
    tokenStorage w2 = Some t_new /\
    tokenPromise w2 = None /\
    exchange_calls w2 = exchange_calls w1 /\
    exists k, refreshScheduler w2 = Some (delay_at t_new (clock w) k).
Proof.
  intros w Hexp.
  pose proof (reachable_invariant params clk evs) as Hi.
  pose proof (reachable_flight params clk evs) as Hf.
  assert (Hq : microtasks w = []) by (apply run_quiescent; reflexivity).
  pose proof (getToken_waits w Hi Hf Hq Hexp) as H.
  pose proof (call_invariant TokenResult getToken getToken_invariant w [] Hi) as Hi1.
  destruct (call getToken w) as [r w1].
  destruct H as (e & wp & x & r' & Hw & Ho & Hst & Hclk & Hx & Hcalls).
  destruct Hi1 as [Hi1 _]. cbn [run foldl] in Hi1.
  split; [exact Ho|]. split; [exact Hx|].
  split; [exact (waits_one_exchange _ _ _ _ Hi1 Hw)|]. exists e.
  split; [exact (waits_kind _ _ _ _ Hw)|]. split; [exact (waits_pending _ _ _ _ Hw)|].
  split; [exact Hcalls|]. cbv zeta.
  destruct (waits_resolves t_new w1 e wp _ Hi1 Hw) as [Hall Hdel].
  { repeat (apply Forall_cons; split; [reflexivity|]). apply List.Forall_nil. }
  { reflexivity. }
  apply delivering_done in Hdel as (Hs & Hm & Hc & k & Hk).
  split; [|repeat (split; [assumption|]); exists k; rewrite <- Hclk; exact Hk].
  do 3 (apply Forall_cons in Hall as [_ Hall]). apply Forall_cons in Hall as [Hr _].
  exact Hr.
Qed.

Lemma getToken_expired_fetches_witness :
  let w := run [CallRefreshToken] (constructor params_abc123 clock0) in
  fst (isExpiring (tokenStorage w) w) = true /\
  exchange_calls (snd (call getToken w)) = exchange_calls w + (1 - marker w).
Proof.
  cbv zeta.
  assert (H0 : fst (isExpiring
                      (tokenStorage (run [CallRefreshToken] (constructor params_abc123 clock0)))
                      (run [CallRefreshToken] (constructor params_abc123 clock0))) = true)
    by (vm_compute; reflexivity).
  split; [exact H0|].
  pose proof (getToken_expired_fetches params_abc123 clock0 [CallRefreshToken]
                (tok1 (seconds 5000000)) H0) as H.
  destruct (call getToken (run [CallRefreshToken] (constructor params_abc123 clock0)))
    as [r w1].
  exact (proj1 (proj2 H)).
Defined.

(** *** connect when the exchange fails *)

(** C2.  On a connector that went through the events [evs] since it was
    built, a [connect()] that finds no usable token waits for a token
    exchange (the one in flight, or one it starts).  When that exchange is
    rejected, [connect()] is rejected with the reason the exchange was
    rejected with; from the call of [connect()] on, the transport client's
    [connect] is not called and the store is as it was. *)
Theorem connect_exchange_fails
    (params : EoswsConnectorParams) (clk : nat -> Z) (evs : list Event) (reason : string) :
  let w := run evs (constructor params clk) in
  fst (isExpiring (tokenStorage w) w) = true ->
  let '(c, w1) := call connect w in
  outcome_of w1 c = None /\
  client_connects w1 = client_connects w /\
  tokenStorage w1 = tokenStorage w /\
  exchanges_pending w1 = 1 /\
  exists e,
    kind_of w1 e = Some Exchange /\
    outcome_of w1 e = None /\
    let w2 := handle (CollaboratorRejects e reason) w1 in
    outcome_of w2 c = Some (Rejected (Reason reason)) /\
    calls w2 = calls w1 /\
    client_connects w2 = client_connects w /\
    tokenStorage w2 = tokenStorage w.
Proof.
  intros w Hexp.
  pose proof (reachable_invariant params clk evs) as Hi.
  pose proof (reachable_flight params clk evs) as Hf.
  assert (Hq : microtasks w = []) by (apply run_quiescent; reflexivity).
  pose proof (connect_waits w Hi Hf Hq Hexp) as H.
  pose proof (call_invariant VoidResult connect connect_invariant w [] Hi) as Hi1.
  destruct (call connect w) as [c w1].
  destruct H as (e & wp & x & r' & r & Hw & Ho & Hst & Hcc & _).
  destruct Hi1 as [Hi1 _]. cbn [run foldl] in Hi1.
  repeat (split; [assumption|]).
  split; [exact (waits_one_exchange _ _ _ _ Hi1 Hw)|]. exists e.
  split; [exact (waits_kind _ _ _ _ Hw)|]. split; [exact (waits_pending _ _ _ _ Hw)|].
  cbv zeta. destruct (waits_rejects reason w1 e wp _ Hw) as [Hall Hrej].
  apply rejecting_done in Hrej as (Hc & Hs & _ & _).
  do 4 (apply Forall_cons in Hall as [_ Hall]). apply Forall_cons in Hall as [Hr _].
  split; [exact Hr|]. split; [exact Hc|].
  split; [unfold client_connects in *; rewrite Hc; exact Hcc|].
  rewrite Hs. exact Hst.
Qed.

Lemma connect_exchange_fails_witness :
  let w := run [] (constructor params_abc123 clock0) in
  fst (isExpiring (tokenStorage w) w) = true /\
  tokenStorage (snd (call connect w)) = tokenStorage w.
Proof.
  cbv zeta.
  assert (H0 : fst (isExpiring (tokenStorage (run [] (constructor params_abc123 clock0)))
                      (run [] (constructor params_abc123 clock0))) = true)
    by reflexivity.
  split; [exact H0|].
  pose proof (connect_exchange_fails params_abc123 clock0 [] "HTTP 401"%string H0) as H.
  destruct (call connect (run [] (constructor params_abc123 clock0))) as [c w1].
  exact (proj1 (proj2 (proj2 H))).
Defined.

(** *** The marker is cleared either way *)

(** C7.  On a connector that went through the events [evs] since it was
    built, after [refreshToken()] the marker is set and one exchange is
    pending (started by this call unless a fetch was in flight).  When that
    exchange settles, whether it resolves with a token or is rejected, the
    marker is cleared, the promise of [refreshToken()] is settled
    accordingly, and the next [refreshToken()] starts a new exchange. *)
Theorem fetchToken_clears_marker
    (params : EoswsConnectorParams) (clk : nat -> Z) (evs : list Event) :
  let w := run evs (constructor params clk) in
  let '(r, w1) := call refreshToken w in
  exists wrapper e,
    tokenPromise w1 = Some wrapper /\
    kind_of w1 e = Some Exchange /\
    outcome_of w1 e = None /\
    exchanges_pending w1 = 1 /\
    exchange_calls w1 = exchange_calls w + (1 - marker w) /\
    (forall t : ApiTokenInfo,
        let w2 := handle (ExchangeResolves e t) w1 in
        tokenPromise w2 = None /\
        outcome_of w2 r = Some (Fulfilled (Some t)) /\
        exchange_calls (snd (call refreshToken w2)) = exchange_calls w2 + 1) /\
    (forall reason : string,
        let w2 := handle (CollaboratorRejects e reason) w1 in
        tokenPromise w2 = None /\
        outcome_of w2 r = Some (Rejected (Reason reason)) /\
        exchange_calls (snd (call refreshToken w2)) = exchange_calls w2 + 1).
Proof.
  intros w.
  pose proof (reachable_invariant params clk evs) as Hi.
  pose proof (reachable_flight params clk evs) as Hf.
  assert (Hq : microtasks w = []) by (apply run_quiescent; reflexivity).
  pose proof (refreshToken_waits w Hi Hf Hq) as H.
  pose proof (call_invariant TokenResult refreshToken refreshToken_invariant w [] Hi) as Hi1.
  destruct (call refreshToken w) as [r w1].
  destruct H as (e & wp & x & Hw & Hm & Ho & Hx).
  destruct Hi1 as [Hi1 _]. cbn [run foldl] in Hi1.
  exists wp, e. split; [exact Hm|].
  split; [exact (waits_kind _ _ _ _ Hw)|]. split; [exact (waits_pending _ _ _ _ Hw)|].
  split; [exact (waits_one_exchange _ _ _ _ Hi1 Hw)|].
  split; [exact Hx|]. split.
  - intros t. cbv zeta.
    destruct (waits_resolves t w1 e wp _ Hi1 Hw) as [Hall Hdel].
    { repeat (apply Forall_cons; split; [reflexivity|]). apply List.Forall_nil. }
    { reflexivity. }
    apply delivering_done in Hdel as (_ & Hm2 & _).
    do 2 (apply Forall_cons in Hall as [_ Hall]). apply Forall_cons in Hall as [Hr _].
    split; [exact Hm2|]. split; [exact Hr|].
    apply refreshToken_starts_fetch; [apply handle_quiescent|exact Hm2].
  - intros reason. cbv zeta.
    destruct (waits_rejects reason w1 e wp _ Hw) as [Hall Hrej].
    apply rejecting_done in Hrej as (_ & _ & _ & Hm2).
    do 2 (apply Forall_cons in Hall as [_ Hall]). apply Forall_cons in Hall as [Hr _].
    split; [exact Hm2|]. split; [exact Hr|].
    apply refreshToken_starts_fetch; [apply handle_quiescent|exact Hm2].
Qed.

(** * Properties over the life of a connector *)

(** ** The job queue always drains *)

(** X1.  Whatever the state of the connector, the jobs its continuations
    queue come to an end: [run_microtasks] leaves the queue empty, the fuel
    it starts with is enough (more fuel changes nothing), and so every event
    is handled to the point where the connector waits for its collaborators
    again. *)
Theorem job_queue_drains (w : World) :
  microtasks (run_microtasks w) = [] /\
  (forall n, pending_work w <= n -> drain n w = run_microtasks w) /\
  (forall ev, microtasks (handle ev w) = []).
Proof.
  split; [apply run_microtasks_quiescent|]. split.
  - intros n Hn. unfold run_microtasks. apply drain_stable; [exact Hn|lia].
  - intros ev. apply handle_quiescent.
Qed.

Lemma job_queue_drains_witness :
  pending_work W0 <= 7 /\ drain 7 W0 = run_microtasks W0.
Proof.
  assert (H : pending_work W0 <= 7) by (vm_compute; lia).
  split; [exact H|]. exact (proj1 (proj2 (job_queue_drains W0)) 7 H).
Defined.

(** ** The first-call flag *)

(** X2.  The first-call flag is set when the connector is built; from any
    state on, it is still set after some events exactly when it was set
    before and none of the events was a [getToken()], made directly or
    through [connect()].  So the first such call clears it, whether it finds
    a usable token or has to fetch one, and nothing sets it again. *)
Theorem first_call_consumed_once :
  (forall (params : EoswsConnectorParams) (clk : nat -> Z),
      firstCall (constructor params clk) = true) /\
  (forall (w : World) (evs : list Event),
      firstCall (run evs w) = firstCall w && no_getToken_yet evs).
Proof.
  split; [reflexivity|].
  intros w evs. induction evs as [|ev evs IH] using rev_ind.
  - cbn. rewrite andb_true_r. reflexivity.
  - rewrite run_snoc, handle_firstCall, IH. unfold no_getToken_yet.
    rewrite forallb_app. cbn. rewrite andb_true_r, andb_assoc. reflexivity.
Qed.

(** ** The refresh delay *)

Lemma this_Qcmult (a b : Qc) : (this (a * b)%Qc == this a * this b)%Q.
Proof. unfold Qcmult, Q2Qc. cbn [this]. apply Qred_correct. Qed.

Lemma this_Qcplus (a b : Qc) : (this (a + b)%Qc == this a + this b)%Q.
Proof. unfold Qcplus, Q2Qc. cbn [this]. apply Qred_correct. Qed.

Lemma this_Qcminus (a b : Qc) : (this (a - b)%Qc == this a - this b)%Q.
Proof.
  unfold Qcminus. rewrite this_Qcplus. unfold Qcopp, Q2Qc. cbn [this].
  rewrite Qred_correct. reflexivity.
Qed.

Lemma this_nine_tenths : (this (Q2Qc (9 # 10)) == 9 # 10)%Q.
Proof. reflexivity. Qed.

(** X3.  [getRefreshDelay] answers nine tenths of the time the token has
    left: the delay is positive exactly when the token has not expired yet,
    and then the refresh falls strictly before the expiry; for a token that
    expires now the delay is zero, and for one that has expired already it
    is negative. *)
Theorem getRefreshDelay_before_expiry (t : ApiTokenInfo) (w : World) :
  let now := now_seconds w in
  let delay := fst (getRefreshDelay t w) in
  ((0 < delay)%Qc <-> (now < expires_at t)%Qc) /\
  ((now + delay < expires_at t)%Qc <-> (now < expires_at t)%Qc) /\
  (delay = 0%Qc <-> expires_at t = now) /\
  ((delay < 0)%Qc <-> (expires_at t < now)%Qc).
Proof.
  cbv zeta. rewrite getRefreshDelay_eq. generalize (now_seconds w). intros now.
  unfold Qclt. rewrite this_Qcplus, !this_Qcmult, !this_Qcminus, this_nine_tenths.
  change (this 0%Qc) with 0%Q.
  split; [split; intros H; lra|]. split; [split; intros H; lra|].
  split; [|split; intros H; lra].
  split; intros H.
  - apply Qc_is_canon. apply (f_equal this) in H.
    assert (H' : (this ((expires_at t - now) * Q2Qc (9 # 10))%Qc == 0)%Q)
      by (rewrite H; reflexivity).
    rewrite this_Qcmult, this_Qcminus, this_nine_tenths in H'. lra.
  - apply Qc_is_canon. rewrite this_Qcmult, this_Qcminus, this_nine_tenths, H.
    change (this 0%Qc) with 0%Q. lra.
Qed.

(** ** What the marker names *)

(** X4.  On a connector that went through any events since it was built,
    the marker [tokenPromise], when set, names a promise the connector made
    that is still pending, never one that is settled already; exactly one
    exchange is pending then, and it is pending too. *)
Theorem marker_names_pending_promise
    (params : EoswsConnectorParams) (clk : nat -> Z) (evs : list Event) (wp : pid) :
  let w := run evs (constructor params clk) in
  tokenPromise w = Some wp ->
  kind_of w wp = Some TokenResult /\
  outcome_of w wp = None /\
  exchanges_pending w = 1 /\
  exists e, kind_of w e = Some Exchange /\ outcome_of w e = None /\ e <> wp.
Proof.
  intros w Hm.
  pose proof (reachable_invariant params clk evs) as Hi.
  pose proof (reachable_flight params clk evs) as Hf.
  assert (Hq : microtasks w = []) by (apply run_quiescent; reflexivity).
  destruct (quiescent_fetching w wp Hi Hf Hq Hm) as (e & rs & He & Hrs & _).
  unfold kind_of, kind_at, outcome_of, outcome_at. rewrite Hrs.
  split; [reflexivity|]. split; [reflexivity|]. split.
  - pose proof (exchanges_pending_marker w Hi) as Hle. pose proof (marker_le_1 w) as H1.
    pose proof (sum_list_with_lookup_le pending_exchange _ _ _ He) as Hge.
    unfold exchanges_pending in *. cbn [pending_exchange kind state] in Hge. lia.
  - exists e. rewrite He. split; [reflexivity|]. split; [reflexivity|].
    intros ->. rewrite He in Hrs. discriminate Hrs.
Qed.

Lemma marker_names_pending_promise_witness :
  let w := run [CallRefreshToken] (constructor params_abc123 clock0) in
  tokenPromise w = Some 2 /\ outcome_of w 2 = None.
Proof.
  cbv zeta.
  assert (H0 : tokenPromise (run [CallRefreshToken] (constructor params_abc123 clock0))
               = Some 2) by (vm_compute; reflexivity).
  split; [exact H0|].
  destruct (marker_names_pending_promise params_abc123 clock0 [CallRefreshToken] 2 H0)
    as (_ & H & _).
  exact H.
Defined.

(** ** When the exchange fails *)

Lemma call_handle_getToken w : snd (call getToken w) = handle CallGetToken w.
Proof.
  unfold handle, call, dispatch. unfold_M. destruct (getToken w) as [r w']. reflexivity.
Qed.

(** X5.  On a connector that went through any events since it was built, a
    [getToken()] that finds no usable token and whose exchange is rejected
    is rejected with the reason the exchange was rejected with.  The store
    is as it was before the call, no call is made to the scheduler or to the
    transport client, the armed timer is as it was, the marker is cleared,
    and the first-call flag has been consumed all the same. *)
Theorem getToken_exchange_fails
    (params : EoswsConnectorParams) (clk : nat -> Z) (evs : list Event) (reason : string) :
  let w := run evs (constructor params clk) in
  fst (isExpiring (tokenStorage w) w) = true ->
  let '(r, w1) := call getToken w in
  exists e,
    kind_of w1 e = Some Exchange /\
    outcome_of w1 e = None /\
    let w2 := handle (CollaboratorRejects e reason) w1 in
    outcome_of w2 r = Some (Rejected (Reason reason)) /\
    tokenStorage w2 = tokenStorage w /\
    calls w2 = calls w1 /\
    refreshScheduler w2 = refreshScheduler w1 /\
    tokenPromise w2 = None /\
    firstCall w2 = false.
Proof.
  intros w Hexp.
  pose proof (reachable_invariant params clk evs) as Hi.
  pose proof (reachable_flight params clk evs) as Hf.
  assert (Hq : microtasks w = []) by (apply run_quiescent; reflexivity).
  pose proof (getToken_waits w Hi Hf Hq Hexp) as H.
  pose proof (call_handle_getToken w) as Hh.
  destruct (call getToken w) as [r w1]. cbn [snd] in Hh.
  destruct H as (e & wp & x & r' & Hw & _ & Hst & _).
  exists e. split; [exact (waits_kind _ _ _ _ Hw)|].
  split; [exact (waits_pending _ _ _ _ Hw)|]. cbv zeta.
  destruct (waits_rejects reason w1 e wp _ Hw) as [Hall Hrej].
  apply rejecting_done in Hrej as (Hc & Hs & Ht & Hm).
  do 3 (apply Forall_cons in Hall as [_ Hall]). apply Forall_cons in Hall as [Hr _].
  split; [exact Hr|]. split; [rewrite Hs; exact Hst|].
  repeat (split; [assumption|]).
  rewrite handle_firstCall, Hh, handle_firstCall. cbn. rewrite andb_false_r. reflexivity.
Qed.

Lemma getToken_exchange_fails_witness :
  let w := run [] (constructor params_abc123 clock0) in
  fst (isExpiring (tokenStorage w) w) = true /\
  exists e, kind_of (snd (call getToken w)) e = Some Exchange.
Proof.
  cbv zeta.
  assert (H0 : fst (isExpiring (tokenStorage (run [] (constructor params_abc123 clock0)))
                      (run [] (constructor params_abc123 clock0))) = true)
    by reflexivity.
  split; [exact H0|].
  pose proof (getToken_exchange_fails params_abc123 clock0 [] "timeout"%string H0) as H.
  destruct (call getToken (run [] (constructor params_abc123 clock0))) as [r w1].
  destruct H as (e & He & _). exists e. exact He.
Defined.

(** X6.  On a connector that went through any events since it was built,
    [refreshToken()] touches the store and the scheduler only when its
    exchange succeeds: then the store holds the fetched token and the timer
    is armed from its expiry, with no further exchange started.  When the
    exchange is rejected no call is made at all, so the timer is not armed
    again, and the store and the timer are as they were. *)
Theorem refreshToken_stores_on_success_only
    (params : EoswsConnectorParams) (clk : nat -> Z) (evs : list Event) :
  let w := run evs (constructor params clk) in
  let '(r, w1) := call refreshToken w in
  exists e,
    kind_of w1 e = Some Exchange /\
    outcome_of w1 e = None /\
    (forall t : ApiTokenInfo,
        let w2 := handle (ExchangeResolves e t) w1 in
        tokenStorage w2 = Some t /\
        (exists k, refreshScheduler w2 = Some (delay_at t (clock w1) k)) /\
        exchange_calls w2 = exchange_calls w1) /\
    (forall reason : string,
        let w2 := handle (CollaboratorRejects e reason) w1 in
        calls w2 = calls w1 /\
        tokenStorage w2 = tokenStorage w1 /\
        refreshScheduler w2 = refreshScheduler w1).
Proof.
  intros w.
  pose proof (reachable_invariant params clk evs) as Hi.
  pose proof (reachable_flight params clk evs) as Hf.
  assert (Hq : microtasks w = []) by (apply run_quiescent; reflexivity).
  pose proof (refreshToken_waits w Hi Hf Hq) as H.
  pose proof (call_invariant TokenResult refreshToken refreshToken_invariant w [] Hi) as Hi1.
  destruct (call refreshToken w) as [r w1].
  destruct H as (e & wp & x & Hw & _). destruct Hi1 as [Hi1 _]. cbn [run foldl] in Hi1.
  exists e. split; [exact (waits_kind _ _ _ _ Hw)|].
  split; [exact (waits_pending _ _ _ _ Hw)|]. split.
  - intros t. cbv zeta.
    destruct (waits_resolves t w1 e wp _ Hi1 Hw) as [_ Hdel].
    { repeat (apply Forall_cons; split; [reflexivity|]). apply List.Forall_nil. }
    { reflexivity. }
    apply delivering_done in Hdel as (Hs & _ & Hc & Hk).
    split; [exact Hs|]. split; [exact Hk|exact Hc].
  - intros reason. cbv zeta.
    destruct (waits_rejects reason w1 e wp _ Hw) as [_ Hrej].
    apply rejecting_done in Hrej as (Hc & Hs & Ht & _).
    split; [exact Hc|]. split; [exact Hs|exact Ht].
Qed.

(** ** connect, to the end *)

(** Evaluate the events of the goal one at a time, innermost first, also
    where they occur under a binder. *)
Ltac eval_events :=
  cbv [run foldl];
  repeat match goal with
  | |- context [handle ?ev ?w] =>
      lazymatch w with
      | context [handle _ _] => fail
      | _ =>
          let H := fresh in
          eassert (H : handle ev w = _) by (exec; reflexivity);
          revert H; generalize (handle ev w); intros ? ->
      end
  end.

(** Evaluate the call the goal starts with, leaving the rest folded. *)
Ltac eval_call :=
  match goal with
  | |- context [call ?f ?w] =>
      let H := fresh in
      eassert (H : call f w = _) by (exec; reflexivity);
      rewrite H; clear H; cbv beta iota zeta
  end.

(** X7.  With nothing queued and no fetch in flight, a [connect()] that
    finds no usable token starts an exchange; once that resolves with a
    token the connector, in this order, arms the timer from the token's
    expiry and calls the transport client's [connect], once, with the token
    in the store.  [connect()] settles as the transport client's promise
    does: fulfilled with [undefined], or rejected with the same reason, in
    which case the token stays in the store and the timer stays armed. *)
Theorem connect_after_fetch (w : World) (t : ApiTokenInfo) :
  microtasks w = [] ->
  tokenPromise w = None ->
  fst (isExpiring (tokenStorage w) w) = true ->
  let '(c, w1) := call connect w in
  let e := c + 5 in
  let p := c + 6 in
  let w2 := handle (ExchangeResolves e t) w1 in
  let delay := ((expires_at t - now_seconds w1) * Q2Qc (9 # 10))%Qc in
  calls w2 = calls w ++ [GetNewApiToken (apiKey w) e; ScheduleNextRefresh delay;
                         ClientConnect p] /\
  tokenStorage w2 = Some t /\
  refreshScheduler w2 = Some delay /\
  outcome_of w2 c = None /\
  (let w3 := handle (TransportResolves p) w2 in
   outcome_of w3 c = Some (Fulfilled None) /\
   calls w3 = calls w2 /\ tokenStorage w3 = Some t) /\
  (forall reason : string,
      let w3 := handle (CollaboratorRejects p reason) w2 in
      outcome_of w3 c = Some (Rejected (Reason reason)) /\
      calls w3 = calls w2 /\ tokenStorage w3 = Some t /\
      refreshScheduler w3 = Some delay).
Proof.
  revert w. intros w. open_world w.
  destruct w_st as [t0|];
    match goal with H : fst _ = true |- _ => expose_expiring H end;
    eval_call; eval_events;
    (do 4 (split; [exec; reflexivity|])); (split; [exec; repeat split; reflexivity|]);
    intros reason; eval_events; exec; repeat split; reflexivity.
Qed.

Lemma connect_after_fetch_witness :
  microtasks W0 = [] /\
  tokenPromise W0 = None /\
  fst (isExpiring (tokenStorage W0) W0) = true /\
  tokenStorage (handle (ExchangeResolves 5 (tok1 (seconds 5000000))) (snd (call connect W0)))
  = Some (tok1 (seconds 5000000)).
Proof.
  refine (conj eq_refl (conj eq_refl (conj eq_refl _))).
  pose proof (connect_after_fetch W0 (tok1 (seconds 5000000)) eq_refl eq_refl eq_refl) as H.
  destruct (call connect W0) as [c w1] eqn:E.
  assert (Hc : c = 0) by (apply (f_equal fst) in E; vm_compute in E; congruence).
  subst c. exact (proj1 (proj2 H)).
Defined.

(** X8.  With nothing queued, a [connect()] that finds a stored token that
    is not expiring starts no exchange and leaves the marker alone: within
    the same task it calls the transport client's [connect], once, after
    arming the timer if this was the first [getToken()] of the connector.
    It settles as the transport client's promise does, fulfilled with
    [undefined] or rejected with the same reason; the stored token is kept
    either way. *)
Theorem connect_with_stored_token (w : World) (t : ApiTokenInfo) :
  microtasks w = [] ->
  tokenStorage w = Some t ->
  Qcleb (expires_at t) (now_seconds w) = false ->
  let '(c, w1) := call connect w in
  let p := c + 3 in
  let delay := ((expires_at t - seconds (clock w (S (reads w)))) * Q2Qc (9 # 10))%Qc in
  outcome_of w1 c = None /\
  tokenStorage w1 = Some t /\
  tokenPromise w1 = tokenPromise w /\
  firstCall w1 = false /\
  exchange_calls w1 = exchange_calls w /\
  calls w1 = calls w ++ (if firstCall w then [ScheduleNextRefresh delay] else [])
                     ++ [ClientConnect p] /\
  (let w2 := handle (TransportResolves p) w1 in
   outcome_of w2 c = Some (Fulfilled None) /\
   calls w2 = calls w1 /\ tokenStorage w2 = Some t) /\
  (forall reason : string,
      let w2 := handle (CollaboratorRejects p reason) w1 in
      outcome_of w2 c = Some (Rejected (Reason reason)) /\
      calls w2 = calls w1 /\ tokenStorage w2 = Some t).
Proof.
  unfold now_seconds. revert w. intros w. open_world w.
  destruct w_fc; eval_call; eval_events;
    (do 4 (split; [exec; reflexivity|]));
    (split; [unfold exchange_calls; fields; count_calls; lia|]);
    (split; [exec; reflexivity|]);
    (split; [exec; repeat split; reflexivity|]);
    intros reason; eval_events; exec; repeat split; reflexivity.
Qed.

Lemma connect_with_stored_token_witness :
  let w := constructor params_stored clock0 in
  microtasks w = [] /\
  tokenStorage w = Some (tok1 (seconds 5000000)) /\
  Qcleb (expires_at (tok1 (seconds 5000000))) (now_seconds w) = false /\
  tokenStorage (snd (call connect w)) = Some (tok1 (seconds 5000000)).
Proof.
  cbv zeta. refine (conj eq_refl (conj eq_refl (conj eq_refl _))).
  pose proof (connect_with_stored_token (constructor params_stored clock0)
                (tok1 (seconds 5000000)) eq_refl eq_refl eq_refl) as H.
  destruct (call connect (constructor params_stored clock0)) as [c w1].
  exact (proj1 (proj2 H)).
Defined.

(** ** The API key *)

Ltac keyed_solve :=
  split; [reflexivity|];
  rewrite ?Forall_app; repeat split; try assumption;
  repeat (apply Forall_cons; split; [exact I || reflexivity|]); apply List.Forall_nil.

Lemma dispatch_keyed key ev w :
  apiKey w = key /\ Forall (keyed key) (calls w) ->
  apiKey (snd (dispatch ev w)) = key /\ Forall (keyed key) (calls (snd (dispatch ev w))).
Proof.
  destruct w as [w_tp w_fc w_key w_db w_st w_sched w_cs w_ps w_q w_clk w_rd].
  fields. intros [<- Hc]. destruct ev; frame_exec; keyed_solve.
Qed.

Lemma run_job_keyed key r o w :
  apiKey w = key /\ Forall (keyed key) (calls w) ->
  apiKey (snd (run_job r o w)) = key /\ Forall (keyed key) (calls (snd (run_job r o w))).
Proof.
  destruct w as [w_tp w_fc w_key w_db w_st w_sched w_cs w_ps w_q w_clk w_rd].
  fields. intros [<- Hc]. destruct r, o as [[t|]|e]; frame_exec; keyed_solve.
Qed.

Lemma handle_keyed key ev w :
  apiKey w = key /\ Forall (keyed key) (calls w) ->
  apiKey (handle ev w) = key /\ Forall (keyed key) (calls (handle ev w)).
Proof.
  intros H. unfold handle, call. pose proof (dispatch_keyed key ev w H) as Hd.
  destruct (dispatch ev w) as [u w']. cbn [snd] in *.
  apply (run_microtasks_ind
           (fun w0 => apiKey w0 = key /\ Forall (keyed key) (calls w0))); [|exact Hd].
  intros r o rest w0 H0 _. apply run_job_keyed. exact H0.
Qed.

(** X9.  Every token exchange the connector ever asks for, whoever
    triggered it ([connect], [getToken], [refreshToken] or the refresh
    timer), is asked for with the API key the connector was built with. *)
Theorem exchanges_use_the_configured_key
    (params : EoswsConnectorParams) (clk : nat -> Z) (evs : list Event) :
  let w := run evs (constructor params clk) in
  apiKey w = params_apiKey params /\
  forall key p, In (GetNewApiToken key p) (calls w) -> key = params_apiKey params.
Proof.
  cbv zeta.
  assert (H : apiKey (run evs (constructor params clk)) = params_apiKey params /\
              Forall (keyed (params_apiKey params)) (calls (run evs (constructor params clk)))).
  { induction evs as [|ev evs IH] using rev_ind.
    - split; [reflexivity|]. cbn. apply Forall_singleton. exact I.
    - rewrite run_snoc. apply handle_keyed. exact IH. }
  destruct H as [Hk Hc]. split; [exact Hk|].
  intros key p Hin. apply list_elem_of_In in Hin.
  exact (proj1 (Forall_forall _ _) Hc _ Hin).
Qed.

(** ** The store is never emptied *)

Lemma dispatch_store ev w :
  tokenStorage (snd (dispatch ev w)) = tokenStorage w /\
  client_connects (snd (dispatch ev w)) = client_connects w.
Proof.
  destruct w as [w_tp w_fc w_key w_db w_st w_sched w_cs w_ps w_q w_clk w_rd].
  unfold client_connects.
  destruct ev; frame_exec; (split; [reflexivity|]); count_calls; lia.
Qed.

Lemma run_job_store r o rest w :
  invariant w -> microtasks w = (r, o) :: rest ->
  (tokenStorage w <> None ->
   tokenStorage (snd (run_job r o (with_microtasks rest w))) <> None) /\
  (client_connects (snd (run_job r o (with_microtasks rest w))) = client_connects w \/
   tokenStorage (snd (run_job r o (with_microtasks rest w))) <> None).
Proof.
  intros (((_ & Hq) & _) & _) E. rewrite E in Hq. apply Forall_cons in Hq as [[Ho _] _].
  cbn [fst snd] in Ho. clear E. revert Ho.
  destruct w as [w_tp w_fc w_key w_db w_st w_sched w_cs w_ps w_q w_clk w_rd].
  unfold client_connects.
  destruct r, o as [[t|]|[m|reason]]; cbn [source_token outcome_matches token_outcome void_outcome];
    intros Ho; try discriminate Ho; frame_exec;
    (split; [intros H; first [exact H | discriminate]|]);
    first [ left; count_calls; lia | right; discriminate ].
Qed.

Lemma handle_store ev w :
  invariant w ->
  (tokenStorage w <> None -> tokenStorage (handle ev w) <> None) /\
  (client_connects (handle ev w) = client_connects w \/ tokenStorage (handle ev w) <> None).
Proof.
  intros Hi. unfold handle, call.
  destruct (dispatch_invariant ev w Hi) as [Hd _].
  destruct (dispatch_store ev w) as [Hs Hc].
  destruct (dispatch ev w) as [u w']. cbn [snd] in *. rewrite <- Hs, <- Hc.
  apply (run_microtasks_ind
           (fun w0 => invariant w0 /\
                      (tokenStorage w' <> None -> tokenStorage w0 <> None) /\
                      (client_connects w0 = client_connects w' \/ tokenStorage w0 <> None)));
    [|split; [exact Hd|split; [trivial|left; reflexivity]]].
  intros r o rest w0 (Hi0 & Hs0 & Hc0) E.
  destruct (run_job_store r o rest w0 Hi0 E) as [Hs1 Hc1].
  split; [exact (proj1 (run_job_invariant _ _ _ _ Hi0 E))|]. split.
  - intros H. apply Hs1, Hs0, H.
  - destruct Hc0 as [Hc0|Hc0]; [|right; apply Hs1, Hc0].
    destruct Hc1 as [Hc1|Hc1]; [left; congruence|right; exact Hc1].
Qed.

(** X10.  On a connector that went through any events since it was built,
    a store that holds a token holds a token ever after: the connector
    replaces the stored token, it never empties the store. *)
Theorem store_never_emptied
    (params : EoswsConnectorParams) (clk : nat -> Z) (evs evs' : list Event) :
  let w := run evs (constructor params clk) in
  tokenStorage w <> None -> tokenStorage (run evs' w) <> None.
Proof.
  intros w Hs. pose proof (reachable_invariant params clk evs) as Hi. fold w in Hi.
  induction evs' as [|ev evs' IH] using rev_ind; [exact Hs|].
  rewrite run_snoc. apply handle_store; [|exact IH]. apply run_invariant. exact Hi.
Qed.

Lemma store_never_emptied_witness :
  let w := run [] (constructor params_stored clock0) in
  tokenStorage w <> None /\ tokenStorage (run [CallGetToken] w) <> None.
Proof.
  cbv zeta.
  assert (H0 : tokenStorage (run [] (constructor params_stored clock0)) <> None)
    by discriminate.
  split; [exact H0|].
  exact (store_never_emptied params_stored clock0 [] [CallGetToken] H0).
Defined.

(** X11.  The transport client's [connect] is never called before a token
    is in the store: on a connector that went through any events since it
    was built, either no such call was made yet or the store holds a
    token. *)
Theorem connects_only_with_a_token_stored
    (params : EoswsConnectorParams) (clk : nat -> Z) (evs : list Event) :
  let w := run evs (constructor params clk) in
  client_connects w = 0 \/ tokenStorage w <> None.
Proof.
  cbv zeta. induction evs as [|ev evs IH] using rev_ind; [left; reflexivity|].
  rewrite run_snoc.
  destruct (handle_store ev _ (reachable_invariant params clk evs)) as [Hs Hc].
  destruct IH as [IH|IH]; [|right; apply Hs, IH].
  destruct Hc as [Hc|Hc]; [left; congruence|right; exact Hc].
Qed.

(** ** delayBuffer is never read *)

Lemma ignores_ret {A : Type} (a : A) : ignores_delayBuffer (mret a).
Proof. intros x w. reflexivity. Qed.

Lemma ignores_bind {A B : Type} (m : M A) (k : A -> M B) :
  ignores_delayBuffer m -> (forall a, ignores_delayBuffer (k a)) ->
  ignores_delayBuffer (mbind k m).
Proof.
  intros Hm Hk x w. unfold mbind, M_bind. rewrite Hm.
  destruct (m w) as [a w']. cbn [fst snd]. rewrite Hk.
  destruct (k a w') as [b w'']. reflexivity.
Qed.

Lemma ignores_settle p o : ignores_delayBuffer (settle p o).
Proof.
  intros x w. rewrite !settle_unfold.
  replace (promises (with_delayBuffer x w)) with (promises w) by (destruct w; reflexivity).
  destruct (promises w !! p) as [[k [rs|o']]|]; destruct w; reflexivity.
Qed.

Lemma ignores_on_settled p r : ignores_delayBuffer (on_settled p r).
Proof.
  intros x w. rewrite !on_settled_unfold.
  replace (promises (with_delayBuffer x w)) with (promises w) by (destruct w; reflexivity).
  destruct (promises w !! p) as [[k [rs|o']]|]; destruct w; reflexivity.
Qed.

Ltac ignores_prim := intros ? []; reflexivity.

Ltac ignores_solve :=
  repeat first
    [ assumption
    | apply ignores_settle
    | apply ignores_on_settled
    | apply ignores_ret
    | apply ignores_bind
    | progress intros
    | match goal with
      | |- ignores_delayBuffer (match ?x with _ => _ end) => destruct x
      end
    | solve [ignores_prim] ].

Lemma ignores_fetchToken : ignores_delayBuffer fetchToken.
Proof. unfold fetchToken, client_getNewApiToken, log. ignores_solve. Qed.

Lemma ignores_refreshToken : ignores_delayBuffer refreshToken.
Proof. pose proof ignores_fetchToken. unfold refreshToken. ignores_solve. Qed.

Lemma ignores_getRefreshDelay t : ignores_delayBuffer (getRefreshDelay t).
Proof. unfold getRefreshDelay. ignores_solve. Qed.

Lemma ignores_scheduleNextRefresh d : ignores_delayBuffer (scheduleNextRefresh d).
Proof. unfold scheduleNextRefresh, log. ignores_solve. Qed.

Lemma ignores_getToken : ignores_delayBuffer getToken.
Proof.
  pose proof ignores_refreshToken. pose proof ignores_getRefreshDelay.
  pose proof ignores_scheduleNextRefresh.
  unfold getToken, isExpiring, getRefreshDelay_asserted, tokenStorage_get. ignores_solve.
Qed.

Lemma ignores_collaborator_settles p o : ignores_delayBuffer (collaborator_settles p o).
Proof.
  intros x w. unfold collaborator_settles, kind_of.
  replace (promises (with_delayBuffer x w)) with (promises w) by (destruct w; reflexivity).
  destruct (kind_at (promises w) p) as [[]|], o as [[t|]|e];
    try reflexivity; apply ignores_settle.
Qed.

Lemma ignores_dispatch ev : ignores_delayBuffer (dispatch ev).
Proof.
  pose proof ignores_refreshToken. pose proof ignores_getToken.
  destruct ev;
    unfold dispatch, connect, reconnect, disconnect, timer_fires,
           client_reconnect, client_disconnect, log;
    first [apply ignores_collaborator_settles | ignores_solve].
Qed.

Lemma ignores_run_job r o : ignores_delayBuffer (run_job r o).
Proof.
  pose proof ignores_getRefreshDelay. pose proof ignores_scheduleNextRefresh.
  destruct r, o as [[t|]|e];
    unfold run_job, tokenStorage_set, client_connect, log; ignores_solve.
Qed.

Lemma drain_with_delayBuffer n : forall x w,
  drain n (with_delayBuffer x w) = with_delayBuffer x (drain n w).
Proof.
  induction n as [|n IH]; intros x w; [reflexivity|]. cbn [drain].
  replace (microtasks (with_delayBuffer x w)) with (microtasks w) by (destruct w; reflexivity).
  destruct (microtasks w) as [|[r o] rest]; [reflexivity|].
  replace (with_microtasks rest (with_delayBuffer x w))
    with (with_delayBuffer x (with_microtasks rest w)) by (destruct w; reflexivity).
  rewrite ignores_run_job. cbn [snd]. apply IH.
Qed.

Lemma handle_with_delayBuffer ev x w :
  handle ev (with_delayBuffer x w) = with_delayBuffer x (handle ev w).
Proof.
  unfold handle, call. rewrite ignores_dispatch.
  destruct (dispatch ev w) as [u w']. cbn [fst snd]. unfold run_microtasks.
  replace (pending_work (with_delayBuffer x w')) with (pending_work w')
    by (destruct w'; reflexivity).
  apply drain_with_delayBuffer.
Qed.

Lemma run_with_delayBuffer evs x w :
  run evs (with_delayBuffer x w) = with_delayBuffer x (run evs w).
Proof.
  induction evs as [|ev evs IH] using rev_ind; [reflexivity|].
  rewrite !run_snoc, IH. apply handle_with_delayBuffer.
Qed.

(** X12.  The [delayBuffer] given to the constructor changes nothing but the
    field that holds it: whatever the events, a connector built with another
    [delayBuffer] makes the same calls with the same arguments, in
    particular arms the timer with the same delays, and has the same store,
    promises and flags. *)
Theorem delayBuffer_never_read
    (params : EoswsConnectorParams) (d : option Qc) (clk : nat -> Z) (evs : list Event) :
  let params' := mkParams (params_apiKey params) (params_tokenStorage params) d in
  let w := run evs (constructor params clk) in
  let w' := run evs (constructor params' clk) in
  w' = with_delayBuffer (number_or d DEFAULT_DELAY_BUFFER_PERCENT) w /\
  calls w' = calls w /\
  refreshScheduler w' = refreshScheduler w /\
  tokenStorage w' = tokenStorage w /\
  promises w' = promises w.
Proof.
  cbv zeta.
  assert (H : run evs (constructor (mkParams (params_apiKey params)
                                      (params_tokenStorage params) d) clk)
              = with_delayBuffer (number_or d DEFAULT_DELAY_BUFFER_PERCENT)
                  (run evs (constructor params clk))).
  { rewrite <- run_with_delayBuffer. f_equal. }
  rewrite H. destruct (run evs (constructor params clk)). repeat split.
Qed.

(** ** Any number of callers *)

(** Only one exchange is pending at a time. *)
Lemma exchange_unique w e e' wp wp' :
  invariant w -> microtasks w = [] ->
  promises w !! e = Some (mkPromise Exchange (Pending [ExchangeSettled wp])) ->
  promises w !! e' = Some (mkPromise Exchange (Pending [ExchangeSettled wp'])) ->
  e = e'.
Proof.
  intros (_ & Hsf) Hq He He'. destruct (decide (e = e')) as [Heq|Hne]; [exact Heq|exfalso].
  unfold single_flight, in_flight, work in Hsf. rewrite Hq in Hsf.
  change (weights_by awaits_exchange (fst <$> [])) with 0 in Hsf. cbn [Nat.add] in Hsf.
  pose proof (sum_list_with_two (fun c => weights_by awaits_exchange (parked c))
                _ _ _ _ _ Hne He He') as Hle.
  cbn [parked state] in Hle. unfold weights_by in Hle at 1 2. cbn in Hle.
  pose proof (marker_le_1 w). lia.
Qed.

Lemma call_handle_refreshToken w :
  snd (call refreshToken w) = handle CallRefreshToken w.
Proof.
  unfold handle, call, dispatch. unfold_M. destruct (refreshToken w) as [r w']. reflexivity.
Qed.

Lemma chain_parked_lt T ps p ch : chain_parked T ps p ch -> p < length ps.
Proof.
  intros H. apply chain_parked_unfold in H as (k & rs & rs' & _ & _ & H).
  destruct ch as [|r ch']; [|destruct H as [H _]]; eapply lookup_lt_Some; exact H.
Qed.

Lemma chain_parked_targets T ps p ch :
  chain_parked T ps p ch -> Forall (fun t => t < length ps) (target_of <$> ch).
Proof.
  revert p. induction ch as [|r ch IH]; intros p H; [apply List.Forall_nil|].
  apply chain_parked_unfold in H as (k & rs & rs' & _ & _ & _ & H).
  cbn [fmap list_fmap]. apply Forall_cons. split; [exact (chain_parked_lt _ _ _ _ H)|].
  exact (IH _ H).
Qed.

Lemma chain_parked_pending T ps p ch :
  chain_parked T ps p ch -> exists k L, ps !! p = Some (mkPromise k (Pending L)).
Proof.
  intros H. apply chain_parked_unfold in H as (k & rs & rs' & _ & _ & H).
  destruct ch as [|r ch']; [|destruct H as [H _]]; eauto.
Qed.

(** One more reaction is parked on the head of the chain. *)
Lemma chain_parked_park T ps p ch k L r_new :
  chain_parked T ps p ch ->
  ps !! p = Some (mkPromise k (Pending L)) ->
  off T r_new ->
  p ∉ target_of <$> ch ->
  chain_parked T (<[p := mkPromise k (Pending (L ++ [r_new]))]> ps) p ch.
Proof.
  intros H E Hnew Hp. apply chain_parked_unfold in H as (k' & rs & rs' & Hrs & Hrs' & H).
  assert (Hlt : p < length ps) by (eapply lookup_lt_Some; exact E).
  apply chain_parked_unfold. exists k, rs, (rs' ++ [r_new]).
  split; [exact Hrs|]. split; [apply Forall_app; split; [exact Hrs'|apply Forall_singleton; exact Hnew]|].
  destruct ch as [|r ch'].
  - rewrite H in E. injection E as <- <-.
    rewrite list_lookup_insert_eq by exact Hlt. rewrite app_assoc. reflexivity.
  - destruct H as [H1 H2]. rewrite H1 in E. injection E as <- <-. split.
    + rewrite list_lookup_insert_eq by exact Hlt. rewrite <- app_assoc. reflexivity.
    + apply chain_parked_insert; [| |exact H2].
      * intros Heq. apply Hp. rewrite Heq. apply list_elem_of_here.
      * intros Hin. apply Hp. apply list_elem_of_further. exact Hin.
Qed.

(** A further caller joins the fetch: the chains that wait already are not
    disturbed. *)
Lemma waits_extend w w1 e wp ch k L r_new l :
  waits w e wp ch ->
  promises w !! wp = Some (mkPromise k (Pending L)) ->
  promises w1 = <[wp := mkPromise k (Pending (L ++ [r_new]))]> (promises w) ++ l ->
  microtasks w1 = [] ->
  length (promises w) <= target_of r_new ->
  Forall (fun c => Forall (fun r => length (promises w) <= target_of r) (parked c)) l ->
  waits w1 e wp ch.
Proof.
  intros (Hq & He & Hpk & Hnd & HeT & Hoff) E Hps Hq1 Hnew Hl.
  assert (Hwp : wp < length (promises w)) by (eapply lookup_lt_Some; exact E).
  pose proof (chain_parked_targets _ _ _ _ Hpk) as Hlt.
  assert (HT : forall t, t ∈ wp :: (target_of <$> ch) -> t < length (promises w)).
  { intros t Ht. apply elem_of_cons in Ht as [->|Ht]; [exact Hwp|].
    exact (proj1 (Forall_forall _ _) Hlt _ Ht). }
  assert (Hfresh : forall r, length (promises w) <= target_of r ->
                             off (wp :: (target_of <$> ch)) r).
  { intros r Hr Hin. apply HT in Hin. lia. }
  assert (Hwe : wp <> e) by (intros ->; apply HeT, list_elem_of_here).
  apply NoDup_cons in Hnd as Hnd'. destruct Hnd' as [Hwpn _].
  unfold waits. rewrite Hps. split; [exact Hq1|]. split; [|split; [|split; [exact Hnd|split; [exact HeT|]]]].
  - apply lookup_app_l_Some. rewrite list_lookup_insert_ne by exact Hwe. exact He.
  - apply chain_parked_app. apply chain_parked_park; [exact Hpk|exact E| |exact Hwpn].
    apply Hfresh, Hnew.
  - intros p c Hc Hne HnT. apply lookup_app_Some in Hc as [Hc|[_ Hc]].
    + rewrite list_lookup_insert_ne in Hc by (intros ->; apply HnT, list_elem_of_here).
      exact (Hoff _ _ Hc Hne HnT).
    + eapply Forall_impl; [exact (proj1 (Forall_lookup _ _) Hl _ _ Hc)|]. exact Hfresh.
Qed.

Lemma refreshToken_joins w e wp ch :
  waits w e wp ch -> tokenPromise w = Some wp ->
  let '(r, w1) := call refreshToken w in
  waits w1 e wp ch /\ r = length (promises w) /\ tokenPromise w1 = Some wp.
Proof.
  intros Hw Hm. pose proof Hw as (Hq & _ & Hpk & _).
  destruct (chain_parked_pending _ _ _ _ Hpk) as (k & L & E).
  pose proof (waits_extend w) as Hext. specialize (fun w1 => Hext w1 e wp ch k L).
  revert Hw Hm Hq E Hext. clear Hpk.
  destruct w as [w_tp w_fc w_key w_db w_st w_sched w_cs w_ps w_q w_clk w_rd].
  fields. intros Hw -> -> E Hext. rewrite <- (app_nil_r w_ps). exec.
  split; [|split; [lia|reflexivity]].
  eapply Hext; [exact Hw|exact E|fields; reflexivity|reflexivity|cbn [target_of]; lia|].
  repeat (apply Forall_cons; split;
          [cbn [parked state]; repeat (apply Forall_cons; split; [cbn [target_of]; lia|]);
           apply List.Forall_nil|]).
  apply List.Forall_nil.
Qed.

Lemma joined_lt w e wp r : joined w e wp r -> r < length (promises w).
Proof.
  intros (x & _ & _ & Hpk & _). apply chain_parked_targets in Hpk.
  cbn [fmap list_fmap target_of] in Hpk.
  apply Forall_cons in Hpk as [_ Hpk]. apply Forall_cons in Hpk as [Hr _]. exact Hr.
Qed.

Lemma refreshToken_times_more n : forall w e wp r0 done,
  invariant w -> flight w -> tokenPromise w = Some wp ->
  Forall (joined w e wp) (r0 :: done) -> NoDup (r0 :: done) ->
  let '(rs, w1) := refreshToken_times n w in
  invariant w1 /\ flight w1 /\ tokenPromise w1 = Some wp /\
  Forall (joined w1 e wp) ((r0 :: done) ++ rs) /\
  length rs = n /\
  NoDup ((r0 :: done) ++ rs) /\
  exchange_calls w1 = exchange_calls w.
Proof.
  induction n as [|n IH]; intros w e wp r0 done Hi Hf Hm Hj Hnd.
  - cbn [refreshToken_times mret M_ret]. rewrite app_nil_r.
    split; [exact Hi|]. split; [exact Hf|]. split; [exact Hm|]. split; [exact Hj|].
    split; [reflexivity|]. split; [exact Hnd|reflexivity].
  - cbn [refreshToken_times]. unfold mbind, M_bind, mret, M_ret.
    assert (Hq : microtasks w = []).
    { apply Forall_cons in Hj as [(x & Hq & _) _]. exact Hq. }
    pose proof (refreshToken_waits w Hi Hf Hq) as Hown.
    pose proof (call_handle_refreshToken w) as Hh.
    assert (Hall : Forall (fun d => let '(r, w1) := call refreshToken w in
                             joined w1 e wp d /\ r = length (promises w) /\
                             tokenPromise w1 = Some wp) (r0 :: done)).
    { eapply Forall_impl; [exact Hj|]. intros d (x & Hw).
      pose proof (refreshToken_joins w e wp _ Hw Hm) as H.
      destruct (call refreshToken w) as [r w1]. destruct H as (H1 & H2 & H3).
      split; [exists x; exact H1|split; assumption]. }
    assert (Hlt : Forall (fun d => d < length (promises w)) (r0 :: done)).
    { eapply Forall_impl; [exact Hj|]. intros d. apply joined_lt. }
    destruct (call refreshToken w) as [r w1]. cbn [snd] in Hh.
    destruct Hown as (e' & wp' & x & Hw' & Hm' & _ & Hx).
    assert (Hi1 : invariant w1) by (rewrite Hh; apply handle_invariant; exact Hi).
    assert (Hf1 : flight w1) by (rewrite Hh; apply handle_flight; assumption).
    assert (Hj1 : Forall (joined w1 e wp) (r0 :: done)).
    { eapply Forall_impl; [exact Hall|]. intros d (H & _). exact H. }
    apply Forall_cons in Hall as [(_ & Hr & Hm1) _].
    rewrite Hm1 in Hm'. injection Hm' as <-.
    assert (He : e' = e).
    { pose proof Hj1 as Hj1'. apply Forall_cons in Hj1' as [(x0 & Hq1 & He0 & _) _].
      destruct Hw' as (_ & He' & _). symmetry.
      exact (exchange_unique w1 e e' wp wp Hi1 Hq1 He0 He'). }
    subst e'.
    assert (Hj2 : Forall (joined w1 e wp) (r0 :: done ++ [r])).
    { change (r0 :: done ++ [r]) with ((r0 :: done) ++ [r]). apply Forall_app.
      split; [exact Hj1|]. apply Forall_singleton. exists x. exact Hw'. }
    assert (Hnd2 : NoDup (r0 :: done ++ [r])).
    { change (r0 :: done ++ [r]) with ((r0 :: done) ++ [r]). apply NoDup_app.
      split; [exact Hnd|]. split; [|apply NoDup_singleton].
      intros d Hd Hin. apply list_elem_of_singleton in Hin. subst d.
      pose proof (proj1 (Forall_forall _ _) Hlt _ Hd) as Hlt'. cbv beta in Hlt'. lia. }
    specialize (IH w1 e wp r0 (done ++ [r]) Hi1 Hf1 Hm1 Hj2 Hnd2).
    destruct (refreshToken_times n w1) as [rs w2].
    destruct IH as (Hi2 & Hf2 & Hm2 & Hj3 & Hl & Hnd3 & Hx2).
    cbn [app] in *. rewrite <- app_assoc in Hj3, Hnd3. cbn [app] in Hj3, Hnd3.
    repeat (split; [assumption|]). split; [cbn; lia|]. split; [exact Hnd3|].
    rewrite Hx2, Hx. unfold marker. rewrite Hm. lia.
Qed.

(** Any number of calls of [refreshToken()] in a row wait for one and the
    same exchange. *)
Lemma refreshToken_times_joined n w :
  invariant w -> flight w -> microtasks w = [] ->
  let '(rs, w1) := refreshToken_times (S n) w in
  exists e wp,
    invariant w1 /\ Forall (joined w1 e wp) rs /\ length rs = S n /\ NoDup rs /\
    exchange_calls w1 = exchange_calls w + (1 - marker w).
Proof.
  intros Hi Hf Hq. cbn [refreshToken_times]. unfold mbind, M_bind, mret, M_ret.
  pose proof (refreshToken_waits w Hi Hf Hq) as Hown.
  pose proof (call_handle_refreshToken w) as Hh.
  destruct (call refreshToken w) as [r w1]. cbn [snd] in Hh.
  destruct Hown as (e & wp & x & Hw & Hm & _ & Hx).
  assert (Hi1 : invariant w1) by (rewrite Hh; apply handle_invariant; exact Hi).
  assert (Hf1 : flight w1) by (rewrite Hh; apply handle_flight; assumption).
  assert (Hj : Forall (joined w1 e wp) [r]) by (apply Forall_singleton; exists x; exact Hw).
  pose proof (refreshToken_times_more n w1 e wp r [] Hi1 Hf1 Hm Hj (NoDup_singleton r)) as H.
  destruct (refreshToken_times n w1) as [rs w2].
  destruct H as (Hi2 & _ & _ & Hj2 & Hl & Hnd & Hx2).
  exists e, wp. cbn [app] in *. repeat (split; [assumption|]).
  split; [cbn; lia|]. split; [exact Hnd|]. rewrite Hx2. exact Hx.
Qed.

(** X13.  On a connector that went through any events since it was built,
    any number of calls of [refreshToken()] in a row start one exchange
    between them, or none if a fetch was in flight already.  One exchange is
    pending then; when it resolves with a token the promise of every caller
    is fulfilled with that token, the store holds it, the marker is cleared
    and no further exchange was started. *)
Theorem concurrent_refreshes_share_one_exchange
    (params : EoswsConnectorParams) (clk : nat -> Z) (evs : list Event)
    (n : nat) (t : ApiTokenInfo) :
  let w := run evs (constructor params clk) in
  let '(rs, w1) := refreshToken_times (S n) w in
  length rs = S n /\
  NoDup rs /\
  exchange_calls w1 = exchange_calls w + (1 - marker w) /\
  exchanges_pending w1 = 1 /\
  exists e,
    kind_of w1 e = Some Exchange /\
    outcome_of w1 e = None /\
    let w2 := handle (ExchangeResolves e t) w1 in
    Forall (fun r => outcome_of w2 r = Some (Fulfilled (Some t))) rs /\
    exchange_calls w2 = exchange_calls w1 /\
    tokenPromise w2 = None /\
    tokenStorage w2 = Some t.
Proof.
  intros w.
  pose proof (reachable_invariant params clk evs) as Hi.
  pose proof (reachable_flight params clk evs) as Hf.
  assert (Hq : microtasks w = []) by (apply run_quiescent; reflexivity).
  pose proof (refreshToken_times_joined n w Hi Hf Hq) as H.
  destruct (refreshToken_times (S n) w) as [rs w1].
  destruct H as (e & wp & Hi1 & Hj & Hl & Hnd & Hx).
  split; [exact Hl|]. split; [exact Hnd|]. split; [exact Hx|].
  assert (Hres : forall r, joined w1 e wp r ->
            outcome_of (handle (ExchangeResolves e t) w1) r = Some (Fulfilled (Some t)) /\
            delivering t w1 [] (handle (ExchangeResolves e t) w1)).
  { intros r (x & Hw).
    destruct (waits_resolves t w1 e wp _ Hi1 Hw) as [Hall Hdel].
    { repeat (apply Forall_cons; split; [reflexivity|]). apply List.Forall_nil. }
    { reflexivity. }
    split; [|exact Hdel].
    do 2 (apply Forall_cons in Hall as [_ Hall]). apply Forall_cons in Hall as [Hr _].
    exact Hr. }
  destruct rs as [|r0 rs]; [discriminate Hl|].
  pose proof Hj as Hj0. apply Forall_cons in Hj0 as [Hj0 _].
  destruct (Hres r0 Hj0) as [_ Hdel]. destruct Hj0 as (x0 & Hw0).
  split; [exact (waits_one_exchange _ _ _ _ Hi1 Hw0)|]. exists e.
  split; [exact (waits_kind _ _ _ _ Hw0)|]. split; [exact (waits_pending _ _ _ _ Hw0)|].
  cbv zeta. apply delivering_done in Hdel as (Hs & Hm & Hc & _).
  split; [|split; [exact Hc|split; [exact Hm|exact Hs]]].
  eapply Forall_impl; [exact Hj|]. intros r Hr. exact (proj1 (Hres r Hr)).
Qed.

(** ** No exchange without a request *)

Lemma run_job_exchange_calls r o w :
  exchange_calls (snd (run_job r o w)) = exchange_calls w.
Proof.
  destruct w as [w_tp w_fc w_key w_db w_st w_sched w_cs w_ps w_q w_clk w_rd].
  unfold exchange_calls. destruct r, o as [[t|]|e]; frame_exec; count_calls; lia.
Qed.

Lemma dispatch_exchange_calls ev w :
  exchange_calls w <= exchange_calls (snd (dispatch ev w)) /\
  exchange_calls (snd (dispatch ev w))
  <= exchange_calls w + (if asks_for_token ev then 1 - marker w else 0).
Proof.
  destruct w as [w_tp w_fc w_key w_db w_st w_sched w_cs w_ps w_q w_clk w_rd].
  unfold exchange_calls, marker.
  destruct ev; cbn [asks_for_token]; frame_exec; count_calls; lia.
Qed.

Lemma handle_exchange_calls ev w :
  exchange_calls w <= exchange_calls (handle ev w) /\
  exchange_calls (handle ev w)
  <= exchange_calls w + (if asks_for_token ev then 1 - marker w else 0).
Proof.
  unfold handle, call. pose proof (dispatch_exchange_calls ev w) as Hd.
  destruct (dispatch ev w) as [u w']. cbn [snd] in *.
  assert (H : exchange_calls (run_microtasks w') = exchange_calls w').
  { apply (run_microtasks_ind (fun w0 => exchange_calls w0 = exchange_calls w'));
      [|reflexivity].
    intros r o rest w0 H0 _. rewrite run_job_exchange_calls. exact H0. }
  rewrite H. exact Hd.
Qed.

(** X14.  The connector asks for a token only when it is asked to: handling
    an event never takes an exchange back, starts at most one, and none at
    all when the event is a promise of the transport client settling or a
    call of [reconnect] or [disconnect], or when a fetch is in flight.  So
    over any events, from any state, the exchanges started are at most the
    calls of [connect], [getToken] and [refreshToken] and the firings of the
    timer. *)
Theorem no_exchange_without_request :
  (forall (ev : Event) (w : World),
      exchange_calls w <= exchange_calls (handle ev w) /\
      exchange_calls (handle ev w)
      <= exchange_calls w + (if asks_for_token ev then 1 - marker w else 0)) /\
  (forall (evs : list Event) (w : World),
      exchange_calls (run evs w) <= exchange_calls w + requests evs).
Proof.
  split; [exact handle_exchange_calls|].
  intros evs w. induction evs as [|ev evs IH] using rev_ind; [cbn; lia|].
  rewrite run_snoc. unfold requests in *. rewrite List.filter_app, length_app.
  destruct (handle_exchange_calls ev (run evs w)) as [_ H].
  cbn [List.filter]. destruct (asks_for_token ev); cbn [length]; lia.
Qed.

(** ** The refresh timer *)

Lemma timer_fires_refreshes d w :
  refreshScheduler w = Some d ->
  handle TimerFires w = snd (call refreshToken (with_refreshScheduler None w)).
Proof.
  intros Hd. unfold handle, call, dispatch, timer_fires. unfold_M. rewrite Hd.
  destruct (refreshToken (with_refreshScheduler None w)) as [r w']. reflexivity.
Qed.

Lemma timer_fires_unarmed w :
  microtasks w = [] -> refreshScheduler w = None -> handle TimerFires w = w.
Proof.
  intros Hq Hd. unfold handle, call, dispatch, timer_fires. unfold_M. rewrite Hd.
  cbn [snd]. apply run_microtasks_idle. exact Hq.
Qed.

Lemma disarm_invariant w : invariant w -> invariant (with_refreshScheduler None w).
Proof. destruct w; exact id. Qed.

Lemma disarm_flight w : flight w -> flight (with_refreshScheduler None w).
Proof. destruct w; exact id. Qed.

Lemma refreshToken_keeps_store_and_timer w :
  invariant w -> flight w -> microtasks w = [] ->
  refreshScheduler (snd (call refreshToken w)) = refreshScheduler w /\
  tokenStorage (snd (call refreshToken w)) = tokenStorage w.
Proof.
  intros Hi Hf Hq. rewrite refreshToken_queues_nothing; [|exact Hq|].
  - clear. destruct w as [w_tp w_fc w_key w_db w_st w_sched w_cs w_ps w_q w_clk w_rd].
    destruct w_tp; frame_exec; split; reflexivity.
  - intros tp Hm. destruct (quiescent_fetching w tp Hi Hf Hq Hm) as (_ & rs & _ & Hrs & _).
    eauto.
Qed.

(** X15.  The refresh timer, on a connector that went through any events
    since it was built.  When the armed timer fires it is spent and a
    refresh runs, which starts an exchange unless a fetch is in flight.
    When that exchange resolves, the store holds the new token and the timer
    is armed again from its expiry.  When it is rejected nothing is called,
    so no timer is armed: the refreshes in the background stop, with the
    store as it was.  A timer that is not armed does nothing. *)
Theorem timer_refresh_cycle
    (params : EoswsConnectorParams) (clk : nat -> Z) (evs : list Event) :
  let w := run evs (constructor params clk) in
  (refreshScheduler w = None -> handle TimerFires w = w) /\
  (refreshScheduler w <> None ->
   let w1 := handle TimerFires w in
   refreshScheduler w1 = None /\
   exchange_calls w1 = exchange_calls w + (1 - marker w) /\
   exists e,
     kind_of w1 e = Some Exchange /\
     outcome_of w1 e = None /\
     (forall t : ApiTokenInfo,
         let w2 := handle (ExchangeResolves e t) w1 in
         tokenStorage w2 = Some t /\
         (exists k, refreshScheduler w2 = Some (delay_at t (clock w1) k)) /\
         exchange_calls w2 = exchange_calls w1) /\
     (forall reason : string,
         let w2 := handle (CollaboratorRejects e reason) w1 in
         refreshScheduler w2 = None /\
         tokenStorage w2 = tokenStorage w /\
         calls w2 = calls w1)).
Proof.
  intros w.
  pose proof (reachable_invariant params clk evs) as Hi.
  pose proof (reachable_flight params clk evs) as Hf.
  assert (Hq : microtasks w = []) by (apply run_quiescent; reflexivity).
  fold w in Hi, Hf. split; [apply timer_fires_unarmed; exact Hq|].
  intros Harmed. destruct (refreshScheduler w) as [d|] eqn:Hd; [clear Harmed|congruence].
  cbv zeta. rewrite (timer_fires_refreshes d w Hd).
  apply disarm_invariant in Hi. apply disarm_flight in Hf.
  set (w' := with_refreshScheduler None w) in *.
  assert (Hq' : microtasks w' = []) by (subst w'; destruct w; exact Hq).
  assert (Hs' : tokenStorage w' = tokenStorage w) by (subst w'; destruct w; reflexivity).
  assert (Hc' : exchange_calls w' = exchange_calls w) by (subst w'; destruct w; reflexivity).
  assert (Hm' : marker w' = marker w) by (subst w'; destruct w; reflexivity).
  assert (Ht' : refreshScheduler w' = None) by (subst w'; destruct w; reflexivity).
  pose proof (refreshToken_waits w' Hi Hf Hq') as H.
  pose proof (call_invariant TokenResult refreshToken refreshToken_invariant w' [] Hi) as Hi1.
  pose proof (refreshToken_keeps_store_and_timer w' Hi Hf Hq') as [Hkt Hks].
  destruct (call refreshToken w') as [r w1]. cbn [snd] in *.
  destruct H as (e & wp & x & Hw & _ & _ & Hex). destruct Hi1 as [Hi1 _].
  cbn [run foldl] in Hi1.
  split; [congruence|]. split; [lia|].
  exists e. split; [exact (waits_kind _ _ _ _ Hw)|].
  split; [exact (waits_pending _ _ _ _ Hw)|]. split.
  - intros t. cbv zeta.
    destruct (waits_resolves t w1 e wp _ Hi1 Hw) as [_ Hdel].
    { repeat (apply Forall_cons; split; [reflexivity|]). apply List.Forall_nil. }
    { reflexivity. }
    apply delivering_done in Hdel as (Hs & _ & Hc & Hk).
    split; [exact Hs|]. split; [exact Hk|exact Hc].
  - intros reason. cbv zeta.
    destruct (waits_rejects reason w1 e wp _ Hw) as [_ Hrej].
    apply rejecting_done in Hrej as (Hc & Hs & Ht & _).
    split; [congruence|]. split; [congruence|exact Hc].
Qed.

Lemma timer_refresh_cycle_witness :
  let w := run [CallConnect; ExchangeResolves 5 (tok1 (seconds 5000000))]
               (constructor params_abc123 clock0) in
  refreshScheduler w <> None /\ refreshScheduler (handle TimerFires w) = None.
Proof.
  cbv zeta.
  assert (H0 : refreshScheduler (run [CallConnect; ExchangeResolves 5 (tok1 (seconds 5000000))]
                                   (constructor params_abc123 clock0)) <> None)
    by (vm_compute; discriminate).
  split; [exact H0|].
  destruct (timer_refresh_cycle params_abc123 clock0
              [CallConnect; ExchangeResolves 5 (tok1 (seconds 5000000))]) as [_ H].
  destruct (H H0) as [H1 _]. exact H1.
Defined.

(** ** Where tokens come from *)

Section Sourced.

Variable Src : ApiTokenInfo -> Prop.

Lemma yields_ret {A : Type} (Q : A -> Prop) (a : A) : Q a -> yields Src Q (mret a).
Proof. intros Ha w Hw. split; [exact Ha|exact Hw]. Qed.

Lemma yields_bind {A B : Type} (P : A -> Prop) (Q : B -> Prop) (m : M A) (k : A -> M B) :
  yields Src P m -> (forall a, P a -> yields Src Q (k a)) -> yields Src Q (mbind k m).
Proof.
  intros Hm Hk w Hw. unfold mbind, M_bind. destruct (Hm w Hw) as [Ha Hw'].
  destruct (m w) as [a w']. exact (Hk a Ha w' Hw').
Qed.

Lemma yields_settle p o : carries Src o -> yields Src (fun _ => True) (settle p o).
Proof.
  intros Ho w (Hs & Hq & Hp). split; [exact I|]. rewrite settle_unfold.
  destruct (promises w !! p) as [[k [rs|o']]|] eqn:E; cbn [snd];
    [|split; [exact Hs|split; assumption]..].
  destruct w as [w_tp w_fc w_key w_db w_st w_sched w_cs w_ps w_q w_clk w_rd].
  cbn in *. split; [exact Hs|]. split.
  - apply Forall_app. split; [exact Hq|].
    apply Forall_fmap, Forall_forall. intros r _. exact Ho.
  - apply Forall_insert; [exact Hp|exact Ho].
Qed.

Lemma yields_on_settled p r : yields Src (fun _ => True) (on_settled p r).
Proof.
  intros w (Hs & Hq & Hp). split; [exact I|]. rewrite on_settled_unfold.
  destruct (promises w !! p) as [[k [rs|o']]|] eqn:E; cbn [snd];
    [| |split; [exact Hs|split; assumption]].
  - destruct w as [w_tp w_fc w_key w_db w_st w_sched w_cs w_ps w_q w_clk w_rd].
    cbn in *. split; [exact Hs|]. split; [exact Hq|].
    apply Forall_insert; [exact Hp|exact I].
  - pose proof (Forall_lookup_1 _ _ _ _ Hp E) as Ho.
    destruct w as [w_tp w_fc w_key w_db w_st w_sched w_cs w_ps w_q w_clk w_rd].
    cbn in *. split; [exact Hs|]. split; [|exact Hp].
    apply Forall_app. split; [exact Hq|]. apply Forall_singleton. exact Ho.
Qed.

Lemma yields_new_promise k : yields Src (fun _ => True) (new_promise k).
Proof.
  intros [w_tp w_fc w_key w_db w_st w_sched w_cs w_ps w_q w_clk w_rd] (Hs & Hq & Hp).
  split; [exact I|]. cbn in *. split; [exact Hs|]. split; [exact Hq|].
  apply Forall_app. split; [exact Hp|]. apply Forall_singleton. exact I.
Qed.

Lemma yields_settled_promise k o :
  carries Src o -> yields Src (fun _ => True) (settled_promise k o).
Proof.
  intros Ho [w_tp w_fc w_key w_db w_st w_sched w_cs w_ps w_q w_clk w_rd] (Hs & Hq & Hp).
  split; [exact I|]. cbn in *. split; [exact Hs|]. split; [exact Hq|].
  apply Forall_app. split; [exact Hp|]. apply Forall_singleton. exact Ho.
Qed.

Lemma yields_tokenStorage_get :
  yields Src (fun v => carries Src (Fulfilled v)) tokenStorage_get.
Proof. intros w Hw. split; [exact (proj1 Hw)|exact Hw]. Qed.

Lemma yields_tokenStorage_set v :
  carries Src (Fulfilled v) -> yields Src (fun _ => True) (tokenStorage_set v).
Proof.
  intros Hv [w_tp w_fc w_key w_db w_st w_sched w_cs w_ps w_q w_clk w_rd] (Hs & Hq & Hp).
  split; [exact I|]. cbn in *. split; [exact Hv|]. split; assumption.
Qed.

(** Steps that touch neither the store, nor the promises, nor the queue. *)
Ltac yields_prim :=
  intros [w_tp w_fc w_key w_db w_st w_sched w_cs w_ps w_q w_clk w_rd] Hw;
  split; [exact I|exact Hw].

Ltac yields_solve :=
  repeat first
    [ assumption
    | exact I
    | apply yields_tokenStorage_get
    | match goal with
      | |- @yields _ ?A ?Q _ => is_evar Q; unify Q (fun _ : A => True)
      end
    | apply yields_on_settled
    | apply yields_new_promise
    | apply yields_settle
    | apply yields_settled_promise
    | apply yields_tokenStorage_set
    | apply yields_ret
    | eapply yields_bind
    | progress intros
    | match goal with
      | |- yields _ _ (match ?x with _ => _ end) => destruct x
      end
    | solve [yields_prim] ].

Lemma yields_fetchToken : yields Src (fun _ => True) fetchToken.
Proof. unfold fetchToken, client_getNewApiToken, log. yields_solve. Qed.

Lemma yields_refreshToken : yields Src (fun _ => True) refreshToken.
Proof. pose proof yields_fetchToken. unfold refreshToken. yields_solve. Qed.

Lemma yields_getRefreshDelay t : yields Src (fun _ => True) (getRefreshDelay t).
Proof. unfold getRefreshDelay. yields_solve. Qed.

Lemma yields_scheduleNextRefresh d : yields Src (fun _ => True) (scheduleNextRefresh d).
Proof. unfold scheduleNextRefresh, log. yields_solve. Qed.

Lemma yields_getToken : yields Src (fun _ => True) getToken.
Proof.
  pose proof yields_refreshToken. pose proof yields_getRefreshDelay.
  pose proof yields_scheduleNextRefresh.
  unfold getToken, isExpiring, getRefreshDelay_asserted. yields_solve.
Qed.

Lemma yields_collaborator_settles p o :
  carries Src o -> yields Src (fun _ => True) (collaborator_settles p o).
Proof.
  intros Ho w Hw. unfold collaborator_settles.
  destruct (kind_of w p) as [[]|], o as [[t|]|e];
    first [exact (yields_settle _ _ Ho w Hw) | split; [exact I|exact Hw]].
Qed.

Lemma yields_dispatch ev :
  (forall p t, ev = ExchangeResolves p t -> Src t) ->
  yields Src (fun _ => True) (dispatch ev).
Proof.
  intros Hev. pose proof yields_refreshToken. pose proof yields_getToken.
  destruct ev;
    unfold dispatch, connect, reconnect, disconnect, timer_fires,
           client_reconnect, client_disconnect, log;
    first [ apply yields_collaborator_settles; first [exact I | eapply Hev; reflexivity]
          | yields_solve ].
Qed.

Lemma yields_run_job r o : carries Src o -> yields Src (fun _ => True) (run_job r o).
Proof.
  intros Ho. pose proof yields_getRefreshDelay. pose proof yields_scheduleNextRefresh.
  destruct r, o as [[t|]|e];
    unfold run_job, client_connect, log; yields_solve.
Qed.

Lemma handle_sourced ev w :
  (forall p t, ev = ExchangeResolves p t -> Src t) ->
  sourced Src w -> sourced Src (handle ev w).
Proof.
  intros Hev Hw. unfold handle, call.
  destruct (yields_dispatch ev Hev w Hw) as [_ Hd].
  destruct (dispatch ev w) as [u w']. cbn [snd] in *.
  apply (run_microtasks_ind (sourced Src)); [|exact Hd].
  intros r o rest w0 (Hs & Hq & Hp) E. rewrite E in Hq.
  apply Forall_cons in Hq as [Ho Hq].
  apply (yields_run_job r o Ho).
  destruct w0 as [w_tp w_fc w_key w_db w_st w_sched w_cs w_ps w_q w_clk w_rd].
  split; [exact Hs|]. split; [exact Hq|exact Hp].
Qed.

Lemma run_sourced evs w :
  (forall p t, In (ExchangeResolves p t) evs -> Src t) ->
  sourced Src w -> sourced Src (run evs w).
Proof.
  induction evs as [|ev evs IH] using rev_ind; intros Hev Hw; [exact Hw|].
  rewrite run_snoc. apply handle_sourced.
  - intros p t ->. apply (Hev p t), in_or_app. right. left. reflexivity.
  - apply IH; [|exact Hw]. intros p t Hin. apply (Hev p t), in_or_app. left. exact Hin.
Qed.

End Sourced.

(** X16.  The connector makes up no token.  After any events, a token that
    is in the store, or that one of the connector's promises (such as the one
    [getToken()] returned) was fulfilled with, is the token of the store the
    connector was built with or a token that an exchange resolved with. *)
Theorem tokens_come_from_the_exchange
    (params : EoswsConnectorParams) (clk : nat -> Z) (evs : list Event) (t : ApiTokenInfo) :
  let w := run evs (constructor params clk) in
  tokenStorage w = Some t \/ (exists p, outcome_of w p = Some (Fulfilled (Some t))) ->
  params_tokenStorage params = Some (Some t) \/ exists p, In (ExchangeResolves p t) evs.
Proof.
  intros w H.
  set (Src := fun t0 => params_tokenStorage params = Some (Some t0) \/
                      exists p, In (ExchangeResolves p t0) evs).
  assert (Hw : sourced Src w).
  { apply run_sourced.
    - intros p t0 Hin. right. exists p. exact Hin.
    - split; [|split; apply List.Forall_nil].
      cbn. destruct (params_tokenStorage params) as [[t0|]|]; cbn; try exact I.
      left. reflexivity. }
  destruct Hw as (Hs & _ & Hp). destruct H as [H|[p H]].
  - rewrite H in Hs. exact Hs.
  - unfold outcome_of, outcome_at in H.
    destruct (promises w !! p) as [[k [rs|o]]|] eqn:E; try discriminate H.
    injection H as ->. exact (Forall_lookup_1 _ _ _ _ Hp E).
Qed.

Lemma tokens_come_from_the_exchange_witness :
  let evs := [CallConnect; ExchangeResolves 5 (tok1 (seconds 5000000))] in
  let w := run evs (constructor params_abc123 clock0) in
  tokenStorage w = Some (tok1 (seconds 5000000)) /\
  (params_tokenStorage params_abc123 = Some (Some (tok1 (seconds 5000000))) \/
   exists p, In (ExchangeResolves p (tok1 (seconds 5000000))) evs).
Proof.
  cbv zeta.
  assert (H0 : tokenStorage (run [CallConnect; ExchangeResolves 5 (tok1 (seconds 5000000))]
                               (constructor params_abc123 clock0))
               = Some (tok1 (seconds 5000000))) by (vm_compute; reflexivity).
  split; [exact H0|].
  exact (tokens_come_from_the_exchange params_abc123 clock0 _ _ (or_introl H0)).
Defined.

(** ** The store changes only when an exchange resolves *)

Lemma run_job_store_after (A : option ApiTokenInfo -> Prop) r o rest w :
  invariant w -> microtasks w = (r, o) :: rest ->
  jobs_carry A w -> A (tokenStorage w) ->
  jobs_carry A (snd (run_job r o (with_microtasks rest w))) /\
  A (tokenStorage (snd (run_job r o (with_microtasks rest w)))).
Proof.
  intros (((_ & Hq) & _) & _) E. unfold jobs_carry. rewrite E in *.
  apply Forall_cons in Hq as [[Ho _] _]. cbn [fst snd] in Ho. clear E. revert Ho.
  destruct w as [w_tp w_fc w_key w_db w_st w_sched w_cs w_ps w_q w_clk w_rd].
  fields. rewrite <- (app_nil_r w_ps). intros Ho Hj Hs.
  apply Forall_cons in Hj as [Hc Hj]. cbn [snd] in Hc.
  destruct r, o as [[t|]|[m|reason]];
    cbn [source_token outcome_matches token_outcome void_outcome] in Ho;
    try discriminate Ho; cbn [carries] in Hc; exec.
  all: repeat match goal with
       | |- context [match ?ps !! ?p with _ => _ end] =>
           destruct (ps !! p) as [[? [?|?]]|]
       end; record_fields.
  all: split; [|try first [assumption | exact Hc]].
  all: repeat (apply Forall_app; split); try assumption.
  all: try (apply Forall_fmap, Forall_forall; intros ? _; cbn; first [exact Hc | exact I]).
Qed.

Lemma collaborator_settles_jobs (A : option ApiTokenInfo -> Prop) p o w :
  carries (fun t => A (Some t)) o -> jobs_carry A w ->
  jobs_carry A (snd (collaborator_settles p o w)).
Proof.
  intros Ho Hj. unfold collaborator_settles, jobs_carry in *.
  assert (Hs : Forall (fun j => carries (fun t => A (Some t)) (snd j))
                 (microtasks (snd (settle p o w)))).
  { rewrite settle_unfold. destruct (promises w !! p) as [[k [rs|o']]|]; try exact Hj.
    fields. apply Forall_app. split; [exact Hj|].
    apply Forall_fmap, Forall_forall. intros r _. exact Ho. }
  destruct (kind_of w p) as [[]|], o as [[t|]|e]; first [exact Hs | exact Hj].
Qed.

Lemma dispatch_store_after ev w :
  invariant w -> flight w -> microtasks w = [] ->
  jobs_carry (store_after w ev) (snd (dispatch ev w)).
Proof.
  intros Hi Hf Hq.
  assert (Hnil : jobs_carry (store_after w ev) w)
    by (unfold jobs_carry; rewrite Hq; apply List.Forall_nil).
  destruct ev;
    try (apply collaborator_settles_jobs; [|exact Hnil]; cbn;
         first [exact I | right; eauto]).
  all: clear Hnil.
  all: assert (Hwp : forall wp, tokenPromise w = Some wp ->
                  exists rs, promises w !! wp = Some (mkPromise TokenResult (Pending rs)))
         by (intros wp H; destruct (quiescent_fetching w wp Hi Hf Hq H) as (_ & rs & _ & Hrs & _);
             eauto).
  all: clear Hi Hf; revert Hq Hwp; unfold jobs_carry, store_after.
  all: destruct w as [w_tp w_fc w_key w_db w_st w_sched w_cs w_ps w_q w_clk w_rd].
  all: fields; intros -> Hwp; rewrite <- (app_nil_r w_ps).
  all: destruct w_tp as [wp|]; [destruct (Hwp wp eq_refl) as (rs & Hrs)|].
  all: repeat (exec; split_state).
  all: first [ apply List.Forall_nil
             | apply Forall_singleton; cbn; left; reflexivity ].
Qed.

Lemma handle_store_after ev w :
  invariant w -> flight w -> microtasks w = [] ->
  store_after w ev (tokenStorage (handle ev w)).
Proof.
  intros Hi Hf Hq. unfold handle, call.
  destruct (dispatch_invariant ev w Hi) as [Hd _].
  destruct (dispatch_store ev w) as [Hs _].
  pose proof (dispatch_store_after ev w Hi Hf Hq) as Hj.
  destruct (dispatch ev w) as [u w']. cbn [snd] in *.
  apply (run_microtasks_ind
           (fun w0 => invariant w0 /\ jobs_carry (store_after w ev) w0 /\
                      store_after w ev (tokenStorage w0))).
  - intros r o rest w0 (Hi0 & Hj0 & Hs0) E.
    split; [exact (proj1 (run_job_invariant _ _ _ _ Hi0 E))|].
    exact (run_job_store_after _ r o rest w0 Hi0 E Hj0 Hs0).
  - split; [exact Hd|]. split; [exact Hj|]. left. exact Hs.
Qed.

(** ** A client that resolves with nothing *)

Lemma nullable_prefix lab lab' x : lab `prefix_of` lab' -> nullable lab x -> nullable lab' x.
Proof. intros Hp Hx. exact (prefix_lookup_Some _ _ _ _ Hx Hp). Qed.

Lemma accepts_prefix lab lab' b r :
  lab `prefix_of` lab' -> accepts lab b r -> accepts lab' b r.
Proof.
  intros Hp. destruct r; cbn; intros H; try exact H.
  all: try (intros Hb; apply (nullable_prefix _ _ _ Hp), H, Hb).
  all: try (apply (nullable_prefix _ _ _ Hp), H).
  destruct H as [H1 H2]. split; [exact H1|apply (nullable_prefix _ _ _ Hp), H2].
Qed.

(** A reaction parked on a promise that may hold [undefined] copes with
    any outcome. *)
Lemma accepts_weaken lab b b' r :
  (b' = true -> b = true) -> accepts lab b r -> accepts lab b' r.
Proof.
  intros Hb. destruct r; cbn; intros H; try exact H.
  all: try (intros Hb'; apply H, Hb, Hb').
  - destruct b'; [|reflexivity]. rewrite Hb in H by reflexivity. discriminate H.
  - destruct H as [H1 H2]. split; [|exact H2].
    destruct b'; [|reflexivity]. rewrite Hb in H1 by reflexivity. discriminate H1.
Qed.

Lemma cell_labelled_prefix lab lab' b c :
  lab `prefix_of` lab' -> cell_labelled lab b c -> cell_labelled lab' b c.
Proof.
  intros Hp [Hk Hs]. split; [exact Hk|].
  destruct (state c) as [rs|o]; [|exact Hs].
  eapply Forall_impl; [exact Hs|]. intros r. apply accepts_prefix, Hp.
Qed.

Lemma labelled_prefix_cells lab lab' ps :
  lab `prefix_of` lab' ->
  Forall2 (cell_labelled lab) lab ps -> Forall2 (cell_labelled lab') lab ps.
Proof.
  intros Hp H. eapply Forall2_impl; [exact H|].
  intros b c. apply cell_labelled_prefix, Hp.
Qed.

Lemma knows_prefix F lab lab' : lab `prefix_of` lab' -> knows F lab -> knows F lab'.
Proof.
  intros Hp H. eapply Forall_impl; [exact H|].
  intros [x b] Hx. exact (prefix_lookup_Some _ _ _ _ Hx Hp).
Qed.

Lemma labelled_alloc lab w k s b :
  labelled lab w ->
  cell_labelled (lab ++ [b]) b (mkPromise k s) ->
  labelled (lab ++ [b]) (with_promises (promises w ++ [mkPromise k s]) w) /\
  (lab ++ [b]) !! length (promises w) = Some b.
Proof.
  intros [Hc Hq] Hn.
  assert (Hp : lab `prefix_of` lab ++ [b]) by (exists [b]; reflexivity).
  split; [split|].
  - destruct w; cbn in *. apply Forall2_app.
    + apply (labelled_prefix_cells _ _ _ Hp), Hc.
    + constructor; [exact Hn|constructor].
  - destruct w; cbn in *. eapply Forall_impl; [exact Hq|].
    intros [r o]. apply accepts_prefix, Hp.
  - rewrite <- (Forall2_length _ _ _ Hc). apply list_lookup_middle. reflexivity.
Qed.

Lemma Forall2_update {A B : Type} (P : A -> B -> Prop) (l : list A) (k : list B) i x y :
  Forall2 P l k -> l !! i = Some x -> P x y -> Forall2 P l (<[i := y]> k).
Proof.
  intros H Hx Hy. rewrite <- (list_insert_id l i x Hx). apply Forall2_insert; assumption.
Qed.

Lemma labelled_settle lab p o w :
  labelled lab w -> (is_undefined o = true -> nullable lab p) ->
  labelled lab (snd (settle p o w)).
Proof.
  intros [Hc Hq] Ho. rewrite settle_unfold.
  destruct (promises w !! p) as [[k [rs|o']]|] eqn:E; [|split; assumption..].
  destruct (Forall2_lookup_r _ _ _ _ _ Hc E) as (b & Hb & Hk & Hrs). cbn in Hrs.
  destruct w; cbn in *. split.
  - apply (Forall2_update _ _ _ _ b); [exact Hc|exact Hb|].
    split; [exact Hk|]. cbn. intros Hu. specialize (Ho Hu). unfold nullable in Ho. congruence.
  - apply Forall_app. split; [exact Hq|].
    apply Forall_fmap, Forall_forall. intros r Hr. unfold job_labelled. cbn.
    apply (accepts_weaken lab b).
    + intros Hu. specialize (Ho Hu). unfold nullable in Ho. congruence.
    + exact (proj1 (Forall_forall _ _) Hrs r Hr).
Qed.

Lemma labelled_on_settled lab q r w :
  labelled lab w -> (forall b, lab !! q = Some b -> accepts lab b r) ->
  labelled lab (snd (on_settled q r w)).
Proof.
  intros [Hc Hq] Hr. rewrite on_settled_unfold.
  destruct (promises w !! q) as [[k [rs|o]]|] eqn:E; [| |split; assumption].
  - destruct (Forall2_lookup_r _ _ _ _ _ Hc E) as (b & Hb & Hk & Hrs). cbn in Hrs.
    destruct w; cbn in *. split; [|exact Hq].
    apply (Forall2_update _ _ _ _ b); [exact Hc|exact Hb|].
    split; [exact Hk|]. cbn. apply Forall_app. split; [exact Hrs|].
    apply Forall_singleton, Hr, Hb.
  - destruct (Forall2_lookup_r _ _ _ _ _ Hc E) as (b & Hb & Hk & Ho). cbn in Ho.
    destruct w; cbn in *. split; [exact Hc|].
    apply Forall_app. split; [exact Hq|]. apply Forall_singleton.
    unfold job_labelled. cbn. apply (accepts_weaken lab b); [exact Ho|apply Hr, Hb].
Qed.

Lemma labelled_dequeue lab r o rest w :
  labelled lab w -> microtasks w = (r, o) :: rest ->
  labelled lab (with_microtasks rest w) /\ accepts lab (is_undefined o) r.
Proof.
  intros [Hc Hq] E. rewrite E in Hq. apply Forall_cons in Hq as [Hj Hq].
  split; [|exact Hj]. destruct w; split; assumption.
Qed.

Lemma labelled_same lab w w' :
  promises w' = promises w -> microtasks w' = microtasks w ->
  labelled lab w -> labelled lab w'.
Proof. unfold labelled. intros -> ->. exact id. Qed.

Lemma keeps_bind {A B : Type} F (m : M A) Q (k : A -> M B) R :
  keeps F m Q -> (forall a, keeps (Q a) (k a) R) -> keeps F (mbind k m) R.
Proof.
  intros Hm Hk lab w Hw HF. destruct (Hm lab w Hw HF) as (lab1 & Hp1 & Hw1 & HQ).
  unfold mbind, M_bind. destruct (m w) as [a w1]. cbn [fst snd] in *.
  destruct (Hk a lab1 w1 Hw1 HQ) as (lab2 & Hp2 & Hw2 & HR).
  exists lab2. split; [etrans; eassumption|]. split; assumption.
Qed.

Lemma keeps_ret_bind {A B : Type} F (a : A) (k : A -> M B) R :
  keeps F (k a) R -> keeps F (mbind k (mret a)) R.
Proof. intros H. exact H. Qed.

Lemma keeps_weaken {A : Type} F (m : M A) Q Q' :
  keeps F m Q -> (forall a lab, knows (Q a) lab -> knows (Q' a) lab) -> keeps F m Q'.
Proof.
  intros Hm HQ lab w Hw HF. destruct (Hm lab w Hw HF) as (lab1 & Hp1 & Hw1 & H1).
  exists lab1. split; [exact Hp1|]. split; [exact Hw1|]. apply HQ, H1.
Qed.

Lemma keeps_ret {A : Type} F (a : A) Q :
  (forall lab, knows F lab -> knows (Q a) lab) -> keeps F (mret a) Q.
Proof.
  intros HQ lab w Hw HF. exists lab. split; [reflexivity|]. split; [exact Hw|].
  apply HQ, HF.
Qed.

(** Steps that leave the promises and the job queue alone. *)
Lemma keeps_same {A : Type} F (m : M A) :
  (forall w, promises (snd (m w)) = promises w /\ microtasks (snd (m w)) = microtasks w) ->
  keeps F m (fun _ => F).
Proof.
  intros Hm lab w Hw HF. exists lab. split; [reflexivity|]. split; [|exact HF].
  destruct (Hm w) as [Hp Hq]. exact (labelled_same _ _ _ Hp Hq Hw).
Qed.

Lemma keeps_new_promise F k b :
  kind (mkPromise k (Pending [])) = TokenResult \/ b = true ->
  keeps F (new_promise k) (fun a => (a, b) :: F).
Proof.
  intros Hk lab w Hw HF.
  destruct (labelled_alloc lab w k (Pending []) b Hw) as [Hw' Hb].
  { split; [exact Hk|]. apply List.Forall_nil. }
  exists (lab ++ [b]). split; [exists [b]; reflexivity|]. split; [exact Hw'|].
  apply Forall_cons. split; [exact Hb|].
  apply (knows_prefix _ lab); [exists [b]; reflexivity|exact HF].
Qed.

Lemma keeps_settled_promise F k o b :
  kind (mkPromise k (Settled o)) = TokenResult \/ b = true ->
  (is_undefined o = true -> b = true) ->
  keeps F (settled_promise k o) (fun a => (a, b) :: F).
Proof.
  intros Hk Ho lab w Hw HF.
  destruct (labelled_alloc lab w k (Settled o) b Hw) as [Hw' Hb].
  { split; [exact Hk|exact Ho]. }
  exists (lab ++ [b]). split; [exists [b]; reflexivity|]. split; [exact Hw'|].
  apply Forall_cons. split; [exact Hb|].
  apply (knows_prefix _ lab); [exists [b]; reflexivity|exact HF].
Qed.

Lemma keeps_on_settled F q r :
  (forall lab, knows F lab -> forall b, lab !! q = Some b -> accepts lab b r) ->
  keeps F (on_settled q r) (fun _ => F).
Proof.
  intros Hr lab w Hw HF. exists lab. split; [reflexivity|]. split; [|exact HF].
  apply labelled_on_settled; [exact Hw|exact (Hr lab HF)].
Qed.

Lemma keeps_settle F p o :
  (is_undefined o = true -> forall lab, knows F lab -> nullable lab p) ->
  keeps F (settle p o) (fun _ => F).
Proof.
  intros Ho lab w Hw HF. exists lab. split; [reflexivity|]. split; [|exact HF].
  apply labelled_settle; [exact Hw|]. intros Hu. exact (Ho Hu lab HF).
Qed.

(** Side conditions: what follows from the labels known. *)
Ltac knows_solve :=
  intros; unfold knows, nullable in *; cbn [fst snd accepts is_undefined] in *;
  repeat match goal with
  | H : Forall _ (_ :: _) |- _ => apply Forall_cons in H as [? H]; cbn [fst snd] in *
  end;
  repeat (apply Forall_cons; split; cbn [fst snd]);
  first [ assumption | apply List.Forall_nil | exact I | reflexivity | discriminate
        | congruence
        | split; congruence
        | intros; congruence ].

(** The label given to a promise made by [new_promise]: [b] for a promise
    that carries a token, [true] for the others. *)
Ltac keeps_prim b :=
  first
    [ assumption
    | apply (keeps_new_promise _ TokenResult b); left; reflexivity
    | apply (keeps_new_promise _ _ true); right; reflexivity
    | apply (keeps_settled_promise _ TokenResult _ b); [left; reflexivity|discriminate]
    | apply keeps_on_settled; solve [knows_solve]
    | apply keeps_settle; solve [knows_solve]
    | solve [apply keeps_same; intros []; split; reflexivity] ].

Ltac keeps_solve b :=
  repeat first
    [ apply keeps_ret; solve [knows_solve]
    | apply keeps_ret_bind
    | match goal with
      | |- keeps _ (mbind _ (match ?x with _ => _ end)) _ => destruct x
      | |- keeps _ (match ?x with _ => _ end) _ => destruct x
      end
    | eapply keeps_bind; [solve [keeps_prim b]|intros ?]
    | eapply keeps_weaken; [solve [keeps_prim b]|solve [knows_solve]] ].

Lemma keeps_fetchToken F : keeps F fetchToken (fun a => (a, true) :: F).
Proof. unfold fetchToken, client_getNewApiToken, log. keeps_solve true. Qed.

Lemma keeps_refreshToken F : keeps F refreshToken (fun a => (a, false) :: F).
Proof.
  pose proof keeps_fetchToken as Hf. unfold refreshToken.
  eapply keeps_bind; [keeps_prim false|intros result].
  eapply keeps_bind; [apply Hf|intros p]. clear Hf. keeps_solve false.
Qed.

Lemma keeps_getToken F : keeps F getToken (fun a => (a, false) :: F).
Proof.
  pose proof keeps_refreshToken as Hr.
  unfold getToken, tokenStorage_get, isExpiring, getRefreshDelay_asserted.
  eapply keeps_bind; [keeps_prim false|intros result].
  eapply keeps_bind; [keeps_prim false|intros [t|]].
  - eapply keeps_bind; [keeps_prim false|intros [|]].
    + eapply keeps_bind; [keeps_prim false|intros ?].
      eapply keeps_bind; [apply Hr|intros p]. clear Hr. keeps_solve false.
    + clear Hr. keeps_solve false.
  - apply keeps_ret_bind.
    eapply keeps_bind; [keeps_prim false|intros ?].
    eapply keeps_bind; [apply Hr|intros p]. clear Hr. keeps_solve false.
Qed.

Lemma keeps_connect F : keeps F connect (fun a => (a, true) :: F).
Proof.
  pose proof keeps_getToken as Hg. unfold connect.
  eapply keeps_bind; [keeps_prim true|intros result].
  eapply keeps_bind; [apply Hg|intros p]. clear Hg. keeps_solve true.
Qed.

Lemma keeps_reconnect F : keeps F reconnect (fun a => (a, true) :: F).
Proof. unfold reconnect, client_reconnect, log. keeps_solve true. Qed.

Lemma keeps_disconnect F : keeps F disconnect (fun a => (a, true) :: F).
Proof. unfold disconnect, client_disconnect, log. keeps_solve true. Qed.

Lemma keeps_timer_fires F : keeps F timer_fires (fun _ => F).
Proof.
  pose proof keeps_refreshToken as Hr. unfold timer_fires.
  eapply keeps_bind; [keeps_prim true|intros [d|]].
  - eapply keeps_bind; [keeps_prim true|intros ?].
    eapply keeps_bind; [apply Hr|intros p]. clear Hr. keeps_solve true.
  - clear Hr. keeps_solve true.
Qed.

(** The transport client settles its own promises, which are labelled
    [true]. *)
Lemma labelled_client_promise lab w p k :
  labelled lab w -> kind_of w p = Some k -> k <> TokenResult -> nullable lab p.
Proof.
  intros [Hc _] Hk Hne. unfold kind_of, kind_at in Hk.
  destruct (promises w !! p) as [c|] eqn:E; [|discriminate Hk].
  destruct (Forall2_lookup_r _ _ _ _ _ Hc E) as (b & Hb & [Hkc|Hkc] & _).
  - injection Hk as <-. contradiction.
  - unfold nullable. congruence.
Qed.

Lemma labelled_collaborator_settles lab p o w :
  labelled lab w -> labelled lab (snd (collaborator_settles p o w)).
Proof.
  intros Hw. unfold collaborator_settles.
  destruct (kind_of w p) as [[]|] eqn:Hk, o as [[t|]|e]; try exact Hw;
    apply labelled_settle; try exact Hw; intros Hu; try discriminate Hu.
  eapply labelled_client_promise; [exact Hw|exact Hk|discriminate].
Qed.

Lemma labelled_exchange_returns_nothing lab p w :
  labelled lab w -> labelled lab (snd (exchange_returns_nothing p w)).
Proof.
  intros Hw. unfold exchange_returns_nothing.
  destruct (kind_of w p) as [[]|] eqn:Hk; try exact Hw.
  apply labelled_settle; [exact Hw|]. intros _.
  eapply labelled_client_promise; [exact Hw|exact Hk|discriminate].
Qed.

Lemma labelled_dispatch_any lab ev w :
  labelled lab w ->
  exists lab', lab `prefix_of` lab' /\ labelled lab' (snd (dispatch_any ev w)).
Proof.
  intros Hw.
  assert (Hcall : forall (A : Type) (m : M A) Q,
            keeps [] m Q ->
            exists lab', lab `prefix_of` lab' /\ labelled lab' (snd ((_ ← m; mret tt) w))).
  { intros A m Q Hm. destruct (Hm lab w Hw (List.Forall_nil _)) as (lab' & Hp & Hw' & _).
    exists lab'. split; [exact Hp|]. unfold mbind, M_bind. destruct (m w). exact Hw'. }
  destruct ev as [[]|p]; cbn [dispatch_any dispatch].
  - exact (Hcall _ _ _ (keeps_connect [])).
  - exact (Hcall _ _ _ (keeps_reconnect [])).
  - exact (Hcall _ _ _ (keeps_disconnect [])).
  - exact (Hcall _ _ _ (keeps_getToken [])).
  - exact (Hcall _ _ _ (keeps_refreshToken [])).
  - destruct (keeps_timer_fires [] lab w Hw (List.Forall_nil _)) as (lab' & Hp & Hw' & _).
    eauto.
  - exists lab. split; [reflexivity|apply labelled_collaborator_settles, Hw].
  - exists lab. split; [reflexivity|apply labelled_collaborator_settles, Hw].
  - exists lab. split; [reflexivity|apply labelled_collaborator_settles, Hw].
  - exists lab. split; [reflexivity|apply labelled_exchange_returns_nothing, Hw].
Qed.

Lemma accepts_facts lab r o :
  accepts lab (is_undefined o) r ->
  knows (facts_of r o) lab /\ (expects_token r = true -> is_undefined o = false).
Proof.
  destruct r; cbn [accepts facts_of expects_token]; intros H.
  all: try (split; [|discriminate]).
  all: try (destruct (is_undefined o); [apply Forall_singleton, H; reflexivity
                                       |apply List.Forall_nil]).
  all: try (apply Forall_singleton; exact H).
  - apply List.Forall_nil.
  - split; [apply List.Forall_nil|]. intros _. exact H.
  - destruct H as [H1 H2]. split; [apply Forall_singleton; exact H2|]. intros _. exact H1.
Qed.

Lemma keeps_run_job r o :
  (expects_token r = true -> is_undefined o = false) ->
  keeps (facts_of r o) (run_job r o) (fun _ => []).
Proof.
  intros Hs.
  destruct r, o as [[t|]|e]; cbn [expects_token is_undefined] in Hs;
    try (specialize (Hs eq_refl); discriminate Hs); clear Hs;
    cbn [facts_of is_undefined];
    unfold run_job, tokenStorage_set, getRefreshDelay, scheduleNextRefresh,
           client_connect, log;
    keeps_solve true.
Qed.

Lemma labelled_run_job lab r o rest w :
  labelled lab w -> microtasks w = (r, o) :: rest ->
  exists lab', lab `prefix_of` lab' /\
               labelled lab' (snd (run_job r o (with_microtasks rest w))).
Proof.
  intros Hw E. destruct (labelled_dequeue lab r o rest w Hw E) as [Hw' Hr].
  apply accepts_facts in Hr as [HF Hs].
  destruct (keeps_run_job r o Hs lab _ Hw' HF) as (lab' & Hp & Hl & _). eauto.
Qed.

Lemma labelled_drain lab n w :
  labelled lab w -> exists lab', lab `prefix_of` lab' /\ labelled lab' (drain n w).
Proof.
  intros Hw.
  apply (drain_ind (fun w0 => exists lab', lab `prefix_of` lab' /\ labelled lab' w0)).
  - intros r o rest w0 (lab1 & Hp1 & Hw1) E.
    destruct (labelled_run_job lab1 r o rest w0 Hw1 E) as (lab2 & Hp2 & Hw2).
    exists lab2. split; [etrans; eassumption|exact Hw2].
  - exists lab. split; [reflexivity|exact Hw].
Qed.

Lemma labelled_call {A : Type} F (m : M A) Q lab w :
  keeps F m Q -> labelled lab w -> knows F lab ->
  exists lab', lab `prefix_of` lab' /\ labelled lab' (snd (call m w)) /\
               knows (Q (fst (call m w))) lab'.
Proof.
  intros Hm Hw HF. destruct (Hm lab w Hw HF) as (lab1 & Hp1 & Hw1 & HQ).
  unfold call. destruct (m w) as [a w1]. cbn [fst snd] in *.
  destruct (labelled_drain lab1 (pending_work w1) w1 Hw1) as (lab2 & Hp2 & Hw2).
  exists lab2. split; [etrans; eassumption|]. split; [exact Hw2|].
  exact (knows_prefix _ _ _ Hp2 HQ).
Qed.

Lemma labelled_handle_any lab ev w :
  labelled lab w -> exists lab', lab `prefix_of` lab' /\ labelled lab' (handle_any ev w).
Proof.
  intros Hw. unfold handle_any, call.
  destruct (labelled_dispatch_any lab ev w Hw) as (lab1 & Hp1 & Hw1).
  destruct (dispatch_any ev w) as [u w1]. cbn [snd] in *.
  destruct (labelled_drain lab1 (pending_work w1) w1 Hw1) as (lab2 & Hp2 & Hw2).
  exists lab2. split; [etrans; eassumption|exact Hw2].
Qed.

Lemma labelled_run_any lab evs w :
  labelled lab w -> exists lab', lab `prefix_of` lab' /\ labelled lab' (run_any evs w).
Proof.
  revert lab w. induction evs as [|ev evs IH]; intros lab w Hw.
  - exists lab. split; [reflexivity|exact Hw].
  - destruct (labelled_handle_any lab ev w Hw) as (lab1 & Hp1 & Hw1).
    destruct (IH lab1 _ Hw1) as (lab2 & Hp2 & Hw2).
    exists lab2. split; [etrans; eassumption|exact Hw2].
Qed.

Lemma labelled_constructor params clk : labelled [] (constructor params clk).
Proof. split; [apply Forall2_nil_2|apply List.Forall_nil]. Qed.

(** A promise labelled [false] is never fulfilled with [undefined]. *)
Lemma labelled_outcome lab w p o :
  labelled lab w -> lab !! p = Some false -> outcome_of w p = Some o ->
  (exists t, o = Fulfilled (Some t)) \/ (exists e, o = Rejected e).
Proof.
  intros [Hc _] Hb Ho. unfold outcome_of, outcome_at in Ho.
  destruct (promises w !! p) as [[k [rs|o']]|] eqn:E; try discriminate Ho.
  injection Ho as ->.
  destruct (Forall2_lookup_r _ _ _ _ _ Hc E) as (b & Hb' & _ & Hu). cbn in Hu.
  destruct o as [[t|]|e]; eauto.
  specialize (Hu eq_refl). congruence.
Qed.

(** What a call returns, whatever happens later, when the promise it
    returns is labelled [false]. *)
Lemma strict_call_outcome (m : M pid) (w : World) (evs : list ClientEvent) lab :
  (forall F, keeps F m (fun a => (a, false) :: F)) ->
  labelled lab w ->
  forall o, outcome_of (run_any evs (snd (call m w))) (fst (call m w)) = Some o ->
    (exists t, o = Fulfilled (Some t)) \/ (exists e, o = Rejected e).
Proof.
  intros Hm Hw o Ho.
  destruct (labelled_call [] m _ lab w (Hm []) Hw (List.Forall_nil _)) as (lab1 & _ & Hw1 & Hk).
  apply Forall_cons in Hk as [Hk _]. cbn [fst snd] in Hk.
  destruct (labelled_run_any lab1 evs _ Hw1) as (lab2 & Hp2 & Hw2).
  exact (labelled_outcome lab2 _ _ o Hw2 (prefix_lookup_Some _ _ _ _ Hk Hp2) Ho).
Qed.

(** *** When the exchange resolves with nothing *)

Lemma handle_any_nothing e w :
  handle_any (ExchangeReturnsNothing e) w
  = run_microtasks (snd (exchange_returns_nothing e w)).
Proof.
  unfold handle_any, call, dispatch_any.
  destruct (exchange_returns_nothing e w) as [u w']. reflexivity.
Qed.

(** With nothing queued and no fetch in flight: when the exchange resolves
    with nothing, [fetchToken] resolves with [undefined], [refreshToken]
    takes its throw and is rejected with [Error("error getting token")],
    with the store and the timer as they were and the marker cleared; a
    [getToken()] or a [connect()] that waited for it is rejected with the
    same error, the latter without a call to the transport client's
    [connect]. *)
Lemma exchange_returns_nothing_throws (w : World) :
  microtasks w = [] ->
  tokenPromise w = None ->
  (let '(r, w1) := call fetchToken w in
   let w2 := handle_any (ExchangeReturnsNothing (r + 2)) w1 in
   outcome_of w2 r = Some (Fulfilled None)) /\
  (let '(r, w1) := call refreshToken w in
   let w2 := handle_any (ExchangeReturnsNothing (r + 3)) w1 in
   outcome_of w2 r = Some (Rejected error_getting_token) /\
   tokenStorage w2 = tokenStorage w /\
   refreshScheduler w2 = refreshScheduler w /\
   calls w2 = calls w1 /\
   tokenPromise w2 = None) /\
  (fst (isExpiring (tokenStorage w) w) = true ->
   (let '(g, w1) := call getToken w in
    let w2 := handle_any (ExchangeReturnsNothing (g + 4)) w1 in
    outcome_of w2 g = Some (Rejected error_getting_token) /\
    tokenStorage w2 = tokenStorage w) /\
   (let '(c, w1) := call connect w in
    let w2 := handle_any (ExchangeReturnsNothing (c + 5)) w1 in
    outcome_of w2 c = Some (Rejected error_getting_token) /\
    client_connects w2 = client_connects w /\
    tokenStorage w2 = tokenStorage w)).
Proof.
  revert w. intros w. open_world w.
  split; [|split].
  - exec. cbv zeta. rewrite handle_any_nothing. unfold exchange_returns_nothing.
    exec. reflexivity.
  - exec. cbv zeta. rewrite handle_any_nothing. unfold exchange_returns_nothing.
    exec. repeat split; reflexivity.
  - intros Hexp. destruct w_st as [t0|]; expose_expiring Hexp; split;
      exec; cbv zeta; rewrite handle_any_nothing; unfold exchange_returns_nothing;
      exec; count_calls; repeat split; first [reflexivity | lia].
Qed.

(** *** No undefined token out of getToken *)

Lemma reachable_labelled params clk evs :
  exists lab, labelled lab (run_any evs (constructor params clk)).
Proof.
  destruct (labelled_run_any [] evs _ (labelled_constructor params clk)) as (lab & _ & H).
  eauto.
Qed.

(** C10.  On a connector that went through any events since it was built,
    whatever the transport client resolves its promises with:

    - no continuation of [getToken] or [connect] ever resumes with
      [undefined], so the throw of [connect] is never taken and [getToken]
      neither stores nor returns [undefined]; the promises returned by
      [getToken] and [refreshToken] are settled, if at all, with a token or
      with an error;
    - when the exchange resolves with nothing, [fetchToken] resolves with
      [undefined] and [refreshToken] takes its throw: it is rejected with
      [Error("error getting token")], and so is a [getToken()] or a
      [connect()] waiting for it, which does not call the transport client;
    - as long as every exchange resolves with a token or is rejected,
      neither throw is taken: the promises returned by [getToken],
      [fetchToken] and [refreshToken] are settled with a token or with the
      reason a collaborator rejected with, and the promise returned by
      [connect] with [undefined] or with such a reason. *)
Theorem token_never_undefined (params : EoswsConnectorParams) (clk : nat -> Z) :
  (forall evs evs' : list ClientEvent,
      let w := run_any evs (constructor params clk) in
      (forall ev n r o,
          In (r, o) (microtasks (drain n (snd (dispatch_any ev w)))) ->
          expects_token r = true ->
          (exists t, o = Fulfilled (Some t)) \/ (exists e, o = Rejected e)) /\
      (let '(r, w1) := call getToken w in
       forall o, outcome_of (run_any evs' w1) r = Some o ->
         (exists t, o = Fulfilled (Some t)) \/ (exists e, o = Rejected e)) /\
      (let '(r, w1) := call refreshToken w in
       forall o, outcome_of (run_any evs' w1) r = Some o ->
         (exists t, o = Fulfilled (Some t)) \/ (exists e, o = Rejected e))) /\
  (forall w : World,
      microtasks w = [] ->
      tokenPromise w = None ->
      (let '(r, w1) := call fetchToken w in
       let w2 := handle_any (ExchangeReturnsNothing (r + 2)) w1 in
       outcome_of w2 r = Some (Fulfilled None)) /\
      (let '(r, w1) := call refreshToken w in
       let w2 := handle_any (ExchangeReturnsNothing (r + 3)) w1 in
       outcome_of w2 r = Some (Rejected error_getting_token) /\
       tokenStorage w2 = tokenStorage w /\
       refreshScheduler w2 = refreshScheduler w /\
       calls w2 = calls w1 /\
       tokenPromise w2 = None) /\
      (fst (isExpiring (tokenStorage w) w) = true ->
       (let '(g, w1) := call getToken w in
        let w2 := handle_any (ExchangeReturnsNothing (g + 4)) w1 in
        outcome_of w2 g = Some (Rejected error_getting_token) /\
        tokenStorage w2 = tokenStorage w) /\
       (let '(c, w1) := call connect w in
        let w2 := handle_any (ExchangeReturnsNothing (c + 5)) w1 in
        outcome_of w2 c = Some (Rejected error_getting_token) /\
        client_connects w2 = client_connects w /\
        tokenStorage w2 = tokenStorage w))) /\
  (forall evs evs' : list Event,
      let w := run evs (constructor params clk) in
      (forall ev n r o,
          In (r, o) (microtasks (drain n (snd (dispatch ev w)))) ->
          source_token r = true ->
          (exists t, o = Fulfilled (Some t)) \/ (exists reason, o = Rejected (Reason reason))) /\
      (let '(r, w1) := call getToken w in
       forall o, outcome_of (run evs' w1) r = Some o ->
         (exists t, o = Fulfilled (Some t)) \/ (exists reason, o = Rejected (Reason reason))) /\
      (let '(r, w1) := call fetchToken w in
       forall o, outcome_of (run evs' w1) r = Some o ->
         (exists t, o = Fulfilled (Some t)) \/ (exists reason, o = Rejected (Reason reason))) /\
      (let '(r, w1) := call refreshToken w in
       forall o, outcome_of (run evs' w1) r = Some o ->
         (exists t, o = Fulfilled (Some t)) \/ (exists reason, o = Rejected (Reason reason))) /\
      (let '(r, w1) := call connect w in
       forall o, outcome_of (run evs' w1) r = Some o ->
         o = Fulfilled None \/ (exists reason, o = Rejected (Reason reason)))).
Proof.
  split; [|split].
  - intros evs evs' w.
    destruct (reachable_labelled params clk evs) as (lab & Hw). fold w in Hw.
    split; [|split].
    + intros ev n r o Hin Hr.
      destruct (labelled_dispatch_any lab ev w Hw) as (lab1 & _ & Hw1).
      destruct (labelled_drain lab1 n _ Hw1) as (lab2 & _ & [_ Hq]).
      apply list_elem_of_In in Hin.
      pose proof (proj1 (Forall_forall _ _) Hq _ Hin) as Hj.
      apply accepts_facts in Hj as [_ Hu]. specialize (Hu Hr). cbn [snd] in Hu.
      destruct o as [[t|]|e]; [eauto|discriminate Hu|eauto].
    + pose proof (strict_call_outcome getToken w evs' lab keeps_getToken Hw) as H.
      destruct (call getToken w) as [r w1]. exact H.
    + pose proof (strict_call_outcome refreshToken w evs' lab keeps_refreshToken Hw) as H.
      destruct (call refreshToken w) as [r w1]. exact H.
  - exact exchange_returns_nothing_throws.
  - intros evs evs'. exact (typed_client_no_throw params clk evs evs').
Qed.

Lemma token_never_undefined_witness :
  let r := fst (call getToken W0) in
  let w1 := snd (call getToken W0) in
  outcome_of (run_any [Typed (ExchangeResolves 4 (tok1 (seconds 5000000)))] w1) r
  = Some (Fulfilled (Some (tok1 (seconds 5000000)))) /\
  ((exists t, Fulfilled (Some (tok1 (seconds 5000000))) = Fulfilled (Some t)) \/
   (exists e, Fulfilled (Some (tok1 (seconds 5000000))) = Rejected e)).
Proof.
  intros r w1.
  assert (H0 : outcome_of (run_any [Typed (ExchangeResolves 4 (tok1 (seconds 5000000)))] w1) r
               = Some (Fulfilled (Some (tok1 (seconds 5000000)))))
    by (vm_compute; reflexivity).
  split; [exact H0|].
  destruct (token_never_undefined params_abc123 clock0) as [H _].
  destruct (H [] [Typed (ExchangeResolves 4 (tok1 (seconds 5000000)))]) as (_ & Hg & _).
  change (run_any [] (constructor params_abc123 clock0)) with W0 in Hg.
  revert Hg. unfold r, w1 in *. revert H0.
  generalize (call getToken W0). intros [r' w'] H0 Hg. exact (Hg _ H0).
Defined.

(** On a new connector, an exchange that resolves with nothing:
    [fetchToken] resolves with [undefined], and [refreshToken] is rejected
    by its own throw. *)
Lemma token_never_undefined_counterexample :
  outcome_of (handle_any (ExchangeReturnsNothing 2) (snd (call fetchToken W0))) 0
  = Some (Fulfilled None) /\
  outcome_of (handle_any (ExchangeReturnsNothing 3) (snd (call refreshToken W0))) 0
  = Some (Rejected (Thrown "error getting token")).
Proof. split; vm_compute; reflexivity. Qed.

(** ** A call between two jobs *)

Lemma drain_0 w : drain 0 w = w.
Proof. reflexivity. Qed.

Lemma drain_S n w :
  drain (S n) w =
  match microtasks w with
  | [] => w
  | (r, o) :: rest => drain n (snd (run_job r o (with_microtasks rest w)))
  end.
Proof. reflexivity. Qed.

(** A [connect()] called after the callback of a resolved exchange has
    run, and before the continuation of [refreshToken] that stores the new
    token: it finds the old token still usable, and its own continuation
    writes the old token back after the new one was stored. *)
Lemma connect_between_jobs (w : World) (tokA tokB : ApiTokenInfo) (n : nat) :
  microtasks w = [] ->
  tokenPromise w = None ->
  tokenStorage w = Some tokA ->
  Qcleb (expires_at tokA) (now_seconds w) = false ->
  1 <= n <= 2 ->
  let '(r, w1) := call refreshToken w in
  let w2 := snd (dispatch (ExchangeResolves (r + 3) tokB) w1) in
  let '(c, w3) := call_between_jobs n connect w2 in
  outcome_of w3 r = Some (Fulfilled (Some tokB)) /\
  tokenStorage w3 = Some tokA /\
  (exists k, refreshScheduler w3 = Some (delay_at tokB (clock w) k)) /\
  client_connects w3 = client_connects w + 1 /\
  exchange_calls w3 = exchange_calls w + 1.
Proof.
  unfold now_seconds. revert w. intros w. open_world w.
  match goal with H : 1 <= n <= 2 |- _ => revert H end. intros Hn.
  eval_call. unfold call_between_jobs.
  destruct n as [|[|[|n]]]; [lia| | |lia]; clear Hn.
  all: destruct w_fc; repeat (exec; cbn [drain]).
  all: count_calls; unfold delay_at; repeat split; first [reflexivity | lia | eexists; reflexivity].
Qed.

(** X17.  When the store is written.  As long as every call is made from a
    task of its own, with no job queued, the store changes only when an
    exchange resolves: handling an event leaves the store as it was, or the
    event is an exchange resolving with a token and the store holds that
    token.  A call made between two jobs breaks this: a [connect()] called
    from a continuation that runs after the callback of a resolved exchange,
    and before [refreshToken] has stored the new token, finds the old token
    still usable, and the [tokenStorage.set] of [connect] writes it back
    over the new one, while [refreshToken] has resolved with the new token
    and the timer is armed from the new token's expiry. *)
Theorem store_written_in_job_order :
  (forall (params : EoswsConnectorParams) (clk : nat -> Z) (evs : list Event) (ev : Event),
      let w := run evs (constructor params clk) in
      tokenStorage (handle ev w) = tokenStorage w \/
      exists p t, ev = ExchangeResolves p t /\ tokenStorage (handle ev w) = Some t) /\
  (forall (w : World) (tokA tokB : ApiTokenInfo) (n : nat),
      microtasks w = [] ->
      tokenPromise w = None ->
      tokenStorage w = Some tokA ->
      Qcleb (expires_at tokA) (now_seconds w) = false ->
      1 <= n <= 2 ->
      let '(r, w1) := call refreshToken w in
      let w2 := snd (dispatch (ExchangeResolves (r + 3) tokB) w1) in
      let '(c, w3) := call_between_jobs n connect w2 in
      outcome_of w3 r = Some (Fulfilled (Some tokB)) /\
      tokenStorage w3 = Some tokA /\
      (exists k, refreshScheduler w3 = Some (delay_at tokB (clock w) k)) /\
      client_connects w3 = client_connects w + 1 /\
      exchange_calls w3 = exchange_calls w + 1).
Proof.
  split.
  - intros params clk evs ev w. apply (handle_store_after ev w).
    + apply reachable_invariant.
    + apply reachable_flight.
    + apply run_quiescent. reflexivity.
  - exact connect_between_jobs.
Qed.

Lemma store_written_in_job_order_witness :
  let w := constructor params_stored clock0 in
  let tokB := mkApiTokenInfo "tok2" (Q2Qc 9000) in
  microtasks w = [] /\
  tokenPromise w = None /\
  tokenStorage w = Some (tok1 (seconds 5000000)) /\
  Qcleb (expires_at (tok1 (seconds 5000000))) (now_seconds w) = false /\
  1 <= 2 <= 2 /\
  tokenStorage
    (snd (call_between_jobs 2 connect
            (snd (dispatch (ExchangeResolves 3 tokB) (snd (call refreshToken w))))))
  = Some (tok1 (seconds 5000000)).
Proof.
  intros w tokB.
  assert (H4 : Qcleb (expires_at (tok1 (seconds 5000000))) (now_seconds w) = false)
    by (vm_compute; reflexivity).
  assert (H5 : 1 <= 2 <= 2) by lia.
  refine (conj eq_refl (conj eq_refl (conj eq_refl (conj H4 (conj H5 _))))).
  pose proof (proj2 store_written_in_job_order w (tok1 (seconds 5000000)) tokB 2
                eq_refl eq_refl eq_refl H4 H5) as H.
  destruct (call refreshToken w) as [r w1] eqn:E.
  assert (Hr : r = 0) by (apply (f_equal fst) in E; vm_compute in E; congruence).
  subst r. cbn [snd]. change (0 + 3) with 3 in H. cbv zeta in H. revert H.
  destruct (call_between_jobs 2 connect (snd (dispatch (ExchangeResolves 3 tokB) w1)))
    as [c w3].
  intros H. exact (proj1 (proj2 H)).
Defined.

(** ** The error connect fails with *)

(** On a new connector with an empty store, [connect()] whose exchange is
    rejected with "timeout" is rejected with that very value: it does not
    fail with a [TokenAcquisitionError]. *)
Lemma connect_exchange_fails_counterexample :
  outcome_of (handle (CollaboratorRejects 5 "timeout") (snd (call connect W0)))
             (fst (call connect W0))
  = Some (Rejected (Reason "timeout")) /\
  ~ (exists e,
        outcome_of (handle (CollaboratorRejects 5 "timeout") (snd (call connect W0)))
                   (fst (call connect W0))
        = Some (Rejected e) /\
        TokenAcquisitionError e = true).
Proof.
  assert (H : outcome_of (handle (CollaboratorRejects 5 "timeout") (snd (call connect W0)))
                         (fst (call connect W0))
              = Some (Rejected (Reason "timeout"))) by (vm_compute; reflexivity).
  split; [exact H|]. intros (e & He & Ht). rewrite H in He.
  injection He as <-. discriminate Ht.
Qed.
